(** * TorchDR: k-NN normalised affinities and the PHATE configuration layer

    A shallow embedding of

    - [torchdr/affinity/knn_normalized.py]: the kernels [_log_SelfTuning] and
      [_log_MAGIC], and the classes [SelfTuningAffinity] and [MAGICAffinity];
    - [torchdr/diffusion_embedding/phate.py]: [PHATE.__init__].

    Tensor entries are IEEE-754 floats in the source.  They are modelled as
    extended reals: a real number, one of the two infinities, or nan.  The
    operations follow the IEEE rules for the special values (division by
    zero, [inf - inf], [0 * inf], ...) and are exact on finite values:
    rounding, overflow of finite results and the sign of zero are not
    modelled (zero is taken as positive).  Tensors are dense; the lazy
    (KeOps) and sparse (FAISS) representations of the backends are not
    modelled.

    The input data is a list of samples of an abstract type, and the
    pairwise distance under a named metric is a parameter of the fits (the
    distance oracle of the specification). *)

From Stdlib Require Import Reals Lra Lia List Bool Arith ZArith String.
From Stdlib Require Import Permutation Sorted.
Import ListNotations.

Set Implicit Arguments.

(* ================================================================== *)
(** * Extended reals: the value of a tensor entry *)
(* ================================================================== *)

Module XReal.

Local Open Scope R_scope.

Inductive xreal : Type :=
| Fin (r : R)
| PInf
| NInf
| NaN.

Definition Rltb (a b : R) : bool := if Rlt_dec a b then true else false.
Definition Rleb (a b : R) : bool := if Rle_dec a b then true else false.
Definition Reqb (a b : R) : bool := if Req_dec_T a b then true else false.

(** Unary minus. *)
Definition xneg (x : xreal) : xreal :=
  match x with
  | Fin r => Fin (- r)
  | PInf => NInf
  | NInf => PInf
  | NaN => NaN
  end.

(** Addition: [inf + (-inf)] is nan. *)
Definition xadd (x y : xreal) : xreal :=
  match x, y with
  | NaN, _ | _, NaN => NaN
  | PInf, NInf | NInf, PInf => NaN
  | PInf, _ | _, PInf => PInf
  | NInf, _ | _, NInf => NInf
  | Fin a, Fin b => Fin (a + b)
  end.

Definition xsub (x y : xreal) : xreal := xadd x (xneg y).

(** The sign of a real as an infinity: used for [inf * r] and [r / 0]. *)
Definition signed_inf (negative : bool) : xreal :=
  if negative then NInf else PInf.

(** Multiplication: [0 * inf] is nan. *)
Definition xmul (x y : xreal) : xreal :=
  match x, y with
  | NaN, _ | _, NaN => NaN
  | Fin a, Fin b => Fin (a * b)
  | Fin a, PInf | PInf, Fin a =>
      if Reqb a 0 then NaN else signed_inf (Rltb a 0)
  | Fin a, NInf | NInf, Fin a =>
      if Reqb a 0 then NaN else signed_inf (negb (Rltb a 0))
  | PInf, PInf | NInf, NInf => PInf
  | PInf, NInf | NInf, PInf => NInf
  end.

(** Division: [0 / 0] and [inf / inf] are nan, [r / 0] is an infinity of
    the sign of [r], [r / inf] is zero. *)
Definition xdiv (x y : xreal) : xreal :=
  match x, y with
  | NaN, _ | _, NaN => NaN
  | Fin a, Fin b =>
      if Reqb b 0
      then (if Reqb a 0 then NaN else signed_inf (Rltb a 0))
      else Fin (a / b)
  | Fin _, PInf | Fin _, NInf => Fin 0
  | PInf, Fin b => signed_inf (Rltb b 0)
  | NInf, Fin b => signed_inf (negb (Rltb b 0))
  | PInf, PInf | PInf, NInf | NInf, PInf | NInf, NInf => NaN
  end.

(** [torch.exp]: [exp(-inf) = 0]. *)
Definition xexp (x : xreal) : xreal :=
  match x with
  | Fin r => Fin (exp r)
  | PInf => PInf
  | NInf => Fin 0
  | NaN => NaN
  end.

(** [torch.log]: [log 0 = -inf], the log of a negative number is nan. *)
Definition xlog (x : xreal) : xreal :=
  match x with
  | Fin r => if Reqb r 0 then NInf else if Rltb r 0 then NaN else Fin (ln r)
  | PInf => PInf
  | NInf => NaN
  | NaN => NaN
  end.

(** The order torch sorts by: the usual order of the extended real line,
    with nan after everything else. *)
Definition xleb (x y : xreal) : bool :=
  match x, y with
  | _, NaN => true
  | NaN, _ => false
  | NInf, _ => true
  | _, NInf => false
  | _, PInf => true
  | PInf, _ => false
  | Fin a, Fin b => Rleb a b
  end.

Definition xltb (x y : xreal) : bool := negb (xleb y x).

(** Sum of a list of entries. *)
Definition xsum (l : list xreal) : xreal := fold_right xadd (Fin 0) l.

Definition is_finite (x : xreal) : bool :=
  match x with Fin _ => true | _ => false end.

End XReal.
Export XReal.

(* ================================================================== *)
(** * Exceptions *)
(* ================================================================== *)

(** The exceptions the modelled code can end in.  [InvalidKError] and
    [DegenerateBandwidthError] are error kinds of the specification;
    [ValueError] and [IndexError] are Python's. *)
Inductive exn : Type :=
| InvalidKError
| DegenerateBandwidthError
| IndexError
| ValueError (msg : string).

(** A computation that returns a value or raises. *)
Definition result (A : Type) : Type := (exn + A)%type.

Definition ret {A : Type} (a : A) : result A := inr a.
Definition raise {A : Type} (e : exn) : result A := inl e.
Definition bind {A B : Type} (m : result A) (k : A -> result B) : result B :=
  match m with
  | inl e => inl e
  | inr a => k a
  end.

Declare Scope result_scope.
Delimit Scope result_scope with result.
Notation "x <- m ;; k" := (bind m (fun x => k))
  (at level 61, m at next level, right associativity) : result_scope.
Notation "' p <- m ;; k" := (bind m (fun x => let 'p := x in k))
  (at level 61, p pattern, m at next level, right associativity) : result_scope.

(** A keyword argument with a default value: [None] when the caller does
    not pass it. *)
Definition kwarg {A : Type} (default : A) (given : option A) : A :=
  match given with
  | Some a => a
  | None => default
  end.

(* ================================================================== *)
(** * Two-dimensional tensors *)
(* ================================================================== *)

Module Tensor.

(** A dense 2-D tensor: its shape and its entries.  [entry] is read only
    inside the shape. *)
Record tensor : Type := mk_tensor {
  nrows : nat;
  ncols : nat;
  entry : nat -> nat -> xreal
}.

(** A 1-D tensor. *)
Record vector : Type := mk_vector {
  vlen : nat;
  item : nat -> xreal
}.

(** A 2-D tensor of indices. *)
Record itensor : Type := mk_itensor {
  inrows : nat;
  incols : nat;
  ientry : nat -> nat -> nat
}.

(** The axes of a 2-D tensor. *)
Inductive axis : Type := Axis0 | Axis1.

(** An axis specification of a reduction: one axis, or the pair [(0, 1)]. *)
Inductive axes : Type :=
| Dim (a : axis)
| Dim01.

Definition row (T : tensor) (i : nat) : list xreal :=
  map (entry T i) (seq 0 (ncols T)).

Definition col (T : tensor) (j : nat) : list xreal :=
  map (fun i => entry T i j) (seq 0 (nrows T)).

Definition entries (T : tensor) : list xreal :=
  flat_map (row T) (seq 0 (nrows T)).

Definition of_rows (n m : nat) (rows : list (list xreal)) : tensor :=
  mk_tensor n m (fun i j => nth j (nth i rows []) NaN).

(** [v.unsqueeze(-1)]: a vector of length [n] as an [n x 1] column. *)
Definition unsqueeze_last (v : vector) : tensor :=
  mk_tensor (vlen v) 1 (fun i _ => item v i).

Definition tmap (f : xreal -> xreal) (T : tensor) : tensor :=
  mk_tensor (nrows T) (ncols T) (fun i j => f (entry T i j)).

(** Broadcasting of two shapes along one axis: a dimension of size 1 is
    stretched to the other size.  (torch raises when the sizes differ and
    neither is 1; the operands below are always [n x n], [n x 1], [1 x n]
    or [1 x 1] for one [n].) *)
Definition bdim (a b : nat) : nat := if a =? 1 then b else a.
Definition bidx (d i : nat) : nat := if d =? 1 then 0 else i.

Definition broadcast (f : xreal -> xreal -> xreal) (A B : tensor) : tensor :=
  mk_tensor (bdim (nrows A) (nrows B)) (bdim (ncols A) (ncols B))
    (fun i j =>
       f (entry A (bidx (nrows A) i) (bidx (ncols A) j))
         (entry B (bidx (nrows B) i) (bidx (ncols B) j))).

Definition tneg : tensor -> tensor := tmap xneg.
Definition texp : tensor -> tensor := tmap xexp.
Definition tadd : tensor -> tensor -> tensor := broadcast xadd.
Definition tsub : tensor -> tensor -> tensor := broadcast xsub.
Definition tmul : tensor -> tensor -> tensor := broadcast xmul.
Definition tdiv : tensor -> tensor -> tensor := broadcast xdiv.

(** Division by a Python number. *)
Definition tdiv_scalar (T : tensor) (c : R) : tensor :=
  tmap (fun x => xdiv x (Fin c)) T.

(** Python indexing of a sequence of length [n]: a negative index counts
    from the end. *)
Definition py_index (n : nat) (j : Z) : option nat :=
  let j' := if (j <? 0)%Z then (j + Z.of_nat n)%Z else j in
  if ((0 <=? j')%Z && (j' <? Z.of_nat n)%Z)%bool then Some (Z.to_nat j')
  else None.

(** [T[:, j]]. *)
Definition select_column (T : tensor) (j : Z) : result vector :=
  match py_index (ncols T) j with
  | Some c => ret (mk_vector (nrows T) (fun i => entry T i c))
  | None => raise IndexError
  end.

(** ** Helpers of [torchdr.utils] *)

(** Modelled from the spec: [matrix_transpose] of [torchdr.utils], whose
    source is not among the files verified here ("transpose(M) -> M^T"). *)
Definition matrix_transpose (T : tensor) : tensor :=
  mk_tensor (ncols T) (nrows T) (fun i j => entry T j i).

(** Modelled from the spec: [sum_red] of [torchdr.utils], whose source is not
    among the files verified here ("sum_reduce(M, axis) -> rowsum").  The reduced axis is kept
    with size 1, so that "divide every row by its sum" is a broadcast
    division. *)
Definition sum_red (T : tensor) (dim : axis) : tensor :=
  match dim with
  | Axis1 => mk_tensor (nrows T) 1 (fun i _ => xsum (row T i))
  | Axis0 => mk_tensor 1 (ncols T) (fun _ j => xsum (col T j))
  end.

(** Modelled from the spec: [logsumexp_red] of [torchdr.utils], whose
    source is not among the files verified here ("log_sum_exp_reduce(logM, axis_or_axes) -> logZ", the
    log-partition term over one axis or jointly over both).  The reduced
    axes are kept with size 1, so that it can be subtracted from every
    entry. *)
Definition logsumexp_red (T : tensor) (dim : axes) : tensor :=
  match dim with
  | Dim Axis1 =>
      mk_tensor (nrows T) 1 (fun i _ => xlog (xsum (map xexp (row T i))))
  | Dim Axis0 =>
      mk_tensor 1 (ncols T) (fun _ j => xlog (xsum (map xexp (col T j))))
  | Dim01 =>
      mk_tensor 1 1 (fun _ _ => xlog (xsum (map xexp (entries T))))
  end.

(** Stable insertion sort of (value, index) pairs by value. *)
Fixpoint insert_pair (x : xreal * nat) (l : list (xreal * nat))
  : list (xreal * nat) :=
  match l with
  | [] => [x]
  | y :: l' => if xleb (fst x) (fst y) then x :: l else y :: insert_pair x l'
  end.

Definition sort_pairs (l : list (xreal * nat)) : list (xreal * nat) :=
  fold_right insert_pair [] l.

(** The [k] smallest entries of a list, in increasing order, each with its
    position. *)
Definition k_smallest (k : nat) (r : list xreal) : list (xreal * nat) :=
  firstn k (sort_pairs (combine r (seq 0 (List.length r)))).

(** Modelled from the spec: [kmin] of [torchdr.utils], whose source is not
    among the files verified here ("k_min(C, k, axis) -> (values, indices):
    the k smallest entries per row/column", found by a partial sort, hence
    in increasing order; "fails with InvalidKError when K exceeds the number
    of columns", and for "K <= 0").  With [dim = 1] the values have shape
    [n x k]. *)
Definition kmin (A : tensor) (k : Z) (dim : axis) : result (tensor * itensor) :=
  let size := match dim with Axis1 => ncols A | Axis0 => nrows A end in
  if ((k <=? 0)%Z || (Z.of_nat size <? k)%Z)%bool then raise InvalidKError
  else
    let k' := Z.to_nat k in
    match dim with
    | Axis1 =>
        ret (mk_tensor (nrows A) k'
               (fun i j => fst (nth j (k_smallest k' (row A i)) (NaN, 0%nat))),
             mk_itensor (nrows A) k'
               (fun i j => snd (nth j (k_smallest k' (row A i)) (NaN, 0%nat))))
    | Axis0 =>
        ret (mk_tensor k' (ncols A)
               (fun i j => fst (nth i (k_smallest k' (col A j)) (NaN, 0%nat))),
             mk_itensor k' (ncols A)
               (fun i j => snd (nth i (k_smallest k' (col A j)) (NaN, 0%nat))))
    end.

End Tensor.
Export Tensor.

(* ================================================================== *)
(** * torchdr/affinity/knn_normalized.py *)
(* ================================================================== *)

(** Modelled from the spec: the decorator [wrap_vectors] of [torchdr.utils],
    whose source is not among the files verified here.  The kernels are
    "logP[i,j] = -C[i,j] / (sigma_i sigma_j)" and "logP[i,j] = -C[i,j] /
    sigma_i", with the bandwidth of the row: the decorator turns the
    bandwidth vector into a column before the body runs. *)
Definition wrap_vectors (func : tensor -> tensor -> tensor)
  : tensor -> vector -> tensor :=
  fun C sigma => func C (unsqueeze_last sigma).

Definition _log_SelfTuning : tensor -> vector -> tensor :=
  wrap_vectors (fun C sigma =>
    let sigma_t := matrix_transpose sigma in
    tdiv (tneg C) (tmul sigma sigma_t)).

Definition _log_MAGIC : tensor -> vector -> tensor :=
  wrap_vectors (fun C sigma => tdiv (tneg C) sigma).

(** The base class [Affinity] of [torchdr.affinity.base], whose source is not
    among the files verified here: the attributes its constructor receives. *)
Module Affinity.

Record t : Type := mk {
  metric : string;
  zero_diag : bool;
  device : option string;
  backend : option string;
  verbose : bool
}.

Section DistanceOracle.

(** The samples of the input data and the external distance oracle: the
    distance of two samples under the metric of the given name. *)
Variable sample : Type.
Variable pairwise_distance : string -> sample -> sample -> xreal.

(** Modelled from the spec: [Affinity._distance_matrix], whose source is not
    among the files verified here.  The pairwise distances come from the
    oracle; with [zero_diag] the diagonal is masked on the distance matrix,
    "by setting diagonal distance to +inf".  The second component is the
    optional auxiliary result, which both callers drop. *)
Definition _distance_matrix (self : t) (X : list sample)
  : tensor * option itensor :=
  let n := List.length X in
  (mk_tensor n n (fun i j =>
     if (zero_diag self && (i =? j))%bool then PInf
     else match nth_error X i, nth_error X j with
          | Some x, Some y => pairwise_distance (metric self) x y
          | _, _ => NaN
          end),
   None).

End DistanceOracle.

End Affinity.

Module SelfTuningAffinity.

(** An instance: the attributes of the base class, the constructor's
    arguments, and the fitted attributes (unset until a fit). *)
Record t : Type := mk {
  base : Affinity.t;
  K : Z;
  normalization_dim : option axes;
  sigma_ : option vector;
  log_normalization_ : option tensor
}.

(** The keyword arguments of the constructor. *)
Record kwargs : Type := mk_kwargs {
  kw_K : option Z;
  kw_normalization_dim : option (option axes);
  kw_metric : option string;
  kw_zero_diag : option bool;
  kw_device : option (option string);
  kw_backend : option (option string);
  kw_verbose : option bool
}.

Definition no_kwargs : kwargs :=
  mk_kwargs None None None None None None None.

Definition __init__ (kw : kwargs) : t :=
  let K := kwarg 7%Z (kw_K kw) in
  let normalization_dim := kwarg (Some Dim01) (kw_normalization_dim kw) in
  let metric := kwarg "sqeuclidean"%string (kw_metric kw) in
  let zero_diag := kwarg true (kw_zero_diag kw) in
  let device := kwarg None (kw_device kw) in
  let backend := kwarg None (kw_backend kw) in
  let verbose := kwarg false (kw_verbose kw) in
  mk (Affinity.mk metric zero_diag device backend verbose)
     K normalization_dim None None.

Definition set_sigma_ (self : t) (v : vector) : t :=
  mk (base self) (K self) (normalization_dim self)
     (Some v) (log_normalization_ self).

Definition set_log_normalization_ (self : t) (T : tensor) : t :=
  mk (base self) (K self) (normalization_dim self)
     (sigma_ self) (Some T).

Section Fit.

Variable sample : Type.
Variable pairwise_distance : string -> sample -> sample -> xreal.

Local Open Scope result_scope.

(** Returns the log-affinity matrix and the instance with its fitted
    attributes. *)
Definition _compute_log_affinity (self : t) (X : list sample)
  : result (tensor * t) :=
  let '(C, _) := Affinity._distance_matrix pairwise_distance (base self) X in
  '(minK_values, _) <- kmin C (K self) Axis1 ;;
  sigma <- select_column minK_values (-1) ;;
  let self := set_sigma_ self sigma in
  let log_affinity_matrix := _log_SelfTuning C sigma in
  match normalization_dim self with
  | Some dim =>
      let log_normalization := logsumexp_red log_affinity_matrix dim in
      let self := set_log_normalization_ self log_normalization in
      let log_affinity_matrix := tsub log_affinity_matrix log_normalization in
      ret (log_affinity_matrix, self)
  | None => ret (log_affinity_matrix, self)
  end.

End Fit.

End SelfTuningAffinity.

Module MAGICAffinity.

Record t : Type := mk {
  base : Affinity.t;
  K : Z;
  sigma_ : option vector
}.

Record kwargs : Type := mk_kwargs {
  kw_K : option Z;
  kw_metric : option string;
  kw_zero_diag : option bool;
  kw_device : option (option string);
  kw_backend : option (option string);
  kw_verbose : option bool
}.

Definition no_kwargs : kwargs := mk_kwargs None None None None None None.

Definition __init__ (kw : kwargs) : t :=
  let K := kwarg 7%Z (kw_K kw) in
  let metric := kwarg "sqeuclidean"%string (kw_metric kw) in
  let zero_diag := kwarg true (kw_zero_diag kw) in
  let device := kwarg None (kw_device kw) in
  let backend := kwarg None (kw_backend kw) in
  let verbose := kwarg false (kw_verbose kw) in
  mk (Affinity.mk metric zero_diag device backend verbose) K None.

Definition set_sigma_ (self : t) (v : vector) : t :=
  mk (base self) (K self) (Some v).

Section Fit.

Variable sample : Type.
Variable pairwise_distance : string -> sample -> sample -> xreal.

Local Open Scope result_scope.

(** Returns the affinity matrix and the instance with its fitted
    attribute. *)
Definition _compute_affinity (self : t) (X : list sample)
  : result (tensor * t) :=
  let '(C, _) := Affinity._distance_matrix pairwise_distance (base self) X in
  '(minK_values, _) <- kmin C (K self) Axis1 ;;
  sigma <- select_column minK_values (-1) ;;
  let self := set_sigma_ self sigma in
  let affinity_matrix := texp (_log_MAGIC C sigma) in
  let affinity_matrix :=
    tdiv_scalar (tadd affinity_matrix (matrix_transpose affinity_matrix)) 2 in
  let affinity_matrix :=
    tdiv affinity_matrix (sum_red affinity_matrix Axis1) in
  ret (affinity_matrix, self).

End Fit.

End MAGICAffinity.

(* ================================================================== *)
(** * torchdr/diffusion_embedding/phate.py *)
(* ================================================================== *)

Module PHATE.

(** A Python [dict] of optimizer or scheduler options. *)
Definition dict : Type := list (string * R).

(** The keyword arguments of [PHATE.__init__]. *)
Record kwargs : Type := mk_kwargs {
  kw_n_neighbors : option Z;
  kw_n_components : option Z;
  kw_t : option Z;
  kw_eps : option R;
  kw_optimizer : option string;
  kw_optimizer_kwargs : option dict;
  kw_lr : option R;
  kw_scheduler : option (option string);
  kw_scheduler_kwargs : option dict;
  kw_min_grad_norm : option R;
  kw_max_iter : option Z;
  kw_init : option string;
  kw_init_scaling : option R;
  kw_device : option string;
  kw_backend : option (option string);
  kw_verbose : option bool;
  kw_random_state : option (option R);
  kw_check_interval : option Z
}.

Definition no_kwargs : kwargs :=
  mk_kwargs None None None None None None None None None
            None None None None None None None None None.

(** The arguments of the call [NegPotentialAffinity(backend=, device=, eps=,
    t=, K=)]. *)
Record NegPotentialAffinity_args : Type := mk_NegPotentialAffinity_args {
  np_backend : option string;
  np_device : string;
  np_eps : R;
  np_t : Z;
  np_K : Z
}.

(** The arguments of the call [NegativeCostAffinity(backend=, device=)]. *)
Record NegativeCostAffinity_args : Type := mk_NegativeCostAffinity_args {
  nc_backend : option string;
  nc_device : string
}.

(** The arguments of the call [super().__init__(...)], for input and output
    affinities of the types [A_in] and [A_out]. *)
Record AffinityMatcher_args (A_in A_out : Type) : Type :=
  mk_AffinityMatcher_args {
  affinity_in : A_in;
  affinity_out : A_out;
  n_components : Z;
  loss_fn : string;
  optimizer : string;
  optimizer_kwargs : dict;
  lr : R;
  scheduler : option string;
  scheduler_kwargs : dict;
  min_grad_norm : R;
  max_iter : Z;
  init : string;
  init_scaling : R;
  device : string;
  backend : option string;
  verbose : bool;
  random_state : option R;
  check_interval : Z
}.

(** The value of [init_scaling] that the docstring of the class gives as
    its default. *)
Definition documented_init_scaling : R := (1 / 10000)%R.

(** [backend == "faiss"]. *)
Definition is_faiss (backend : option string) : bool :=
  match backend with
  | Some s => String.eqb s "faiss"
  | None => false
  end.

Definition faiss_message (class_name : string) : string :=
  ("[TorchDR] ERROR : FAISS backend is not supported for PHATE. "
   ++ "The " ++ class_name ++ " class does not support sparsity. "
   ++ "Please use backend None or 'keops' instead.")%string.

Section Init.

(** The sources of the classes [NegPotentialAffinity], [NegativeCostAffinity]
    and [AffinityMatcher] are not among the files verified here: their
    instances are abstract and their constructors are parameters, which may
    raise. *)
Variables NegPotentialAffinity_t NegativeCostAffinity_t AffinityMatcher_t : Type.
Variable NegPotentialAffinity :
  NegPotentialAffinity_args -> result NegPotentialAffinity_t.
Variable NegativeCostAffinity :
  NegativeCostAffinity_args -> result NegativeCostAffinity_t.
Variable AffinityMatcher__init__ :
  AffinityMatcher_args NegPotentialAffinity_t NegativeCostAffinity_t ->
  result AffinityMatcher_t.

(** An instance: the attributes [__init__] sets itself, and the part set up
    by the constructor of the base class. *)
Record t : Type := mk {
  n_neighbors : Z;
  t_ : Z;
  eps : R;
  super : AffinityMatcher_t
}.

Local Open Scope result_scope.

(** [class_name] is [self.__class__.__name__]. *)
Definition __init__ (class_name : string) (kw : kwargs) : result t :=
  let n_neighbors := kwarg 10%Z (kw_n_neighbors kw) in
  let n_components := kwarg 2%Z (kw_n_components kw) in
  let t := kwarg 5%Z (kw_t kw) in
  let eps := kwarg (1 / 100000)%R (kw_eps kw) in
  let optimizer := kwarg "Adam"%string (kw_optimizer kw) in
  let optimizer_kwargs := kwarg [] (kw_optimizer_kwargs kw) in
  let lr := kwarg 1%R (kw_lr kw) in
  let scheduler := kwarg None (kw_scheduler kw) in
  let scheduler_kwargs := kwarg [] (kw_scheduler_kwargs kw) in
  let min_grad_norm := kwarg (1 / 10000000)%R (kw_min_grad_norm kw) in
  let max_iter := kwarg 1000%Z (kw_max_iter kw) in
  let init := kwarg "pca"%string (kw_init kw) in
  let init_scaling := kwarg 1%R (kw_init_scaling kw) in
  let device := kwarg "auto"%string (kw_device kw) in
  let backend := kwarg None (kw_backend kw) in
  let verbose := kwarg false (kw_verbose kw) in
  let random_state := kwarg None (kw_random_state kw) in
  let check_interval := kwarg 50%Z (kw_check_interval kw) in
  if is_faiss backend then raise (ValueError (faiss_message class_name))
  else
    affinity_in <-
      NegPotentialAffinity
        (mk_NegPotentialAffinity_args backend device eps t n_neighbors) ;;
    affinity_out <-
      NegativeCostAffinity (mk_NegativeCostAffinity_args backend device) ;;
    let loss_fn := "l2_loss"%string in
    base <-
      AffinityMatcher__init__
        (mk_AffinityMatcher_args affinity_in affinity_out n_components
           loss_fn optimizer optimizer_kwargs lr scheduler scheduler_kwargs
           min_grad_norm max_iter init init_scaling device backend verbose
           random_state check_interval) ;;
    ret (mk n_neighbors t eps base).

End Init.

End PHATE.

(* ================================================================== *)
(** * The properties of the specification *)
(* ================================================================== *)

Module Spec.

Local Open Scope R_scope.

(** How many entries of [l] are below [v], and how many are not above it. *)
Definition count_lt (v : xreal) (l : list xreal) : nat :=
  List.length (filter (fun x => xltb x v) l).

Definition count_le (v : xreal) (l : list xreal) : nat :=
  List.length (filter (fun x => xleb x v) l).

(** [v] is the [k]-th smallest entry of [l], counted from 1 and with
    duplicates: it occurs in [l], fewer than [k] entries are below it and at
    least [k] entries are not above it. *)
Definition kth_smallest (l : list xreal) (k : nat) (v : xreal) : Prop :=
  In v l /\ (count_lt v l < k)%nat /\ (k <= count_le v l)%nat.

(** Two tensors of the same shape with the same entries. *)
Definition same_tensor (A B : tensor) : Prop :=
  nrows A = nrows B /\ ncols A = ncols B /\
  forall i j, (i < nrows A)%nat -> (j < ncols A)%nat ->
    entry A i j = entry B i j.

(** The three steps of the diffusion (MAGIC) affinity, as the specification
    words them. *)

(** "P[i,j] = exp(-C[i,j] / sigma_i)" *)
Definition magic_kernel (C : tensor) (sigma : vector) : tensor :=
  mk_tensor (nrows C) (ncols C)
    (fun i j => xexp (xdiv (xneg (entry C i j)) (item sigma i))).

(** "P <- (P + P^T) / 2" *)
Definition symmetrize (P : tensor) : tensor :=
  mk_tensor (nrows P) (ncols P)
    (fun i j => xdiv (xadd (entry P i j) (entry P j i)) (Fin 2)).

(** "P <- P / rowsum(P)" *)
Definition row_normalize (P : tensor) : tensor :=
  mk_tensor (nrows P) (ncols P)
    (fun i j => xdiv (entry P i j) (xsum (row P i))).

(** The fitted bandwidth [sigma_] holds the [K]-th smallest entry of every
    row of the distance matrix [C]. *)
Definition bandwidth_is_kth_smallest
  (C : tensor) (K : Z) (sigma_ : option vector) : Prop :=
  exists sigma, sigma_ = Some sigma /\ vlen sigma = nrows C /\
    forall i, (i < nrows C)%nat ->
      kth_smallest (row C i) (Z.to_nat K) (item sigma i).

(** A bandwidth that is a positive real number. *)
Definition positive (x : xreal) : Prop := exists s, x = Fin s /\ 0 < s.

(** An entry that is a real number or [-inf]: the logarithm of a
    non-negative real number. *)
Definition log_weight (x : xreal) : Prop := x = NInf \/ exists r, x = Fin r.

(** A distance that is a real number or [+inf] (a masked entry). *)
Definition distance_value (x : xreal) : Prop := x = PInf \/ exists r, x = Fin r.

(** A line of a tensor along an axis: row [k] along axis 1, column [k]
    along axis 0. *)
Definition line (a : axis) (T : tensor) (k : nat) : list xreal :=
  match a with
  | Axis1 => row T k
  | Axis0 => col T k
  end.

(** An entry that is a real number between 0 and 1. *)
Definition probability (x : xreal) : Prop :=
  exists p, x = Fin p /\ 0 <= p <= 1.

(** An entry multiplied by a real factor. *)
Definition scaled (c : R) (x : xreal) : xreal := xmul (Fin c) x.

End Spec.

(* ================================================================== *)
(** * A concrete distance oracle and small data sets *)
(* ================================================================== *)

Module Data.

Local Open Scope R_scope.

(** The squared Euclidean distance of two points, the default metric. *)
Definition sqeuclidean (x y : list R) : xreal :=
  Fin (fold_right Rplus 0
         (map (fun p => (fst p - snd p) * (fst p - snd p)) (combine x y))).

(** A distance oracle that knows the squared Euclidean distance only. *)
Definition sqeuclidean_oracle (metric : string) : list R -> list R -> xreal :=
  sqeuclidean.

(** Two copies of one point. *)
Definition duplicates : list (list R) := [[0]; [0]].

(** Three points on a line. *)
Definition line3 : list (list R) := [[0]; [1]; [2]].

(** The distances of two points at distance 1, and unit bandwidths. *)
Definition unit_distances : tensor :=
  of_rows 2 2 [[Fin 0; Fin 1]; [Fin 1; Fin 0]].

Definition unit_bandwidths : vector := mk_vector 2 (fun _ => Fin 1).

(** The distances of two copies of a point with the masked diagonal, and
    zero bandwidths. *)
Definition masked_zero_distances : tensor :=
  of_rows 2 2 [[PInf; Fin 0]; [Fin 0; PInf]].

Definition zero_bandwidths : vector := mk_vector 2 (fun _ => Fin 0).

(** The constructor arguments of a PHATE instance with the FAISS backend,
    and constructors of the absent classes that record their arguments. *)
Definition faiss_kwargs : PHATE.kwargs :=
  PHATE.mk_kwargs None None None None None None None None None
                  None None None None None (Some (Some "faiss"%string))
                  None None None.

Definition record_args {A : Type} (args : A) : result A := ret args.

(** Instances with one neighbour ([K = 1]) and every other argument left at
    its default: [zero_diag = True], and the joint normalization [(0, 1)]
    for the self-tuning affinity. *)
Definition self_tuning_K1 : SelfTuningAffinity.t :=
  SelfTuningAffinity.__init__
    (SelfTuningAffinity.mk_kwargs (Some 1%Z) None None None None None None).

Definition magic_K1 : MAGICAffinity.t :=
  MAGICAffinity.__init__
    (MAGICAffinity.mk_kwargs (Some 1%Z) None None None None None).

(** Self-tuning instances with one neighbour and the given normalization. *)
Definition self_tuning_K1_with (normalization_dim : option axes)
  : SelfTuningAffinity.t :=
  SelfTuningAffinity.__init__
    (SelfTuningAffinity.mk_kwargs (Some 1%Z) (Some normalization_dim)
       None None None None None).

(** Instances with two and with three neighbours. *)
Definition magic_with_K (K : Z) : MAGICAffinity.t :=
  MAGICAffinity.__init__
    (MAGICAffinity.mk_kwargs (Some K) None None None None None).

(** The squared Euclidean distance in another unit: every distance is
    multiplied by [c]. *)
Definition rescaled_oracle (c : R) (metric : string)
  : list R -> list R -> xreal :=
  fun x y => Spec.scaled c (sqeuclidean x y).

End Data.

(* ================================================================== *)
(** * Facts about extended reals *)
(* ================================================================== *)

Module XRealFacts.

Local Open Scope R_scope.

Lemma Rleb_true (a b : R) : Rleb a b = true <-> a <= b.
Proof. unfold Rleb. destruct (Rle_dec a b); split; intros; try easy. Qed.

Lemma Rleb_false (a b : R) : Rleb a b = false <-> b < a.
Proof.
  unfold Rleb. destruct (Rle_dec a b); split; intros; try easy; lra.
Qed.

Lemma Rltb_true (a b : R) : Rltb a b = true <-> a < b.
Proof. unfold Rltb. destruct (Rlt_dec a b); split; intros; try easy. Qed.

Lemma Rltb_false (a b : R) : Rltb a b = false <-> b <= a.
Proof.
  unfold Rltb. destruct (Rlt_dec a b); split; intros; try easy; lra.
Qed.

Lemma Reqb_true (a b : R) : Reqb a b = true <-> a = b.
Proof. unfold Reqb. destruct (Req_dec_T a b); split; intros; try easy. Qed.

Lemma Reqb_false (a b : R) : Reqb a b = false <-> a <> b.
Proof. unfold Reqb. destruct (Req_dec_T a b); split; intros; try easy. Qed.

Lemma Reqb_refl (a : R) : Reqb a a = true.
Proof. now apply Reqb_true. Qed.

Lemma Reqb_pos (a : R) : 0 < a -> Reqb a 0 = false.
Proof. intros H. apply Reqb_false. lra. Qed.

Lemma Rltb_pos (a : R) : 0 <= a -> Rltb a 0 = false.
Proof. intros H. now apply Rltb_false. Qed.

(** ** The order *)

Lemma xleb_refl (x : xreal) : xleb x x = true.
Proof. destruct x; simpl; try easy. apply Rleb_true. lra. Qed.

Lemma xleb_total (x y : xreal) : xleb x y = true \/ xleb y x = true.
Proof.
  destruct x, y; simpl; auto.
  destruct (Rle_dec r r0).
  - left. now apply Rleb_true.
  - right. apply Rleb_true. lra.
Qed.

Lemma xleb_trans (x y z : xreal) :
  xleb x y = true -> xleb y z = true -> xleb x z = true.
Proof.
  destruct x, y, z; simpl; try easy.
  rewrite !Rleb_true. lra.
Qed.

Lemma xleb_antisym (x y : xreal) :
  xleb x y = true -> xleb y x = true -> x = y.
Proof.
  destruct x, y; simpl; try easy.
  rewrite !Rleb_true. intros. f_equal. lra.
Qed.

(** ** Sums *)

(** A sum is a real number exactly when all its terms are. *)
Lemma xadd_Fin_inv (x y : xreal) (s : R) :
  xadd x y = Fin s -> exists a b, x = Fin a /\ y = Fin b /\ s = a + b.
Proof.
  destruct x, y; simpl; try discriminate.
  intros [= <-]. now exists r, r0.
Qed.

Lemma xsum_map_Fin (l : list R) :
  xsum (map Fin l) = Fin (fold_right Rplus 0 l).
Proof.
  unfold xsum. induction l as [|a l IH]; simpl; [easy|].
  now rewrite IH.
Qed.

Lemma xsum_Fin_inv (l : list xreal) (s : R) :
  xsum l = Fin s ->
  exists rs, l = map Fin rs /\ s = fold_right Rplus 0 rs.
Proof.
  unfold xsum. revert s. induction l as [|x l IH]; intros s H.
  - exists []. simpl in *. now injection H as <-.
  - simpl in H. apply xadd_Fin_inv in H as (a & b & -> & Hb & ->).
    destruct (IH b Hb) as (rs & -> & ->).
    now exists (a :: rs).
Qed.

Lemma fold_right_Rplus_div (l : list R) (s : R) :
  fold_right Rplus 0 (map (fun a => a / s) l) = fold_right Rplus 0 l / s.
Proof.
  induction l as [|a l IH]; simpl.
  - unfold Rdiv. now rewrite Rmult_0_l.
  - rewrite IH. unfold Rdiv. now rewrite Rmult_plus_distr_r.
Qed.

Lemma fold_right_Rplus_nonneg (l : list R) :
  Forall (fun a => 0 <= a) l -> 0 <= fold_right Rplus 0 l.
Proof.
  induction 1 as [|a l Ha _ IH]; simpl; lra.
Qed.

Lemma fold_right_Rplus_pos (l : list R) :
  Forall (fun a => 0 <= a) l -> Exists (fun a => 0 < a) l ->
  0 < fold_right Rplus 0 l.
Proof.
  intros Hall Hex. induction Hex as [a l Ha | a l _ IH].
  - apply Forall_inv_tail in Hall. apply fold_right_Rplus_nonneg in Hall.
    simpl. lra.
  - pose proof (Forall_inv Hall). apply Forall_inv_tail in Hall.
    specialize (IH Hall). simpl. lra.
Qed.

(** ** Division and exponential on real numbers *)

Lemma xdiv_Fin (a b : R) : b <> 0 -> xdiv (Fin a) (Fin b) = Fin (a / b).
Proof. intros H. simpl. now rewrite (proj2 (Reqb_false b 0) H). Qed.

Lemma xlog_Fin_pos (s : R) : 0 < s -> xlog (Fin s) = Fin (ln s).
Proof.
  intros H. simpl. rewrite Reqb_pos by easy. rewrite Rltb_pos by lra. easy.
Qed.

End XRealFacts.

(* ================================================================== *)
(** * Facts about the partial sort behind [kmin] *)
(* ================================================================== *)

Module SortFacts.

Import XRealFacts Spec.

Definition xle (a b : xreal) : Prop := xleb a b = true.
Definition key_le (a b : xreal * nat) : Prop := xle (fst a) (fst b).

Lemma insert_pair_perm (x : xreal * nat) (l : list (xreal * nat)) :
  Permutation (insert_pair x l) (x :: l).
Proof.
  induction l as [|y l IH]; simpl; [easy|].
  destruct (xleb (fst x) (fst y)); [easy|].
  rewrite IH. apply perm_swap.
Qed.

Lemma sort_pairs_perm (l : list (xreal * nat)) :
  Permutation (sort_pairs l) l.
Proof.
  induction l as [|x l IH]; simpl; [easy|].
  rewrite insert_pair_perm. now constructor.
Qed.

Lemma insert_pair_sorted (x : xreal * nat) (l : list (xreal * nat)) :
  StronglySorted key_le l -> StronglySorted key_le (insert_pair x l).
Proof.
  induction 1 as [|y l Hs IH Hy]; simpl.
  - repeat constructor.
  - destruct (xleb (fst x) (fst y)) eqn:E.
    + constructor; [now constructor|].
      constructor; [exact E|].
      eapply Forall_impl; [|exact Hy].
      intros z Hz. unfold key_le, xle in *. eapply xleb_trans; eauto.
    + constructor; [exact IH|].
      eapply Permutation_Forall; [symmetry; apply insert_pair_perm|].
      constructor; [|exact Hy].
      unfold key_le, xle.
      destruct (xleb_total (fst x) (fst y)) as [H|H]; congruence.
Qed.

Lemma sort_pairs_sorted (l : list (xreal * nat)) :
  StronglySorted key_le (sort_pairs l).
Proof.
  induction l as [|x l IH]; simpl; [constructor|].
  now apply insert_pair_sorted.
Qed.

Lemma sorted_map_fst (l : list (xreal * nat)) :
  StronglySorted key_le l -> StronglySorted xle (map fst l).
Proof.
  induction 1 as [|y l Hs IH Hy]; simpl; constructor; [easy|].
  now apply Forall_map.
Qed.

Lemma map_fst_combine_seq (r : list xreal) (s : nat) :
  map fst (combine r (seq s (List.length r))) = r.
Proof.
  revert s. induction r as [|a r IH]; intros s; simpl; [easy|].
  now rewrite IH.
Qed.

Lemma count_perm (p : xreal -> bool) (l l' : list xreal) :
  Permutation l l' ->
  List.length (filter p l) = List.length (filter p l').
Proof.
  induction 1; simpl; try congruence.
  - destruct (p x); simpl; congruence.
  - destruct (p x), (p y); reflexivity.
Qed.

(** In a sorted list, at most [k] entries are below the entry at position
    [k], and more than [k] entries are not above it. *)
Lemma sorted_nth_count (s : list xreal) (k : nat) :
  StronglySorted xle s -> (k < List.length s)%nat ->
  (count_lt (nth k s NaN) s <= k)%nat /\ (k < count_le (nth k s NaN) s)%nat.
Proof.
  intros Hs. revert k.
  induction Hs as [|a s Hs IH Ha]; intros k Hk; simpl in Hk; [lia|].
  unfold count_lt, count_le in *.
  destruct k as [|k]; simpl.
  - unfold xltb at 1. rewrite xleb_refl. simpl. split; [|lia].
    assert (E : filter (fun x => xltb x a) s = []).
    { clear IH Hs Hk. induction Ha as [|b s Hb _ IH]; simpl; [easy|].
      unfold xltb at 1. unfold xle in Hb. now rewrite Hb. }
    rewrite E. simpl. lia.
  - destruct (IH k ltac:(lia)) as [H1 H2].
    assert (Hle : xleb a (nth k s NaN) = true).
    { rewrite Forall_forall in Ha. apply Ha. apply nth_In. lia. }
    rewrite Hle. simpl.
    destruct (xltb a (nth k s NaN)); simpl; lia.
Qed.

(** The last of the [k] smallest entries is the [k]-th smallest entry. *)
Lemma k_smallest_last (r : list xreal) (k : nat) :
  (1 <= k <= List.length r)%nat ->
  kth_smallest r k (fst (nth (k - 1) (k_smallest k r) (NaN, 0%nat))).
Proof.
  intros Hk. unfold k_smallest.
  set (ps := sort_pairs (combine r (seq 0 (List.length r)))).
  assert (Hperm : Permutation (map fst ps) r).
  { unfold ps. rewrite sort_pairs_perm. now rewrite map_fst_combine_seq. }
  assert (Hlen : List.length (map fst ps) = List.length r)
    by now apply Permutation_length.
  assert (Hsorted : StronglySorted xle (map fst ps))
    by apply sorted_map_fst, sort_pairs_sorted.
  assert (E : fst (nth (k - 1) (firstn k ps) (NaN, 0%nat))
              = nth (k - 1) (map fst ps) NaN).
  { rewrite nth_firstn.
    destruct (Nat.ltb_spec (k - 1) k) as [_|]; [|lia].
    now rewrite <- (map_nth fst). }
  rewrite E.
  destruct (@sorted_nth_count (map fst ps) (k - 1) Hsorted ltac:(lia))
    as [H1 H2].
  unfold kth_smallest, count_lt, count_le in *.
  rewrite <- !(count_perm _ Hperm).
  repeat split; try lia.
  eapply Permutation_in; [exact Hperm|]. apply nth_In. lia.
Qed.

(** The [k]-th smallest entry is unique. *)
Lemma kth_smallest_unique (l : list xreal) (k : nat) (v w : xreal) :
  kth_smallest l k v -> kth_smallest l k w -> v = w.
Proof.
  assert (H : forall v w, kth_smallest l k v -> kth_smallest l k w ->
                          xleb w v = true).
  { clear v w. intros v w (_ & _ & Hv) (_ & Hw & _).
    destruct (xleb w v) eqn:E; [easy|exfalso].
    assert (Hle : (count_le v l <= count_lt w l)%nat); [|lia].
    unfold count_le, count_lt. clear Hv Hw.
    induction l as [|x l IH]; simpl; [lia|].
    destruct (xleb x v) eqn:Ex; simpl.
    - assert (Hx : xltb x w = true).
      { unfold xltb. destruct (xleb w x) eqn:Ew; [|easy].
        now rewrite (xleb_trans _ _ _ Ew Ex) in E. }
      rewrite Hx. simpl. lia.
    - destruct (xltb x w); simpl; lia. }
  intros Hv Hw. apply xleb_antisym; eauto.
Qed.

End SortFacts.

(* ================================================================== *)
(** * Facts about tensors and the kernels *)
(* ================================================================== *)

Module TensorFacts.

Import XRealFacts Spec SortFacts.

Lemma bidx_lt (d i : nat) : (i < d)%nat -> bidx d i = i.
Proof.
  unfold bidx. destruct (Nat.eqb_spec d 1); [lia|easy].
Qed.

Lemma bidx_1 (i : nat) : bidx 1 i = 0%nat.
Proof. reflexivity. Qed.

Lemma bdim_1_r (n : nat) : bdim n 1 = n.
Proof. unfold bdim. now destruct (Nat.eqb_spec n 1). Qed.

Lemma bdim_1_l (n : nat) : bdim 1 n = n.
Proof. reflexivity. Qed.

Lemma bdim_same (n : nat) : bdim n n = n.
Proof. unfold bdim. now destruct (Nat.eqb_spec n 1). Qed.

Create Rewrite HintDb shape.
#[export] Hint Rewrite bdim_1_r bdim_1_l bdim_same bidx_1 : shape.

Ltac shape :=
  simpl; autorewrite with shape; repeat rewrite bidx_lt by lia.

Lemma row_length (T : tensor) (i : nat) : List.length (row T i) = ncols T.
Proof. unfold row. now rewrite length_map, length_seq. Qed.

Lemma row_ext (A B : tensor) (i : nat) :
  ncols A = ncols B ->
  (forall j, (j < ncols A)%nat -> entry A i j = entry B i j) ->
  row A i = row B i.
Proof.
  intros Hc H. unfold row. rewrite <- Hc.
  apply map_ext_in. intros j Hj. apply H. apply in_seq in Hj. lia.
Qed.

Lemma row_In (T : tensor) (i : nat) (x : xreal) :
  In x (row T i) <-> exists j, (j < ncols T)%nat /\ x = entry T i j.
Proof.
  unfold row. rewrite in_map_iff. split.
  - intros (j & <- & Hj). apply in_seq in Hj. exists j. split; [lia|easy].
  - intros (j & Hj & ->). exists j. split; [easy|]. apply in_seq. lia.
Qed.

(** ** [kmin] and the bandwidth *)

Lemma py_index_last (n : nat) :
  (1 <= n)%nat -> py_index n (-1) = Some (n - 1)%nat.
Proof.
  intros H. unfold py_index.
  change (-1 <? 0)%Z with true. cbv iota.
  destruct (Z.leb_spec 0 (-1 + Z.of_nat n)); [|lia].
  destruct (Z.ltb_spec (-1 + Z.of_nat n) (Z.of_nat n)); [|lia].
  cbn [andb]. f_equal. lia.
Qed.

(** With [1 <= K <= number of columns], [kmin] returns, and the last column
    of its values holds the [K]-th smallest entry of every row. *)
Lemma kmin_bandwidth (C : tensor) (K : Z) :
  (1 <= K <= Z.of_nat (ncols C))%Z ->
  exists minK_values indices sigma,
    kmin C K Axis1 = inr (minK_values, indices) /\
    select_column minK_values (-1) = inr sigma /\
    vlen sigma = nrows C /\
    forall i, kth_smallest (row C i) (Z.to_nat K) (item sigma i).
Proof.
  intros HK. unfold kmin.
  destruct (Z.leb_spec K 0); [lia|].
  destruct (Z.ltb_spec (Z.of_nat (ncols C)) K); [lia|].
  simpl. do 3 eexists. split; [reflexivity|].
  unfold select_column. simpl.
  rewrite py_index_last by lia. simpl.
  split; [reflexivity|]. split; [reflexivity|].
  intros i. simpl. apply k_smallest_last. rewrite row_length. lia.
Qed.

(** Outside that range [kmin] raises. *)
Lemma kmin_invalid (C : tensor) (K : Z) :
  (K <= 0 \/ Z.of_nat (ncols C) < K)%Z ->
  kmin C K Axis1 = inl InvalidKError.
Proof.
  intros HK. unfold kmin.
  destruct (Z.leb_spec K 0); [easy|].
  destruct (Z.ltb_spec (Z.of_nat (ncols C)) K); [easy|lia].
Qed.

(** ** The kernels, entry by entry *)

Lemma log_SelfTuning_shape (C : tensor) (sigma : vector) :
  nrows C = vlen sigma -> ncols C = vlen sigma ->
  nrows (_log_SelfTuning C sigma) = vlen sigma /\
  ncols (_log_SelfTuning C sigma) = vlen sigma.
Proof.
  intros Hr Hc. unfold _log_SelfTuning, wrap_vectors. simpl.
  rewrite Hr, Hc. now autorewrite with shape.
Qed.

Lemma log_SelfTuning_entry (C : tensor) (sigma : vector) (i j : nat) :
  nrows C = vlen sigma -> ncols C = vlen sigma ->
  (i < vlen sigma)%nat -> (j < vlen sigma)%nat ->
  entry (_log_SelfTuning C sigma) i j
  = xdiv (xneg (entry C i j)) (xmul (item sigma i) (item sigma j)).
Proof.
  intros Hr Hc Hi Hj. unfold _log_SelfTuning, wrap_vectors. simpl.
  rewrite Hr, Hc. now shape.
Qed.

Lemma log_MAGIC_shape (C : tensor) (sigma : vector) :
  nrows C = vlen sigma ->
  nrows (_log_MAGIC C sigma) = vlen sigma /\
  ncols (_log_MAGIC C sigma) = ncols C.
Proof.
  intros Hr. unfold _log_MAGIC, wrap_vectors. simpl.
  rewrite Hr. now autorewrite with shape.
Qed.

Lemma log_MAGIC_entry (C : tensor) (sigma : vector) (i j : nat) :
  nrows C = vlen sigma ->
  (i < vlen sigma)%nat -> (j < ncols C)%nat ->
  entry (_log_MAGIC C sigma) i j
  = xdiv (xneg (entry C i j)) (item sigma i).
Proof.
  intros Hr Hi Hj. unfold _log_MAGIC, wrap_vectors. simpl.
  rewrite Hr. now shape.
Qed.

End TensorFacts.

(* ================================================================== *)
(** * Bandwidth estimation *)
(* ================================================================== *)

Section Bandwidth.

Import XRealFacts Spec SortFacts TensorFacts.

Variable sample : Type.
Variable pairwise_distance : string -> sample -> sample -> xreal.

#[local] Abbreviation distance_matrix self X :=
  (fst (Affinity._distance_matrix pairwise_distance self X)).

(** The self-tuning fit, once [kmin] has returned: the bandwidth is the
    last column of its values, and the fit returns. *)
Lemma self_tuning_fit_returns (self : SelfTuningAffinity.t) (X : list sample) :
  (1 <= SelfTuningAffinity.K self <= Z.of_nat (List.length X))%Z ->
  exists sigma,
    vlen sigma = List.length X /\
    (forall i, kth_smallest (row (distance_matrix (SelfTuningAffinity.base self) X) i)
                 (Z.to_nat (SelfTuningAffinity.K self)) (item sigma i)) /\
    SelfTuningAffinity._compute_log_affinity pairwise_distance self X
    = let C := distance_matrix (SelfTuningAffinity.base self) X in
      let raw := _log_SelfTuning C sigma in
      let self1 := SelfTuningAffinity.set_sigma_ self sigma in
      match SelfTuningAffinity.normalization_dim self with
      | Some dim =>
          inr (tsub raw (logsumexp_red raw dim),
               SelfTuningAffinity.set_log_normalization_ self1
                 (logsumexp_red raw dim))
      | None => inr (raw, self1)
      end.
Proof.
  intros HK.
  destruct (@kmin_bandwidth (distance_matrix (SelfTuningAffinity.base self) X)
              (SelfTuningAffinity.K self) HK)
    as (minK & idx & sigma & Hkmin & Hsel & Hlen & Hkth).
  exists sigma. split; [exact Hlen|]. split; [exact Hkth|].
  unfold SelfTuningAffinity._compute_log_affinity.
  cbn [Affinity._distance_matrix fst] in *.
  rewrite Hkmin. cbn [bind]. rewrite Hsel. reflexivity.
Qed.

(** The same for the MAGIC fit. *)
Lemma magic_fit_returns (self : MAGICAffinity.t) (X : list sample) :
  (1 <= MAGICAffinity.K self <= Z.of_nat (List.length X))%Z ->
  exists sigma,
    vlen sigma = List.length X /\
    (forall i, kth_smallest (row (distance_matrix (MAGICAffinity.base self) X) i)
                 (Z.to_nat (MAGICAffinity.K self)) (item sigma i)) /\
    MAGICAffinity._compute_affinity pairwise_distance self X
    = let C := distance_matrix (MAGICAffinity.base self) X in
      let A := texp (_log_MAGIC C sigma) in
      let S := tdiv_scalar (tadd A (matrix_transpose A)) 2 in
      inr (tdiv S (sum_red S Axis1), MAGICAffinity.set_sigma_ self sigma).
Proof.
  intros HK.
  destruct (@kmin_bandwidth (distance_matrix (MAGICAffinity.base self) X)
              (MAGICAffinity.K self) HK)
    as (minK & idx & sigma & Hkmin & Hsel & Hlen & Hkth).
  exists sigma. split; [exact Hlen|]. split; [exact Hkth|].
  unfold MAGICAffinity._compute_affinity.
  cbn [Affinity._distance_matrix fst] in *.
  rewrite Hkmin. cbn [bind]. rewrite Hsel. reflexivity.
Qed.

(** Outside [1 <= K <= n] both fits end in the error of [kmin]. *)
Lemma self_tuning_fit_raises (self : SelfTuningAffinity.t) (X : list sample) :
  (SelfTuningAffinity.K self <= 0 \/
   Z.of_nat (List.length X) < SelfTuningAffinity.K self)%Z ->
  SelfTuningAffinity._compute_log_affinity pairwise_distance self X
  = inl InvalidKError.
Proof.
  intros HK. unfold SelfTuningAffinity._compute_log_affinity.
  cbn [Affinity._distance_matrix].
  rewrite kmin_invalid; [reflexivity | exact HK].
Qed.

Lemma magic_fit_raises (self : MAGICAffinity.t) (X : list sample) :
  (MAGICAffinity.K self <= 0 \/
   Z.of_nat (List.length X) < MAGICAffinity.K self)%Z ->
  MAGICAffinity._compute_affinity pairwise_distance self X
  = inl InvalidKError.
Proof.
  intros HK. unfold MAGICAffinity._compute_affinity.
  cbn [Affinity._distance_matrix].
  rewrite kmin_invalid; [reflexivity | exact HK].
Qed.

(** A fit that returns had [1 <= K <= n]. *)
Lemma self_tuning_fit_inr (self : SelfTuningAffinity.t) (X : list sample)
      (r : tensor * SelfTuningAffinity.t) :
  SelfTuningAffinity._compute_log_affinity pairwise_distance self X = inr r ->
  (1 <= SelfTuningAffinity.K self <= Z.of_nat (List.length X))%Z.
Proof.
  intros Hfit.
  destruct (Z_le_gt_dec (SelfTuningAffinity.K self) 0) as [H0|H0];
    [rewrite self_tuning_fit_raises in Hfit by (now left); discriminate|].
  destruct (Z_lt_le_dec (Z.of_nat (List.length X)) (SelfTuningAffinity.K self))
    as [H1|H1];
    [rewrite self_tuning_fit_raises in Hfit by (now right); discriminate|].
  lia.
Qed.

Lemma magic_fit_inr (self : MAGICAffinity.t) (X : list sample)
      (r : tensor * MAGICAffinity.t) :
  MAGICAffinity._compute_affinity pairwise_distance self X = inr r ->
  (1 <= MAGICAffinity.K self <= Z.of_nat (List.length X))%Z.
Proof.
  intros Hfit.
  destruct (Z_le_gt_dec (MAGICAffinity.K self) 0) as [H0|H0];
    [rewrite magic_fit_raises in Hfit by (now left); discriminate|].
  destruct (Z_lt_le_dec (Z.of_nat (List.length X)) (MAGICAffinity.K self))
    as [H1|H1];
    [rewrite magic_fit_raises in Hfit by (now right); discriminate|].
  lia.
Qed.

(** The only error of a fit is that of [kmin]. *)
Lemma self_tuning_fit_error (self : SelfTuningAffinity.t) (X : list sample)
      (e : exn) :
  SelfTuningAffinity._compute_log_affinity pairwise_distance self X = inl e ->
  e = InvalidKError.
Proof.
  intros Hfit.
  destruct (Z_le_gt_dec (SelfTuningAffinity.K self) 0) as [H0|H0];
    [rewrite self_tuning_fit_raises in Hfit by (now left); congruence|].
  destruct (Z_lt_le_dec (Z.of_nat (List.length X)) (SelfTuningAffinity.K self))
    as [H1|H1];
    [rewrite self_tuning_fit_raises in Hfit by (now right); congruence|].
  destruct (@self_tuning_fit_returns self X) as (sigma & _ & _ & E); [lia|].
  rewrite E in Hfit. cbv zeta in Hfit.
  destruct (SelfTuningAffinity.normalization_dim self); discriminate.
Qed.

Lemma magic_fit_error (self : MAGICAffinity.t) (X : list sample) (e : exn) :
  MAGICAffinity._compute_affinity pairwise_distance self X = inl e ->
  e = InvalidKError.
Proof.
  intros Hfit.
  destruct (Z_le_gt_dec (MAGICAffinity.K self) 0) as [H0|H0];
    [rewrite magic_fit_raises in Hfit by (now left); congruence|].
  destruct (Z_lt_le_dec (Z.of_nat (List.length X)) (MAGICAffinity.K self))
    as [H1|H1];
    [rewrite magic_fit_raises in Hfit by (now right); congruence|].
  destruct (@magic_fit_returns self X) as (sigma & _ & _ & E); [lia|].
  rewrite E in Hfit. discriminate.
Qed.

(** The self-tuning fit, seen from its result. *)
Lemma self_tuning_fit_result (self self' : SelfTuningAffinity.t)
      (X : list sample) (logP : tensor) :
  SelfTuningAffinity._compute_log_affinity pairwise_distance self X
  = inr (logP, self') ->
  exists sigma,
    SelfTuningAffinity.sigma_ self' = Some sigma /\
    vlen sigma = List.length X /\
    (forall i, kth_smallest
                 (row (distance_matrix (SelfTuningAffinity.base self) X) i)
                 (Z.to_nat (SelfTuningAffinity.K self)) (item sigma i)).
Proof.
  intros Hfit.
  destruct (@self_tuning_fit_returns self X (self_tuning_fit_inr _ _ Hfit))
    as (sigma & Hlen & Hkth & E).
  rewrite E in Hfit. cbv zeta in Hfit. exists sigma.
  destruct (SelfTuningAffinity.normalization_dim self);
    injection Hfit as <- <-; auto.
Qed.

(** C1.  Both [SelfTuningAffinity] and [MAGICAffinity] return from a fit
    with [1 <= K <= n] (in particular for every [K] from 1 to [n - 1]), and
    the fitted [sigma_] holds, for every row [i] of the distance matrix, the
    [K]-th smallest entry of that row, counted from 1 and with duplicates;
    the self-distance is the diagonal entry of the distance matrix, as the
    zero-diagonal policy leaves it. *)
Theorem sigma_is_kth_smallest
  (st : SelfTuningAffinity.t) (mg : MAGICAffinity.t) (X : list sample) :
  (1 <= SelfTuningAffinity.K st <= Z.of_nat (List.length X))%Z ->
  (1 <= MAGICAffinity.K mg <= Z.of_nat (List.length X))%Z ->
  (exists logP st',
     SelfTuningAffinity._compute_log_affinity pairwise_distance st X
     = inr (logP, st') /\
     bandwidth_is_kth_smallest
       (distance_matrix (SelfTuningAffinity.base st) X)
       (SelfTuningAffinity.K st) (SelfTuningAffinity.sigma_ st')) /\
  (exists P mg',
     MAGICAffinity._compute_affinity pairwise_distance mg X = inr (P, mg') /\
     bandwidth_is_kth_smallest
       (distance_matrix (MAGICAffinity.base mg) X)
       (MAGICAffinity.K mg) (MAGICAffinity.sigma_ mg')).
Proof.
  intros Hst Hmg. split.
  - destruct (self_tuning_fit_returns st X Hst) as (sigma & Hlen & Hkth & E).
    rewrite E. cbv zeta.
    destruct (SelfTuningAffinity.normalization_dim st);
      do 2 eexists; (split; [reflexivity|]);
      exists sigma; simpl; auto.
  - destruct (magic_fit_returns mg X Hmg) as (sigma & Hlen & Hkth & E).
    rewrite E. cbv zeta. do 2 eexists. split; [reflexivity|].
    exists sigma. simpl. auto.
Qed.

(** C6.  With [K <= 0] or [K] above the number of columns of the distance
    matrix, the fit of either class ends in [InvalidKError], raised by the
    bandwidth estimation: no bandwidth is returned, and [K] is not
    clamped. *)
Theorem invalid_K_raises
  (st : SelfTuningAffinity.t) (mg : MAGICAffinity.t) (X : list sample) :
  (SelfTuningAffinity.K st <= 0 \/
   Z.of_nat (ncols (distance_matrix (SelfTuningAffinity.base st) X))
   < SelfTuningAffinity.K st)%Z ->
  (MAGICAffinity.K mg <= 0 \/
   Z.of_nat (ncols (distance_matrix (MAGICAffinity.base mg) X))
   < MAGICAffinity.K mg)%Z ->
  SelfTuningAffinity._compute_log_affinity pairwise_distance st X
  = inl InvalidKError /\
  MAGICAffinity._compute_affinity pairwise_distance mg X
  = inl InvalidKError.
Proof.
  intros Hst Hmg. split.
  - now apply self_tuning_fit_raises.
  - now apply magic_fit_raises.
Qed.

End Bandwidth.

(* ================================================================== *)
(** * The self-tuning kernel *)
(* ================================================================== *)

Section SelfTuningKernel.

Import XRealFacts Spec TensorFacts.
Local Open Scope R_scope.

Lemma xmul_comm (x y : xreal) : xmul x y = xmul y x.
Proof.
  destruct x, y; simpl; try reflexivity. f_equal. apply Rmult_comm.
Qed.

(** C2.  For a square distance matrix [C] and bandwidths [sigma], all
    positive, every entry of [_log_SelfTuning C sigma] is
    [-C[i,j] / (sigma_i * sigma_j)]: as a real number when the distance is
    one, and then its exponential is [exp (-C[i,j] / (sigma_i * sigma_j))];
    the entries at [(i,j)] and [(j,i)] agree when those of [C] do. *)
Theorem self_tuning_kernel_formula (C : tensor) (sigma : vector) :
  nrows C = vlen sigma -> ncols C = vlen sigma ->
  (forall i, (i < vlen sigma)%nat -> positive (item sigma i)) ->
  let logP := _log_SelfTuning C sigma in
  nrows logP = vlen sigma /\ ncols logP = vlen sigma /\
  forall i j, (i < vlen sigma)%nat -> (j < vlen sigma)%nat ->
    entry logP i j
    = xdiv (xneg (entry C i j)) (xmul (item sigma i) (item sigma j)) /\
    (exists si sj,
       item sigma i = Fin si /\ item sigma j = Fin sj /\ 0 < si * sj /\
       forall c, entry C i j = Fin c ->
         entry logP i j = Fin (- c / (si * sj)) /\
         xexp (entry logP i j) = Fin (exp (- c / (si * sj)))) /\
    (entry C i j = entry C j i -> entry logP i j = entry logP j i).
Proof.
  intros Hr Hc Hpos logP.
  destruct (log_SelfTuning_shape C sigma Hr Hc) as [Hr' Hc'].
  split; [exact Hr'|]. split; [exact Hc'|].
  intros i j Hi Hj. subst logP.
  rewrite !log_SelfTuning_entry by assumption.
  split; [reflexivity|]. split.
  - destruct (Hpos i Hi) as (si & Ei & Hsi).
    destruct (Hpos j Hj) as (sj & Ej & Hsj).
    pose proof (Rmult_lt_0_compat _ _ Hsi Hsj) as Hprod.
    exists si, sj. split; [exact Ei|]. split; [exact Ej|].
    split; [exact Hprod|].
    intros c Ec. rewrite Ec, Ei, Ej. cbn [xneg xmul].
    rewrite xdiv_Fin by lra. split; reflexivity.
  - intros Hsym. rewrite Hsym. f_equal. apply xmul_comm.
Qed.

End SelfTuningKernel.

(* ================================================================== *)
(** * The MAGIC affinity *)
(* ================================================================== *)

Module MagicFacts.

Import XRealFacts Spec TensorFacts.
Local Open Scope R_scope.

Section Pipeline.

Variable C : tensor.
Variable sigma : vector.
Hypothesis Hrows : nrows C = vlen sigma.
Hypothesis Hcols : ncols C = vlen sigma.

(** The three tensors [_compute_affinity] goes through. *)
Let A : tensor := texp (_log_MAGIC C sigma).
Let S : tensor := tdiv_scalar (tadd A (matrix_transpose A)) 2.
Let P : tensor := tdiv S (sum_red S Axis1).

Lemma exp_step : same_tensor A (magic_kernel C sigma).
Proof.
  unfold same_tensor, A, texp, _log_MAGIC, wrap_vectors. simpl.
  rewrite Hrows, Hcols. autorewrite with shape.
  repeat split. intros i j Hi Hj. now shape.
Qed.

Lemma symmetrize_step : same_tensor S (symmetrize (magic_kernel C sigma)).
Proof.
  destruct exp_step as (Hr & Hc & He).
  assert (HrA : nrows A = vlen sigma) by (rewrite Hr; simpl; easy).
  assert (HcA : ncols A = vlen sigma) by (rewrite Hc; simpl; easy).
  unfold same_tensor, S, tdiv_scalar, tadd, tmap, broadcast, matrix_transpose.
  cbn [nrows ncols entry symmetrize magic_kernel].
  rewrite HrA, HcA in *. autorewrite with shape.
  repeat split; try easy.
  intros i j Hi Hj. repeat rewrite bidx_lt by lia.
  rewrite !He by easy. reflexivity.
Qed.

Lemma S_shape : nrows S = vlen sigma /\ ncols S = vlen sigma.
Proof.
  destruct symmetrize_step as (Hr & Hc & _).
  split; [rewrite Hr | rewrite Hc]; simpl; easy.
Qed.

Lemma P_entry (i j : nat) :
  (i < vlen sigma)%nat -> (j < vlen sigma)%nat ->
  entry P i j = xdiv (entry S i j) (xsum (row S i)).
Proof.
  intros Hi Hj. destruct S_shape as [HrS HcS].
  unfold P, tdiv, broadcast, sum_red. cbn [nrows ncols entry].
  rewrite HrS, HcS. autorewrite with shape.
  now repeat rewrite bidx_lt by lia.
Qed.

Lemma P_shape : nrows P = vlen sigma /\ ncols P = vlen sigma.
Proof.
  destruct S_shape as [HrS HcS].
  unfold P, tdiv, broadcast, sum_red. cbn [nrows ncols entry].
  rewrite HrS, HcS. now autorewrite with shape.
Qed.

Lemma normalize_step :
  same_tensor P (row_normalize (symmetrize (magic_kernel C sigma))).
Proof.
  destruct symmetrize_step as (Hr & Hc & He).
  destruct S_shape as [HrS HcS]. destruct P_shape as [HrP HcP].
  unfold same_tensor. rewrite HrP, HcP.
  repeat split; try easy.
  intros i j Hi Hj. rewrite P_entry by easy.
  unfold row_normalize. cbn [entry].
  rewrite <- He by (rewrite ?HrS, ?HcS; easy).
  f_equal. f_equal.
  apply row_ext; [exact Hc|].
  intros j' Hj'. apply He; [now rewrite HrS | easy].
Qed.

(** Row [i] of the result is row [i] of the symmetrised matrix, divided by
    its sum. *)
Lemma normalized_row (i : nat) :
  (i < vlen sigma)%nat ->
  row P i = map (fun x => xdiv x (xsum (row S i))) (row S i).
Proof.
  intros Hi. destruct S_shape as [HrS HcS]. destruct P_shape as [HrP HcP].
  unfold row at 1 3. rewrite map_map. rewrite HcP, HcS.
  apply map_ext_in. intros j Hj. apply in_seq in Hj.
  apply P_entry; [easy | lia].
Qed.

End Pipeline.

(** Dividing the terms of a sum that is a non-zero real number by that sum
    gives terms that sum to one. *)
Lemma normalized_sum (l : list xreal) (s : R) :
  xsum l = Fin s -> s <> 0 ->
  xsum (map (fun x => xdiv x (Fin s)) l) = Fin 1.
Proof.
  intros Hsum Hs.
  destruct (xsum_Fin_inv _ Hsum) as (rs & -> & Es).
  rewrite map_map.
  rewrite (map_ext _ (fun a => Fin (a / s))) by (intros; now apply xdiv_Fin).
  rewrite <- (map_map (fun a => a / s) Fin).
  rewrite xsum_map_Fin, fold_right_Rplus_div, <- Es.
  f_equal. now field.
Qed.

End MagicFacts.

Section Magic.

Import XRealFacts Spec TensorFacts MagicFacts.
Local Open Scope R_scope.

Variable sample : Type.
Variable pairwise_distance : string -> sample -> sample -> xreal.

#[local] Abbreviation distance_matrix self X :=
  (fst (Affinity._distance_matrix pairwise_distance self X)).

(** The fit, seen from its result: the bandwidth it stored and the three
    tensors it went through. *)
Lemma magic_fit_result (self self' : MAGICAffinity.t) (X : list sample)
      (P : tensor) :
  MAGICAffinity._compute_affinity pairwise_distance self X = inr (P, self') ->
  exists sigma,
    MAGICAffinity.sigma_ self' = Some sigma /\
    vlen sigma = List.length X /\
    (forall i, kth_smallest (row (distance_matrix (MAGICAffinity.base self) X) i)
                 (Z.to_nat (MAGICAffinity.K self)) (item sigma i)) /\
    P = (let C := distance_matrix (MAGICAffinity.base self) X in
         let A := texp (_log_MAGIC C sigma) in
         let S := tdiv_scalar (tadd A (matrix_transpose A)) 2 in
         tdiv S (sum_red S Axis1)).
Proof.
  intros Hfit.
  destruct (magic_fit_returns pairwise_distance self X (magic_fit_inr _ _ _ Hfit))
    as (sigma & Hlen & Hkth & E).
  rewrite E in Hfit. cbv zeta in Hfit. injection Hfit as <- <-.
  exists sigma. split; [reflexivity|]. split; [exact Hlen|].
  split; [exact Hkth | reflexivity].
Qed.

(** C3.  A MAGIC fit with [1 <= K <= n] returns.  The bandwidth it stores
    has one entry for every point, the [K]-th smallest entry of the point's
    row of the distance matrix, and with this bandwidth the [n x n] result
    is the composition of the three steps of the specification, in this
    order: [P[i,j] = exp(-C[i,j] / sigma_i)] with the bandwidth of the row
    only, then [(P + P^T) / 2], then every row divided by its sum.  With a
    positive bandwidth and a real distance the first step is the real number
    [exp (-C[i,j] / sigma_i)]. *)
Theorem magic_is_three_steps (self : MAGICAffinity.t) (X : list sample) :
  (1 <= MAGICAffinity.K self <= Z.of_nat (List.length X))%Z ->
  exists P self' sigma,
    MAGICAffinity._compute_affinity pairwise_distance self X = inr (P, self') /\
    MAGICAffinity.sigma_ self' = Some sigma /\
    let C := distance_matrix (MAGICAffinity.base self) X in
    vlen sigma = List.length X /\
    (forall i, kth_smallest (row C i) (Z.to_nat (MAGICAffinity.K self))
                 (item sigma i)) /\
    nrows P = List.length X /\ ncols P = List.length X /\
    same_tensor P (row_normalize (symmetrize (magic_kernel C sigma))) /\
    forall i j c s,
      entry C i j = Fin c -> item sigma i = Fin s -> 0 < s ->
      entry (magic_kernel C sigma) i j = Fin (exp (- c / s)).
Proof.
  intros HK.
  destruct (magic_fit_returns pairwise_distance self X HK)
    as (sigma & Hlen & Hkth & E).
  rewrite E. cbv zeta. do 2 eexists. exists sigma.
  split; [reflexivity|]. split; [reflexivity|].
  split; [exact Hlen|]. split; [exact Hkth|].
  assert (Hr : nrows (distance_matrix (MAGICAffinity.base self) X) = vlen sigma)
    by (rewrite Hlen; reflexivity).
  assert (Hc : ncols (distance_matrix (MAGICAffinity.base self) X) = vlen sigma)
    by (rewrite Hlen; reflexivity).
  destruct (P_shape _ _ Hr Hc) as [HrP HcP].
  split; [now rewrite HrP|]. split; [now rewrite HcP|]. split.
  - now apply normalize_step.
  - intros i j c s Ec Es Hpos. unfold magic_kernel. cbn [entry].
    rewrite Ec, Es. cbn [xneg]. rewrite xdiv_Fin by lra. reflexivity.
Qed.

(** Every row of the result whose sum, before the division, is a positive
    real number sums to one. *)
Lemma normalized_row_sums_to_one (self self' : MAGICAffinity.t) (X : list sample)
      (P : tensor) (sigma : vector) (i : nat) (s : R) :
  MAGICAffinity._compute_affinity pairwise_distance self X = inr (P, self') ->
  MAGICAffinity.sigma_ self' = Some sigma ->
  (i < List.length X)%nat ->
  (let C := distance_matrix (MAGICAffinity.base self) X in
   let A := texp (_log_MAGIC C sigma) in
   let S := tdiv_scalar (tadd A (matrix_transpose A)) 2 in
   entry (sum_red S Axis1) i 0 = Fin s) ->
  0 < s ->
  xsum (row P i) = Fin 1.
Proof.
  intros Hfit Hsigma Hi Hsum Hs.
  destruct (magic_fit_result _ _ Hfit) as (sigma0 & Hs0 & Hlen & _ & ->).
  rewrite Hs0 in Hsigma. injection Hsigma as ->.
  cbv zeta in *. cbn [sum_red entry] in Hsum.
  rewrite normalized_row by (rewrite ?Hlen; easy || reflexivity).
  rewrite Hsum. apply normalized_sum; [exact Hsum | lra].
Qed.

End Magic.

(* ================================================================== *)
(** * The self-tuning affinity *)
(* ================================================================== *)

Module SelfTuningFacts.

Import XRealFacts Spec TensorFacts.
Local Open Scope R_scope.

Lemma flat_map_map_in {A B : Type} (f : A -> list B) (g : B -> B)
      (h : A -> list B) (l : list A) :
  (forall a, In a l -> h a = map g (f a)) ->
  flat_map h l = map g (flat_map f l).
Proof.
  induction l as [|a l IH]; intros H; simpl; [easy|].
  rewrite map_app, H by now left. f_equal. apply IH.
  intros b Hb. apply H. now right.
Qed.

(** Subtracting the joint log-normalization: the same term leaves every
    entry. *)
Lemma entries_tsub_joint (T : tensor) :
  let L := logsumexp_red T Dim01 in
  nrows (tsub T L) = nrows T /\ ncols (tsub T L) = ncols T /\
  (forall i j, (i < nrows T)%nat -> (j < ncols T)%nat ->
     entry (tsub T L) i j = xsub (entry T i j) (entry L 0 0)) /\
  entries (tsub T L) = map (fun x => xsub x (entry L 0 0)) (entries T).
Proof.
  intros L.
  assert (Hr : nrows (tsub T L) = nrows T).
  { unfold tsub, broadcast, L, logsumexp_red. cbn [nrows].
    now autorewrite with shape. }
  assert (Hc : ncols (tsub T L) = ncols T).
  { unfold tsub, broadcast, L, logsumexp_red. cbn [ncols].
    now autorewrite with shape. }
  assert (He : forall i j, (i < nrows T)%nat -> (j < ncols T)%nat ->
     entry (tsub T L) i j = xsub (entry T i j) (entry L 0 0)).
  { intros i j Hi Hj. unfold tsub, broadcast, L, logsumexp_red.
    cbn [entry nrows ncols]. now repeat rewrite bidx_lt by lia. }
  repeat split; try assumption.
  unfold entries. rewrite Hr.
  apply flat_map_map_in. intros i Hi. apply in_seq in Hi.
  unfold row. rewrite Hc, map_map.
  apply map_ext_in. intros j Hj. apply in_seq in Hj.
  apply He; lia.
Qed.

(** The weight of a log-weight: [exp x], with [exp (-inf) = 0]. *)
Lemma xexp_log_weight (x : xreal) :
  log_weight x -> exists w, xexp x = Fin w /\ 0 <= w /\
    (is_finite x = true -> 0 < w) /\
    forall c, xexp (xsub x (Fin c)) = Fin (w / exp c).
Proof.
  intros [-> | (r & ->)].
  - exists 0. cbn. repeat split; try lra; try discriminate.
    intros c. f_equal. unfold Rdiv. now rewrite Rmult_0_l.
  - exists (exp r). cbn. pose proof (exp_pos r).
    repeat split; try lra.
    intros c. f_equal. unfold Rdiv. now rewrite exp_plus, exp_Ropp.
Qed.

(** Log-weights, one of them a real number, normalised by their
    log-sum-exp: the exponentials sum to one. *)
Lemma logsumexp_normalized (l : list xreal) :
  Forall log_weight l -> Exists (fun x => is_finite x = true) l ->
  let L := xlog (xsum (map xexp l)) in
  (exists c, L = Fin c) /\
  xsum (map (fun x => xexp (xsub x L)) l) = Fin 1.
Proof.
  intros Hall Hex.
  assert (Hw : exists ws,
             map xexp l = map Fin ws /\ Forall (fun w => 0 <= w) ws /\
             Exists (fun w => 0 < w) ws /\
             forall c, map (fun x => xexp (xsub x (Fin c))) l
                       = map Fin (map (fun w => w / exp c) ws)).
  { clear - Hall Hex. induction Hall as [|x l Hx Hl IH].
    - inversion Hex.
    - destruct (xexp_log_weight Hx) as (w & Ew & Hw0 & Hwpos & Hwc).
      assert (Hrest : exists ws,
                 map xexp l = map Fin ws /\ Forall (fun w => 0 <= w) ws /\
                 forall c, map (fun x => xexp (xsub x (Fin c))) l
                           = map Fin (map (fun w => w / exp c) ws)).
      { clear - Hl. induction Hl as [|y l Hy Hl IH].
        - exists []. repeat split; constructor.
        - destruct IH as (ws & E1 & E2 & E3).
          destruct (xexp_log_weight Hy) as (w & Ew & Hw0 & _ & Hwc).
          exists (w :: ws). simpl. rewrite Ew, E1. repeat split.
          + now constructor.
          + intros c. now rewrite Hwc, E3. }
      inversion Hex as [? ? Hfin | ? ? Hex']; subst.
      + destruct Hrest as (ws & E1 & E2 & E3).
        exists (w :: ws). simpl. rewrite Ew, E1. repeat split.
        * now constructor.
        * left. now apply Hwpos.
        * intros c. now rewrite Hwc, E3.
      + destruct (IH Hex') as (ws & E1 & E2 & E3 & E4).
        exists (w :: ws). simpl. rewrite Ew, E1. repeat split.
        * now constructor.
        * now right.
        * intros c. now rewrite Hwc, E4. }
  destruct Hw as (ws & E1 & Hnonneg & Hpos & Ec).
  pose proof (fold_right_Rplus_pos Hnonneg Hpos) as HW.
  intros L. subst L. rewrite E1, xsum_map_Fin, xlog_Fin_pos by easy.
  split; [eauto|].
  rewrite Ec, xsum_map_Fin, fold_right_Rplus_div, exp_ln by easy.
  f_equal. field. lra.
Qed.

Lemma entries_In (T : tensor) (x : xreal) :
  In x (entries T) <->
  exists i j, (i < nrows T)%nat /\ (j < ncols T)%nat /\ x = entry T i j.
Proof.
  unfold entries. rewrite in_flat_map. split.
  - intros (i & Hi & Hx). apply in_seq in Hi. apply row_In in Hx.
    destruct Hx as (j & Hj & ->). exists i, j. repeat split; lia || easy.
  - intros (i & j & Hi & Hj & ->). exists i. split.
    + apply in_seq. lia.
    + apply row_In. now exists j.
Qed.

Lemma col_In (T : tensor) (j : nat) (x : xreal) :
  In x (col T j) <-> exists i, (i < nrows T)%nat /\ x = entry T i j.
Proof.
  unfold col. rewrite in_map_iff. split.
  - intros (i & <- & Hi). apply in_seq in Hi. exists i. split; [lia|easy].
  - intros (i & Hi & ->). exists i. split; [easy|]. apply in_seq. lia.
Qed.

(** An entry of the self-tuning kernel with positive bandwidths: a real
    number for a real distance, [-inf] for a masked one. *)
Lemma log_SelfTuning_log_weight (C : tensor) (sigma : vector) (i j : nat) :
  nrows C = vlen sigma -> ncols C = vlen sigma ->
  (i < vlen sigma)%nat -> (j < vlen sigma)%nat ->
  positive (item sigma i) -> positive (item sigma j) ->
  (entry C i j = PInf -> entry (_log_SelfTuning C sigma) i j = NInf) /\
  (forall c, entry C i j = Fin c ->
     exists r, entry (_log_SelfTuning C sigma) i j = Fin r).
Proof.
  intros Hr Hc Hi Hj (si & Ei & Hsi) (sj & Ej & Hsj).
  rewrite log_SelfTuning_entry by assumption. rewrite Ei, Ej.
  pose proof (Rmult_lt_0_compat _ _ Hsi Hsj) as Hpos.
  split.
  - intros ->. cbn. rewrite Rltb_pos by lra. reflexivity.
  - intros c ->. cbn. rewrite Reqb_pos by easy. eauto.
Qed.

End SelfTuningFacts.

Section SelfTuning.

Import XRealFacts Spec TensorFacts SelfTuningFacts.
Local Open Scope R_scope.

Variable sample : Type.
Variable pairwise_distance : string -> sample -> sample -> xreal.

#[local] Abbreviation distance_matrix self X :=
  (fst (Affinity._distance_matrix pairwise_distance self X)).

(** With positive bandwidths and distances that are real numbers or [+inf],
    the entries of the raw log-affinity are log-weights. *)
Lemma raw_log_weights (self : Affinity.t) (X : list sample) (sigma : vector) :
  vlen sigma = List.length X ->
  (forall i, (i < List.length X)%nat -> positive (item sigma i)) ->
  (forall i j, (i < List.length X)%nat -> (j < List.length X)%nat ->
     distance_value (entry (distance_matrix self X) i j)) ->
  forall i j, (i < List.length X)%nat -> (j < List.length X)%nat ->
    let r := entry (_log_SelfTuning (distance_matrix self X) sigma) i j in
    log_weight r /\
    (is_finite (entry (distance_matrix self X) i j) = true ->
     is_finite r = true).
Proof.
  intros Hlen Hpos Hdist i j Hi Hj r.
  destruct (@log_SelfTuning_log_weight (distance_matrix self X) sigma i j)
    as [Hinf Hfin]; try (rewrite Hlen; easy || reflexivity);
    try (apply Hpos; easy).
  subst r. destruct (Hdist i j Hi Hj) as [E | (c & E)].
  - rewrite (Hinf E). split; [now left|]. rewrite E. discriminate.
  - destruct (Hfin c E) as (r & ->). split; [right; eauto | easy].
Qed.

(** C5, as amended.  A self-tuning fit with [normalization_dim] an axis
    specification and [1 <= K <= n] returns the raw log-affinity minus its
    log-sum-exp over that specification, and stores the subtracted term as
    [log_normalization_].  With the joint axes [(0, 1)], the exponentials of
    all entries of the result sum to one whenever every bandwidth is a
    positive real number and every distance is a real number or [+inf], one
    of them at least a real number. *)
Theorem log_normalization_subtracted
  (self : SelfTuningAffinity.t) (X : list sample) (dim : axes) :
  SelfTuningAffinity.normalization_dim self = Some dim ->
  (1 <= SelfTuningAffinity.K self <= Z.of_nat (List.length X))%Z ->
  exists logP self' sigma,
    SelfTuningAffinity._compute_log_affinity pairwise_distance self X
    = inr (logP, self') /\
    SelfTuningAffinity.sigma_ self' = Some sigma /\
    let C := distance_matrix (SelfTuningAffinity.base self) X in
    let raw := _log_SelfTuning C sigma in
    logP = tsub raw (logsumexp_red raw dim) /\
    SelfTuningAffinity.log_normalization_ self'
    = Some (logsumexp_red raw dim) /\
    (dim = Dim01 ->
     (forall i, (i < List.length X)%nat -> positive (item sigma i)) ->
     (forall i j, (i < List.length X)%nat -> (j < List.length X)%nat ->
        distance_value (entry C i j)) ->
     (exists i j, (i < List.length X)%nat /\ (j < List.length X)%nat /\
        is_finite (entry C i j) = true) ->
     xsum (map xexp (entries logP)) = Fin 1).
Proof.
  intros Hdim HK.
  destruct (self_tuning_fit_returns pairwise_distance self X HK)
    as (sigma & Hlen & Hkth & E).
  rewrite E, Hdim. cbv zeta. do 2 eexists. exists sigma.
  split; [reflexivity|]. split; [reflexivity|].
  split; [reflexivity|]. split; [reflexivity|].
  intros -> Hpos Hdist (i0 & j0 & Hi0 & Hj0 & Hfin).
  set (C := distance_matrix (SelfTuningAffinity.base self) X) in *.
  set (raw := _log_SelfTuning C sigma).
  destruct (@log_SelfTuning_shape C sigma) as [Hr Hc];
    try (rewrite Hlen; reflexivity).
  fold raw in Hr, Hc.
  destruct (entries_tsub_joint raw) as (_ & _ & _ & Eentries).
  rewrite Eentries, map_map.
  change (entry (logsumexp_red raw Dim01) 0 0)
    with (xlog (xsum (map xexp (entries raw)))).
  apply logsumexp_normalized.
  - apply Forall_forall. intros x Hx.
    apply entries_In in Hx. destruct Hx as (i & j & Hi & Hj & ->).
    rewrite Hr, Hlen in Hi. rewrite Hc, Hlen in Hj.
    now apply (raw_log_weights (SelfTuningAffinity.base self) X sigma).
  - apply Exists_exists. exists (entry raw i0 j0). split.
    + apply entries_In. exists i0, j0. rewrite Hr, Hc, Hlen. easy.
    + now apply (raw_log_weights (SelfTuningAffinity.base self) X sigma).
Qed.

End SelfTuning.

(* ================================================================== *)
(** * The zero-diagonal policy *)
(* ================================================================== *)

Section ZeroDiag.

Import XRealFacts Spec TensorFacts MagicFacts SelfTuningFacts.
Local Open Scope R_scope.

Variable sample : Type.
Variable pairwise_distance : string -> sample -> sample -> xreal.

#[local] Abbreviation distance_matrix self X :=
  (fst (Affinity._distance_matrix pairwise_distance self X)).

Variable self : Affinity.t.
Variable X : list sample.
Variable sigma : vector.

#[local] Abbreviation n := (List.length X).
#[local] Abbreviation C := (distance_matrix self X).

Hypothesis Hzero : Affinity.zero_diag self = true.
Hypothesis Hlen : vlen sigma = n.
Hypothesis Hpos : forall i, (i < n)%nat -> positive (item sigma i).
Hypothesis Hoff : forall i j, (i < n)%nat -> (j < n)%nat -> i <> j ->
  exists c, entry C i j = Fin c.

(** The diagonal of the distance matrix is masked. *)
Lemma masked_diagonal (i : nat) : entry C i i = PInf.
Proof.
  cbn [Affinity._distance_matrix fst entry].
  now rewrite Hzero, Nat.eqb_refl.
Qed.

Lemma masked_distance_value (i j : nat) :
  (i < n)%nat -> (j < n)%nat -> distance_value (entry C i j).
Proof.
  intros Hi Hj. destruct (Nat.eq_dec i j) as [<- | Hne].
  - left. apply masked_diagonal.
  - right. now apply Hoff.
Qed.

(** A bandwidth that is a real number is the distance to another point. *)
Lemma other_point (i k : nat) :
  (i < n)%nat -> kth_smallest (row C i) k (item sigma i) ->
  exists j, (j < n)%nat /\ j <> i.
Proof.
  intros Hi (Hin & _). apply row_In in Hin. destruct Hin as (j & Hj & E).
  exists j. split; [exact Hj|]. intros ->.
  rewrite masked_diagonal in E.
  destruct (Hpos Hi) as (s & Es & _). congruence.
Qed.

(** ** MAGIC *)

Lemma magic_kernel_value (i j : nat) :
  (i < n)%nat -> (j < n)%nat ->
  exists a, entry (magic_kernel C sigma) i j = Fin a /\
            (i = j -> a = 0) /\ (i <> j -> 0 < a).
Proof.
  intros Hi Hj. destruct (Hpos Hi) as (s & Es & Hs).
  unfold magic_kernel. cbn [entry]. rewrite Es.
  destruct (Nat.eq_dec i j) as [<- | Hne].
  - rewrite masked_diagonal. cbn. rewrite Rltb_pos by lra. cbn.
    exists 0. repeat split; easy.
  - destruct (Hoff Hi Hj Hne) as (c & ->). cbn [xneg].
    rewrite xdiv_Fin by lra. cbn.
    exists (exp (- c / s)). repeat split; [easy|]. intros _. apply exp_pos.
Qed.

Lemma symmetrized_value (i j : nat) :
  (i < n)%nat -> (j < n)%nat ->
  exists w, entry (symmetrize (magic_kernel C sigma)) i j = Fin w /\
            (i = j -> w = 0) /\ (i <> j -> 0 < w).
Proof.
  intros Hi Hj.
  destruct (magic_kernel_value Hi Hj) as (a & Ea & Ha0 & Ha).
  destruct (magic_kernel_value Hj Hi) as (b & Eb & Hb0 & Hb).
  unfold symmetrize. cbn [entry]. rewrite Ea, Eb. cbn [xadd].
  rewrite xdiv_Fin by lra. exists ((a + b) / 2). repeat split.
  - intros Heq. rewrite Ha0, Hb0 by easy. lra.
  - intros Hne. assert (0 < a) by auto. assert (0 < b) by auto. lra.
Qed.

Lemma xsum_positive (l : list xreal) :
  Forall (fun x => exists w, x = Fin w /\ 0 <= w) l ->
  Exists (fun x => exists w, x = Fin w /\ 0 < w) l ->
  exists s, xsum l = Fin s /\ 0 < s.
Proof.
  intros Hall Hex.
  assert (Hws : exists ws, l = map Fin ws /\ Forall (fun w => 0 <= w) ws /\
                           Exists (fun w => 0 < w) ws).
  { induction Hall as [|x l (w & -> & Hw) Hl IH].
    - inversion Hex.
    - assert (Hrest : exists ws, l = map Fin ws /\
                                 Forall (fun w => 0 <= w) ws).
      { clear - Hl. induction Hl as [|y l (w & -> & Hw) _ (ws & -> & IH)].
        - now exists [].
        - exists (w :: ws). split; [easy | now constructor]. }
      inversion Hex as [? ? (w' & Ew & Hw') | ? ? Hex']; subst.
      + injection Ew as <-. destruct Hrest as (ws & -> & Hws).
        exists (w :: ws). repeat split; [now constructor | now left].
      + destruct (IH Hex') as (ws & -> & Hws & Hex'').
        exists (w :: ws). repeat split; [now constructor | now right]. }
  destruct Hws as (ws & -> & Hnn & Hp).
  rewrite xsum_map_Fin. eexists. split; [reflexivity|].
  now apply fold_right_Rplus_pos.
Qed.

Lemma symmetrized_row_sum (i k : nat) :
  (i < n)%nat -> kth_smallest (row C i) k (item sigma i) ->
  exists s, xsum (row (symmetrize (magic_kernel C sigma)) i) = Fin s /\ 0 < s.
Proof.
  intros Hi Hkth. apply xsum_positive.
  - apply Forall_forall. intros x Hx. apply row_In in Hx.
    destruct Hx as (j & Hj & ->).
    destruct (@symmetrized_value i j Hi Hj) as (w & -> & H0 & Hw).
    exists w. split; [easy|].
    destruct (Nat.eq_dec i j) as [E|E]; [rewrite (H0 E); lra|].
    apply Rlt_le. auto.
  - destruct (other_point Hi Hkth) as (j & Hj & Hne).
    apply Exists_exists.
    exists (entry (symmetrize (magic_kernel C sigma)) i j). split.
    + apply row_In. now exists j.
    + destruct (@symmetrized_value i j Hi Hj) as (w & -> & _ & Hw).
      exists w. split; [easy|]. auto.
Qed.

(** The sum of a row of the symmetrised matrix, as [_compute_affinity]
    computes it, is a positive real number. *)
Lemma magic_row_sum_positive (i k : nat) :
  (i < n)%nat -> kth_smallest (row C i) k (item sigma i) ->
  let A := texp (_log_MAGIC C sigma) in
  let S := tdiv_scalar (tadd A (matrix_transpose A)) 2 in
  exists s, entry (sum_red S Axis1) i 0 = Fin s /\ 0 < s.
Proof.
  intros Hi Hkth A S.
  assert (Hr : nrows C = vlen sigma) by (rewrite Hlen; reflexivity).
  assert (Hc : ncols C = vlen sigma) by (rewrite Hlen; reflexivity).
  destruct (symmetrize_step C sigma Hr Hc) as (_ & _ & HeS).
  destruct (S_shape C sigma Hr Hc) as (HrS & HcS).
  fold A S in HeS, HrS, HcS.
  assert (ES : row S i = row (symmetrize (magic_kernel C sigma)) i).
  { apply row_ext; [now rewrite HcS|].
    intros j Hj. apply HeS; rewrite ?HrS, ?Hlen; [exact Hi | exact Hj]. }
  cbn [sum_red entry]. rewrite ES.
  exact (symmetrized_row_sum Hi Hkth).
Qed.

Lemma magic_zero_diagonal (i k : nat) :
  (i < n)%nat -> kth_smallest (row C i) k (item sigma i) ->
  let A := texp (_log_MAGIC C sigma) in
  let S := tdiv_scalar (tadd A (matrix_transpose A)) 2 in
  let P := tdiv S (sum_red S Axis1) in
  entry P i i = Fin 0 /\ xsum (row P i) = Fin 1.
Proof.
  intros Hi Hkth A S P.
  assert (Hr : nrows C = vlen sigma) by (rewrite Hlen; reflexivity).
  assert (Hc : ncols C = vlen sigma) by (rewrite Hlen; reflexivity).
  destruct (normalize_step C sigma Hr Hc) as (_ & _ & He).
  destruct (symmetrize_step C sigma Hr Hc) as (_ & _ & HeS).
  destruct (S_shape C sigma Hr Hc) as (HrS & HcS).
  destruct (P_shape C sigma Hr Hc) as (HrP & HcP).
  fold A S P in He, HrP, HcP. fold A S in HeS, HrS, HcS.
  destruct (symmetrized_row_sum Hi Hkth) as (s & Es & Hs).
  split.
  - rewrite He by (rewrite ?HrP, ?HcP, ?Hlen; exact Hi).
    unfold row_normalize. cbn [entry]. rewrite Es.
    destruct (@symmetrized_value i i Hi Hi) as (w & -> & H0 & _).
    rewrite (H0 eq_refl), xdiv_Fin by lra. f_equal. lra.
  - assert (ES : row S i = row (symmetrize (magic_kernel C sigma)) i).
    { apply row_ext; [now rewrite HcS|].
      intros j Hj. apply HeS; rewrite ?HrS, ?Hlen; [exact Hi | exact Hj]. }
    unfold P, S, A. rewrite normalized_row by (rewrite ?Hlen; easy).
    fold A S. rewrite ES, Es. apply normalized_sum; [exact Es | lra].
Qed.

(** ** Self-tuning *)

Lemma raw_value (i j : nat) :
  (i < n)%nat -> (j < n)%nat ->
  let r := entry (_log_SelfTuning C sigma) i j in
  log_weight r /\ (i = j -> r = NInf) /\ (i <> j -> is_finite r = true).
Proof.
  intros Hi Hj r.
  destruct (@raw_log_weights sample pairwise_distance self X sigma Hlen Hpos
              masked_distance_value i j Hi Hj) as [Hw Hfin].
  fold r in Hw, Hfin. split; [exact Hw|]. split.
  - intros <-. subst r.
    apply log_SelfTuning_log_weight; rewrite ?Hlen; auto.
    apply masked_diagonal.
  - intros Hne. apply Hfin. destruct (Hoff Hi Hj Hne) as (c & ->). easy.
Qed.

(** The log-sum-exp of a list of entries of the kernel that holds an
    off-diagonal entry is a real number. *)
Lemma logsumexp_real (l : list xreal) :
  (forall x, In x l -> exists i j, (i < n)%nat /\ (j < n)%nat /\
     x = entry (_log_SelfTuning C sigma) i j) ->
  (exists i j, (i < n)%nat /\ (j < n)%nat /\ i <> j /\
     In (entry (_log_SelfTuning C sigma) i j) l) ->
  exists c, xlog (xsum (map xexp l)) = Fin c.
Proof.
  intros Hall (i & j & Hi & Hj & Hne & Hin).
  apply logsumexp_normalized.
  - apply Forall_forall. intros x Hx.
    destruct (Hall x Hx) as (i' & j' & Hi' & Hj' & ->).
    now apply raw_value.
  - apply Exists_exists. eexists. split; [exact Hin|].
    now apply raw_value.
Qed.

Lemma self_tuning_zero_diagonal (dim : option axes) (i k : nat) :
  (i < n)%nat -> kth_smallest (row C i) k (item sigma i) ->
  let raw := _log_SelfTuning C sigma in
  let logP := match dim with
              | Some d => tsub raw (logsumexp_red raw d)
              | None => raw
              end in
  entry logP i i = NInf.
Proof.
  intros Hi Hkth raw logP.
  destruct (@log_SelfTuning_shape C sigma) as [Hr Hc];
    try (rewrite Hlen; reflexivity).
  fold raw in Hr, Hc. rewrite Hlen in Hr, Hc.
  assert (Hdiag : entry raw i i = NInf) by now apply raw_value.
  destruct (other_point Hi Hkth) as (j & Hj & Hne).
  destruct dim as [[[|]|]|]; subst logP; [| | |exact Hdiag].
  - (* over axis 0: the column of [i] *)
    destruct (@logsumexp_real (col raw i)) as (c & Ec).
    { intros x Hx. apply col_In in Hx. destruct Hx as (i' & Hi' & ->).
      rewrite Hr in Hi'. now exists i', i. }
    { exists j, i. split; [exact Hj|]. split; [exact Hi|].
      split; [exact Hne|]. apply col_In. exists j. now rewrite Hr. }
    unfold tsub, broadcast, logsumexp_red. cbn [entry nrows ncols].
    rewrite Hr, Hc. autorewrite with shape. repeat rewrite bidx_lt by lia.
    now rewrite Ec, Hdiag.
  - (* over axis 1: the row of [i] *)
    destruct (@logsumexp_real (row raw i)) as (c & Ec).
    { intros x Hx. apply row_In in Hx. destruct Hx as (j' & Hj' & ->).
      rewrite Hc in Hj'. now exists i, j'. }
    { exists i, j. split; [exact Hi|]. split; [exact Hj|].
      split; [congruence|]. apply row_In. exists j. now rewrite Hc. }
    unfold tsub, broadcast, logsumexp_red. cbn [entry nrows ncols].
    rewrite Hr, Hc. autorewrite with shape. repeat rewrite bidx_lt by lia.
    now rewrite Ec, Hdiag.
  - (* jointly over both axes *)
    destruct (@logsumexp_real (entries raw)) as (c & Ec).
    { intros x Hx. apply entries_In in Hx.
      destruct Hx as (i' & j' & Hi' & Hj' & ->).
      rewrite Hr in Hi'. rewrite Hc in Hj'. now exists i', j'. }
    { exists i, j. split; [exact Hi|]. split; [exact Hj|].
      split; [congruence|]. apply entries_In. exists i, j. now rewrite Hr, Hc. }
    destruct (entries_tsub_joint raw) as (_ & _ & He & _).
    rewrite He by (rewrite ?Hr, ?Hc; exact Hi).
    change (entry (logsumexp_red raw Dim01) 0 0)
      with (xlog (xsum (map xexp (entries raw)))).
    now rewrite Ec, Hdiag.
Qed.

End ZeroDiag.

Section ZeroDiagPolicy.

Import XRealFacts Spec TensorFacts.
Local Open Scope R_scope.

Variable sample : Type.
Variable pairwise_distance : string -> sample -> sample -> xreal.

#[local] Abbreviation distance_matrix self X :=
  (fst (Affinity._distance_matrix pairwise_distance self X)).

(** C9, as amended.  With [zero_diag = True] the diagonal of the distance
    matrix is [+inf] before the bandwidth is estimated, the kernel evaluated
    and the result normalised.  A fit with [1 <= K <= n] returns, and when
    every bandwidth is a positive real number and every off-diagonal
    distance is a real number, the diagonal of the affinity is zero: the
    log-affinity of the self-tuning variant is [-inf] on the diagonal (its
    exponential is 0), under every normalization, and [P[i,i] = 0] in the
    result of MAGIC. *)
Theorem zero_diag_gives_zero_diagonal
  (st : SelfTuningAffinity.t) (mg : MAGICAffinity.t) (X : list sample) :
  Affinity.zero_diag (SelfTuningAffinity.base st) = true ->
  Affinity.zero_diag (MAGICAffinity.base mg) = true ->
  (1 <= SelfTuningAffinity.K st <= Z.of_nat (List.length X))%Z ->
  (1 <= MAGICAffinity.K mg <= Z.of_nat (List.length X))%Z ->
  (exists logP st' sigma,
     SelfTuningAffinity._compute_log_affinity pairwise_distance st X
     = inr (logP, st') /\
     SelfTuningAffinity.sigma_ st' = Some sigma /\
     let C := distance_matrix (SelfTuningAffinity.base st) X in
     (forall i, entry C i i = PInf) /\
     ((forall i, (i < List.length X)%nat -> positive (item sigma i)) ->
      (forall i j, (i < List.length X)%nat -> (j < List.length X)%nat ->
         i <> j -> exists c, entry C i j = Fin c) ->
      forall i, (i < List.length X)%nat ->
        entry logP i i = NInf /\ xexp (entry logP i i) = Fin 0)) /\
  (exists P mg' sigma,
     MAGICAffinity._compute_affinity pairwise_distance mg X = inr (P, mg') /\
     MAGICAffinity.sigma_ mg' = Some sigma /\
     let C := distance_matrix (MAGICAffinity.base mg) X in
     (forall i, entry C i i = PInf) /\
     ((forall i, (i < List.length X)%nat -> positive (item sigma i)) ->
      (forall i j, (i < List.length X)%nat -> (j < List.length X)%nat ->
         i <> j -> exists c, entry C i j = Fin c) ->
      forall i, (i < List.length X)%nat -> entry P i i = Fin 0)).
Proof.
  intros Hzst Hzmg HKst HKmg. split.
  - destruct (self_tuning_fit_returns pairwise_distance st X HKst)
      as (sigma & Hlen & Hkth & E).
    pose proof (fun Hpos Hoff i Hi =>
                  @self_tuning_zero_diagonal _ pairwise_distance
                    (SelfTuningAffinity.base st) X sigma Hzst Hlen Hpos Hoff
                    (SelfTuningAffinity.normalization_dim st) i _ Hi (Hkth i))
      as Hd.
    rewrite E. cbv zeta in *.
    destruct (SelfTuningAffinity.normalization_dim st);
      do 2 eexists; exists sigma;
      (split; [reflexivity|]); (split; [reflexivity|]);
      (split; [intros i; now apply masked_diagonal|]);
      intros Hpos Hoff i Hi; rewrite (Hd Hpos Hoff i Hi);
      split; reflexivity.
  - destruct (magic_fit_returns pairwise_distance mg X HKmg)
      as (sigma & Hlen & Hkth & E).
    rewrite E. cbv zeta. do 2 eexists. exists sigma.
    split; [reflexivity|]. split; [reflexivity|].
    split; [intros i; now apply masked_diagonal|].
    intros Hpos Hoff i Hi.
    apply (@magic_zero_diagonal _ pairwise_distance
             (MAGICAffinity.base mg) X sigma Hzmg Hlen Hpos Hoff
             i _ Hi (Hkth i)).
Qed.

End ZeroDiagPolicy.

(* ================================================================== *)
(** * The fits on the small data sets *)
(* ================================================================== *)

Module Examples.

Import XRealFacts Spec SortFacts TensorFacts MagicFacts SelfTuningFacts Data.
Local Open Scope R_scope.

(** Decides the comparisons of explicit real numbers in the goal. *)
Ltac rdecide :=
  repeat match goal with
  | |- context [Rleb ?a ?b] =>
      first [ rewrite (proj2 (Rleb_true a b)) by lra
            | rewrite (proj2 (Rleb_false a b)) by lra ]
  | |- context [Rltb ?a ?b] =>
      first [ rewrite (proj2 (Rltb_true a b)) by lra
            | rewrite (proj2 (Rltb_false a b)) by lra ]
  | |- context [Reqb ?a ?b] =>
      first [ rewrite (proj2 (Reqb_true a b)) by lra
            | rewrite (proj2 (Reqb_false a b)) by lra ]
  end.

Lemma sqeuclidean_1d (a b : R) : sqeuclidean [a] [b] = Fin ((a - b) * (a - b)).
Proof. unfold sqeuclidean. simpl. f_equal. lra. Qed.

(** The distance matrix of two copies of a point, with the masked diagonal:
    [[inf, 0], [0, inf]]. *)
Lemma duplicates_distances (self : Affinity.t) :
  Affinity.zero_diag self = true ->
  let C := fst (Affinity._distance_matrix sqeuclidean_oracle self duplicates) in
  entry C 0 0 = PInf /\ entry C 0 1 = Fin 0 /\
  entry C 1 0 = Fin 0 /\ entry C 1 1 = PInf.
Proof.
  intros Hz. cbn [Affinity._distance_matrix fst entry]. rewrite Hz.
  unfold sqeuclidean_oracle, duplicates.
  cbn [andb Nat.eqb nth_error]. rewrite !sqeuclidean_1d.
  repeat split; f_equal; lra.
Qed.

(** The distance matrix of the three points on a line, with the masked
    diagonal: [[inf, 1, 4], [1, inf, 1], [4, 1, inf]]. *)
Lemma line3_distances (self : Affinity.t) :
  Affinity.zero_diag self = true ->
  let C := fst (Affinity._distance_matrix sqeuclidean_oracle self line3) in
  (entry C 0 0 = PInf /\ entry C 0 1 = Fin 1 /\ entry C 0 2 = Fin 4) /\
  (entry C 1 0 = Fin 1 /\ entry C 1 1 = PInf /\ entry C 1 2 = Fin 1) /\
  (entry C 2 0 = Fin 4 /\ entry C 2 1 = Fin 1 /\ entry C 2 2 = PInf).
Proof.
  intros Hz. cbn [Affinity._distance_matrix fst entry]. rewrite Hz.
  unfold sqeuclidean_oracle, line3.
  cbn [andb Nat.eqb nth_error]. rewrite !sqeuclidean_1d.
  repeat split; f_equal; lra.
Qed.

(** Checks that an explicit entry is the k-th smallest of an explicit
    list. *)
Ltac kth_smallest_by_counting :=
  unfold kth_smallest, count_lt, count_le, xltb;
  cbn [filter xleb negb In List.length]; rdecide;
  cbn [filter xleb negb In List.length];
  repeat split; auto with arith.

Lemma duplicates_rows (self : Affinity.t) :
  Affinity.zero_diag self = true ->
  let C := fst (Affinity._distance_matrix sqeuclidean_oracle self duplicates) in
  row C 0 = [PInf; Fin 0] /\ row C 1 = [Fin 0; PInf].
Proof.
  intros Hz C. destruct (duplicates_distances self Hz) as (E00 & E01 & E10 & E11).
  fold C in E00, E01, E10, E11.
  unfold row. change (ncols C) with 2%nat. cbn [seq map].
  now rewrite E00, E01, E10, E11.
Qed.

Lemma line3_rows (self : Affinity.t) :
  Affinity.zero_diag self = true ->
  let C := fst (Affinity._distance_matrix sqeuclidean_oracle self line3) in
  row C 0 = [PInf; Fin 1; Fin 4] /\
  row C 1 = [Fin 1; PInf; Fin 1] /\
  row C 2 = [Fin 4; Fin 1; PInf].
Proof.
  intros Hz C.
  destruct (line3_distances self Hz)
    as ((E00 & E01 & E02) & (E10 & E11 & E12) & (E20 & E21 & E22)).
  fold C in E00, E01, E02, E10, E11, E12, E20, E21, E22.
  unfold row. change (ncols C) with 3%nat. cbn [seq map].
  now rewrite E00, E01, E02, E10, E11, E12, E20, E21, E22.
Qed.

(** The nearest neighbour of either copy is the other copy, at distance
    zero. *)
Lemma duplicates_bandwidth (self : Affinity.t) (sigma : vector) :
  Affinity.zero_diag self = true ->
  (forall i,
     kth_smallest
       (row (fst (Affinity._distance_matrix sqeuclidean_oracle self duplicates)) i)
       1 (item sigma i)) ->
  item sigma 0 = Fin 0 /\ item sigma 1 = Fin 0.
Proof.
  intros Hz Hkth. destruct (duplicates_rows self Hz) as [R0 R1].
  split.
  - apply (kth_smallest_unique (Hkth 0%nat)). rewrite R0.
    kth_smallest_by_counting.
  - apply (kth_smallest_unique (Hkth 1%nat)). rewrite R1.
    kth_smallest_by_counting.
Qed.

(** On the line every point has its nearest neighbour at distance 1. *)
Lemma line3_bandwidth (self : Affinity.t) (sigma : vector) :
  Affinity.zero_diag self = true ->
  (forall i,
     kth_smallest
       (row (fst (Affinity._distance_matrix sqeuclidean_oracle self line3)) i)
       1 (item sigma i)) ->
  item sigma 0 = Fin 1 /\ item sigma 1 = Fin 1 /\ item sigma 2 = Fin 1.
Proof.
  intros Hz Hkth. destruct (line3_rows self Hz) as (R0 & R1 & R2).
  repeat split.
  - apply (kth_smallest_unique (Hkth 0%nat)). rewrite R0.
    kth_smallest_by_counting.
  - apply (kth_smallest_unique (Hkth 1%nat)). rewrite R1.
    kth_smallest_by_counting.
  - apply (kth_smallest_unique (Hkth 2%nat)). rewrite R2.
    kth_smallest_by_counting.
Qed.

(** Evaluates the arithmetic of explicit extended reals in the goal. *)
Ltac xeval :=
  repeat (cbn [xneg xadd xsub xmul xdiv xexp xlog xsum fold_right map
               signed_inf negb];
          rdecide).

(** The MAGIC pipeline on [[inf, 0], [0, inf]] with both bandwidths zero:
    [0 / 0] makes the off-diagonal kernel entries nan, and with them every
    entry of the result. *)
Lemma magic_pipeline_duplicates (C : tensor) (sigma : vector) :
  nrows C = 2%nat -> ncols C = 2%nat -> vlen sigma = 2%nat ->
  entry C 0 0 = PInf -> entry C 0 1 = Fin 0 ->
  entry C 1 0 = Fin 0 -> entry C 1 1 = PInf ->
  item sigma 0 = Fin 0 -> item sigma 1 = Fin 0 ->
  let A := texp (_log_MAGIC C sigma) in
  let S := tdiv_scalar (tadd A (matrix_transpose A)) 2 in
  let P := tdiv S (sum_red S Axis1) in
  entry (_log_MAGIC C sigma) 0 0 = NInf /\
  entry (_log_MAGIC C sigma) 0 1 = NaN /\
  entry P 0 0 = NaN /\ entry P 0 1 = NaN /\
  entry P 1 0 = NaN /\ entry P 1 1 = NaN.
Proof.
  intros Hr Hc Hl E00 E01 E10 E11 S0 S1 A S P.
  assert (Hr' : nrows C = vlen sigma) by congruence.
  assert (Hc' : ncols C = vlen sigma) by congruence.
  destruct (normalize_step C sigma Hr' Hc') as (_ & _ & He).
  destruct (P_shape C sigma Hr' Hc') as (HrP & HcP).
  fold A S P in He, HrP, HcP.
  rewrite !log_MAGIC_entry by lia.
  assert (HP : forall i j, (i < 2)%nat -> (j < 2)%nat ->
             entry P i j = entry (row_normalize (symmetrize (magic_kernel C sigma))) i j).
  { intros i j Hi Hj. apply He; lia. }
  rewrite !HP by lia.
  unfold row_normalize, symmetrize, magic_kernel, row.
  cbn [entry nrows ncols]. rewrite Hc. cbn [seq map].
  rewrite E00, E01, E10, E11, S0, S1.
  xeval. repeat split; reflexivity.
Qed.

(** The self-tuning pipeline with the joint normalization on the same
    matrix: the off-diagonal entries of the kernel are nan, and so are the
    log-normalization and every entry of the result. *)
Lemma self_tuning_pipeline_duplicates (C : tensor) (sigma : vector) :
  nrows C = 2%nat -> ncols C = 2%nat -> vlen sigma = 2%nat ->
  entry C 0 0 = PInf -> entry C 0 1 = Fin 0 ->
  entry C 1 0 = Fin 0 -> entry C 1 1 = PInf ->
  item sigma 0 = Fin 0 -> item sigma 1 = Fin 0 ->
  let raw := _log_SelfTuning C sigma in
  let logP := tsub raw (logsumexp_red raw Dim01) in
  entry raw 0 1 = NaN /\
  entry logP 0 0 = NaN /\
  xsum (map xexp (entries logP)) = NaN.
Proof.
  intros Hr Hc Hl E00 E01 E10 E11 S0 S1 raw logP.
  assert (Hr' : nrows C = vlen sigma) by congruence.
  assert (Hc' : ncols C = vlen sigma) by congruence.
  destruct (log_SelfTuning_shape C sigma Hr' Hc') as [Hrr Hrc].
  fold raw in Hrr, Hrc. rewrite Hl in Hrr, Hrc.
  assert (R00 : entry raw 0 0 = NInf).
  { unfold raw. rewrite log_SelfTuning_entry by lia.
    rewrite E00, S0. now xeval. }
  assert (R01 : entry raw 0 1 = NaN).
  { unfold raw. rewrite log_SelfTuning_entry by lia.
    rewrite E01, S0, S1. now xeval. }
  assert (R10 : entry raw 1 0 = NaN).
  { unfold raw. rewrite log_SelfTuning_entry by lia.
    rewrite E10, S0, S1. now xeval. }
  assert (R11 : entry raw 1 1 = NInf).
  { unfold raw. rewrite log_SelfTuning_entry by lia.
    rewrite E11, S1. now xeval. }
  assert (Hentries : entries raw = [NInf; NaN; NaN; NInf]).
  { unfold entries, row. rewrite Hrr, Hrc. cbn [seq flat_map map app].
    now rewrite R00, R01, R10, R11. }
  destruct (entries_tsub_joint raw) as (_ & _ & He & Hmap).
  fold logP in He, Hmap.
  assert (HL : entry (logsumexp_red raw Dim01) 0 0 = NaN).
  { change (entry (logsumexp_red raw Dim01) 0 0)
      with (xlog (xsum (map xexp (entries raw)))).
    rewrite Hentries. reflexivity. }
  split; [exact R01|]. split.
  - rewrite He by lia. rewrite HL, R00. reflexivity.
  - rewrite Hmap, HL, Hentries. reflexivity.
Qed.

(** The two fits on the two copies of one point. *)
Lemma magic_fit_duplicates :
  exists P self' sigma,
    MAGICAffinity._compute_affinity sqeuclidean_oracle magic_K1 duplicates
    = inr (P, self') /\
    MAGICAffinity.sigma_ self' = Some sigma /\
    item sigma 0 = Fin 0 /\ item sigma 1 = Fin 0 /\
    entry P 0 0 = NaN /\ entry P 0 1 = NaN.
Proof.
  destruct (@magic_fit_returns _ sqeuclidean_oracle magic_K1 duplicates)
    as (sigma & Hlen & Hkth & E); [simpl; lia|].
  destruct (@duplicates_distances (MAGICAffinity.base magic_K1) eq_refl)
    as (E00 & E01 & E10 & E11).
  destruct (@duplicates_bandwidth (MAGICAffinity.base magic_K1) sigma eq_refl Hkth)
    as [S0 S1].
  destruct (@magic_pipeline_duplicates
              (fst (Affinity._distance_matrix sqeuclidean_oracle
                      (MAGICAffinity.base magic_K1) duplicates))
              sigma eq_refl eq_refl Hlen
              E00 E01 E10 E11 S0 S1) as (_ & _ & P00 & P01 & _).
  rewrite E. cbv zeta. do 2 eexists. exists sigma.
  split; [reflexivity|]. split; [reflexivity|]. auto.
Qed.

Lemma self_tuning_fit_duplicates :
  exists logP self' sigma,
    SelfTuningAffinity._compute_log_affinity sqeuclidean_oracle
      self_tuning_K1 duplicates = inr (logP, self') /\
    SelfTuningAffinity.sigma_ self' = Some sigma /\
    item sigma 0 = Fin 0 /\ item sigma 1 = Fin 0 /\
    entry logP 0 0 = NaN /\
    xsum (map xexp (entries logP)) = NaN.
Proof.
  destruct (@self_tuning_fit_returns _ sqeuclidean_oracle self_tuning_K1
              duplicates) as (sigma & Hlen & Hkth & E); [simpl; lia|].
  destruct (@duplicates_distances (SelfTuningAffinity.base self_tuning_K1)
              eq_refl) as (E00 & E01 & E10 & E11).
  destruct (@duplicates_bandwidth (SelfTuningAffinity.base self_tuning_K1)
              sigma eq_refl Hkth) as [S0 S1].
  destruct (@self_tuning_pipeline_duplicates
              (fst (Affinity._distance_matrix sqeuclidean_oracle
                      (SelfTuningAffinity.base self_tuning_K1) duplicates))
              sigma eq_refl eq_refl Hlen
              E00 E01 E10 E11 S0 S1) as (_ & L00 & Hsum).
  rewrite E. cbv zeta. cbn [SelfTuningAffinity.normalization_dim
    self_tuning_K1 SelfTuningAffinity.__init__ kwarg
    SelfTuningAffinity.kw_normalization_dim].
  do 2 eexists. exists sigma.
  split; [reflexivity|]. split; [reflexivity|]. auto.
Qed.

(** The MAGIC pipeline on [[inf, 1, 4], [1, inf, 1], [4, 1, inf]] with all
    bandwidths 1: the symmetrised matrix is symmetric, but the first two
    rows have different sums, so that the result is not symmetric. *)
Lemma magic_pipeline_line3 (C : tensor) (sigma : vector) :
  nrows C = 3%nat -> ncols C = 3%nat -> vlen sigma = 3%nat ->
  (entry C 0 0 = PInf /\ entry C 0 1 = Fin 1 /\ entry C 0 2 = Fin 4) /\
  (entry C 1 0 = Fin 1 /\ entry C 1 1 = PInf /\ entry C 1 2 = Fin 1) /\
  (entry C 2 0 = Fin 4 /\ entry C 2 1 = Fin 1 /\ entry C 2 2 = PInf) ->
  item sigma 0 = Fin 1 /\ item sigma 1 = Fin 1 /\ item sigma 2 = Fin 1 ->
  let A := texp (_log_MAGIC C sigma) in
  let S := tdiv_scalar (tadd A (matrix_transpose A)) 2 in
  let P := tdiv S (sum_red S Axis1) in
  entry P 0 1 <> entry P 1 0.
Proof.
  intros Hr Hc Hl ((E00 & E01 & E02) & (E10 & E11 & E12) & (E20 & E21 & E22))
         (S0 & S1 & S2) A S P.
  assert (Hr' : nrows C = vlen sigma) by congruence.
  assert (Hc' : ncols C = vlen sigma) by congruence.
  destruct (normalize_step C sigma Hr' Hc') as (_ & _ & He).
  destruct (P_shape C sigma Hr' Hc') as (HrP & HcP).
  fold A S P in He, HrP, HcP.
  rewrite !He by lia.
  unfold row_normalize, symmetrize, magic_kernel, row.
  cbn [entry nrows ncols]. rewrite Hc. cbn [seq map].
  rewrite ?E00, ?E01, ?E02, ?E10, ?E11, ?E12, ?E20, ?E21, ?E22, ?S0, ?S1, ?S2.
  pose proof (exp_pos (Ropp 1 / 1)) as H1.
  pose proof (exp_pos (Ropp 4 / 1)) as H4.
  assert (H41 : exp (Ropp 4 / 1) < exp (Ropp 1 / 1))
    by (apply exp_increasing; lra).
  xeval.
  set (x := exp (Ropp 1 / 1)) in *. set (y := exp (Ropp 4 / 1)) in *.
  clearbody x y. intros H. injection H as H.
  assert (EL : (x + x) / 2 / ((0 + 0) / 2 + ((x + x) / 2 + ((y + y) / 2 + 0)))
               = x / (x + y)) by (field; lra).
  assert (ER : (x + x) / 2 / ((x + x) / 2 + ((0 + 0) / 2 + ((x + x) / 2 + 0)))
               = / 2) by (field; lra).
  rewrite EL, ER in H.
  assert (Hx : x = (x + y) * / 2) by (rewrite <- H; field; lra).
  lra.
Qed.

(** The MAGIC fit on the three points of the line is not symmetric. *)
Lemma magic_fit_line3 :
  exists P self',
    MAGICAffinity._compute_affinity sqeuclidean_oracle magic_K1 line3
    = inr (P, self') /\
    entry P 0 1 <> entry P 1 0.
Proof.
  destruct (@magic_fit_returns _ sqeuclidean_oracle magic_K1 line3)
    as (sigma & Hlen & Hkth & E); [simpl; lia|].
  pose proof (@line3_distances (MAGICAffinity.base magic_K1) eq_refl) as HC.
  pose proof (@line3_bandwidth (MAGICAffinity.base magic_K1) sigma eq_refl Hkth)
    as HS.
  pose proof (@magic_pipeline_line3
                (fst (Affinity._distance_matrix sqeuclidean_oracle
                        (MAGICAffinity.base magic_K1) line3))
                sigma eq_refl eq_refl Hlen HC HS) as HP.
  rewrite E. cbv zeta. do 2 eexists. split; [reflexivity | exact HP].
Qed.

(** The three reference steps on the same matrix with all bandwidths 1:
    the diagonal of the result is 0, and its first two rows begin with
    [e^-1 / (e^-1 + e^-4)] and with [1/2]. *)
Lemma magic_steps_line3 (C : tensor) (sigma : vector) :
  nrows C = 3%nat -> ncols C = 3%nat ->
  (entry C 0 0 = PInf /\ entry C 0 1 = Fin 1 /\ entry C 0 2 = Fin 4) /\
  (entry C 1 0 = Fin 1 /\ entry C 1 1 = PInf /\ entry C 1 2 = Fin 1) /\
  (entry C 2 0 = Fin 4 /\ entry C 2 1 = Fin 1 /\ entry C 2 2 = PInf) ->
  item sigma 0 = Fin 1 /\ item sigma 1 = Fin 1 /\ item sigma 2 = Fin 1 ->
  let R := row_normalize (symmetrize (magic_kernel C sigma)) in
  entry R 0 0 = Fin 0 /\
  entry R 0 1 = Fin (exp (- (1)) / (exp (- (1)) + exp (- (4)))) /\
  entry R 1 0 = Fin (1 / 2).
Proof.
  intros Hr Hc ((E00 & E01 & E02) & (E10 & E11 & E12) & (E20 & E21 & E22))
         (S0 & S1 & S2) R.
  unfold R, row_normalize, symmetrize, magic_kernel, row.
  cbn [entry nrows ncols]. rewrite Hc. cbn [seq map].
  rewrite ?E00, ?E01, ?E02, ?E10, ?E11, ?E12, ?E20, ?E21, ?E22, ?S0, ?S1, ?S2.
  replace (- (1)) with (Ropp 1 / 1) by field.
  replace (- (4)) with (Ropp 4 / 1) by field.
  pose proof (exp_pos (Ropp 1 / 1)) as H1.
  pose proof (exp_pos (Ropp 4 / 1)) as H4.
  xeval.
  set (x := exp (Ropp 1 / 1)) in *. set (y := exp (Ropp 4 / 1)) in *.
  clearbody x y.
  split; [|split]; f_equal; field; lra.
Qed.

(** On the line the hypotheses of the zero-diagonal policy hold. *)
Lemma line3_off_diagonal (self : Affinity.t) :
  Affinity.zero_diag self = true ->
  forall i j, (i < 3)%nat -> (j < 3)%nat -> i <> j ->
    exists c,
      entry (fst (Affinity._distance_matrix sqeuclidean_oracle self line3)) i j
      = Fin c.
Proof.
  intros Hz i j Hi Hj Hne.
  destruct (line3_distances self Hz)
    as ((E00 & E01 & E02) & (E10 & E11 & E12) & (E20 & E21 & E22)).
  destruct i as [|[|[|i]]]; [| | |lia];
    (destruct j as [|[|[|j]]]; [| | |lia]); try congruence; eauto.
Qed.

Lemma line3_positive (self : Affinity.t) (sigma : vector) :
  Affinity.zero_diag self = true ->
  (forall i,
     kth_smallest
       (row (fst (Affinity._distance_matrix sqeuclidean_oracle self line3)) i)
       1 (item sigma i)) ->
  forall i, (i < 3)%nat -> positive (item sigma i).
Proof.
  intros Hz Hkth i Hi.
  destruct (@line3_bandwidth self sigma Hz Hkth) as (S0 & S1 & S2).
  destruct i as [|[|[|i]]]; [| | |lia]; exists 1; split; (easy || lra).
Qed.

End Examples.

(* ================================================================== *)
(** * The PHATE configuration *)
(* ================================================================== *)

Section PhateInit.

Local Open Scope R_scope.
Local Open Scope result_scope.

Variables NegPotentialAffinity_t NegativeCostAffinity_t AffinityMatcher_t : Type.
Variable NegPotentialAffinity :
  PHATE.NegPotentialAffinity_args -> result NegPotentialAffinity_t.
Variable NegativeCostAffinity :
  PHATE.NegativeCostAffinity_args -> result NegativeCostAffinity_t.
Variable AffinityMatcher__init__ :
  PHATE.AffinityMatcher_args NegPotentialAffinity_t NegativeCostAffinity_t ->
  result AffinityMatcher_t.

#[local] Abbreviation init :=
  (PHATE.__init__ NegPotentialAffinity NegativeCostAffinity
     AffinityMatcher__init__).

Lemma is_faiss_true (backend : option string) :
  PHATE.is_faiss backend = true <-> backend = Some "faiss"%string.
Proof.
  destruct backend as [s|]; simpl; [|easy].
  rewrite String.eqb_eq. split; congruence.
Qed.

Lemma is_faiss_false (backend : option string) :
  PHATE.is_faiss backend = false <-> backend <> Some "faiss"%string.
Proof.
  rewrite <- is_faiss_true. destruct (PHATE.is_faiss backend); split; congruence.
Qed.

(** C8.  With [backend = "faiss"] the constructor of [PHATE] raises its
    error whatever the constructors of the affinities and of the base class
    would do: none of them is reached.  With any other backend ([None],
    ["keops"]) it does not raise by itself: it ends in an error only if one
    of those constructors raised it, and it returns when they all do. *)
Theorem faiss_backend_rejected (class_name : string) (kw : PHATE.kwargs) :
  let backend := kwarg None (PHATE.kw_backend kw) in
  (backend = Some "faiss"%string ->
   init class_name kw = inl (ValueError (PHATE.faiss_message class_name))) /\
  (backend <> Some "faiss"%string ->
   (forall e, init class_name kw = inl e ->
      (exists a, NegPotentialAffinity a = inl e) \/
      (exists a, NegativeCostAffinity a = inl e) \/
      (exists a, AffinityMatcher__init__ a = inl e)) /\
   ((forall a, exists r, NegPotentialAffinity a = inr r) ->
    (forall a, exists r, NegativeCostAffinity a = inr r) ->
    (forall a, exists r, AffinityMatcher__init__ a = inr r) ->
    exists self, init class_name kw = inr self)).
Proof.
  intros backend. split.
  - intros Hb. apply is_faiss_true in Hb.
    unfold PHATE.__init__. fold backend. now rewrite Hb.
  - intros Hb. apply is_faiss_false in Hb.
    unfold PHATE.__init__. fold backend. rewrite Hb. split.
    + intros e.
      match goal with
      | |- context [NegPotentialAffinity ?a] =>
          destruct (NegPotentialAffinity a) as [e1|a_in] eqn:E1
      end; cbn [bind].
      { intros [= <-]. left. eauto. }
      match goal with
      | |- context [NegativeCostAffinity ?a] =>
          destruct (NegativeCostAffinity a) as [e2|a_out] eqn:E2
      end; cbn [bind].
      { intros [= <-]. right. left. eauto. }
      match goal with
      | |- context [AffinityMatcher__init__ ?a] =>
          destruct (AffinityMatcher__init__ a) as [e3|base] eqn:E3
      end; cbn [bind].
      { intros [= <-]. right. right. eauto. }
      discriminate.
    + intros H1 H2 H3.
      match goal with
      | |- context [NegPotentialAffinity ?a] =>
          destruct (H1 a) as (a_in & ->)
      end; cbn [bind].
      match goal with
      | |- context [NegativeCostAffinity ?a] =>
          destruct (H2 a) as (a_out & ->)
      end; cbn [bind].
      match goal with
      | |- context [AffinityMatcher__init__ ?a] =>
          destruct (H3 a) as (base & ->)
      end; cbn [bind].
      eauto.
Qed.

(** C10.  When [init_scaling] is not passed (and the backend is accepted),
    [PHATE.__init__] builds the input affinity as [NegPotentialAffinity]
    with [K = n_neighbors], the diffusion time [t] and the stabilizer [eps],
    the output affinity as [NegativeCostAffinity], and calls the
    constructor of [AffinityMatcher] with these two, the loss ["l2_loss"]
    and [init_scaling = 1.0], which is not the [1e-4] of the docstring. *)
Theorem default_init_scaling_and_wiring
  (class_name : string) (kw : PHATE.kwargs)
  (a_in : NegPotentialAffinity_t) (a_out : NegativeCostAffinity_t) :
  let n_neighbors := kwarg 10%Z (PHATE.kw_n_neighbors kw) in
  let t := kwarg 5%Z (PHATE.kw_t kw) in
  let eps := kwarg (1 / 100000) (PHATE.kw_eps kw) in
  let device := kwarg "auto"%string (PHATE.kw_device kw) in
  let backend := kwarg None (PHATE.kw_backend kw) in
  PHATE.kw_init_scaling kw = None ->
  backend <> Some "faiss"%string ->
  NegPotentialAffinity
    (PHATE.mk_NegPotentialAffinity_args backend device eps t n_neighbors)
  = inr a_in ->
  NegativeCostAffinity (PHATE.mk_NegativeCostAffinity_args backend device)
  = inr a_out ->
  exists args,
    init class_name kw
    = (base <- AffinityMatcher__init__ args ;;
       ret (PHATE.mk n_neighbors t eps base)) /\
    PHATE.affinity_in args = a_in /\
    PHATE.affinity_out args = a_out /\
    PHATE.loss_fn args = "l2_loss"%string /\
    PHATE.init_scaling args = 1 /\
    PHATE.init_scaling args <> PHATE.documented_init_scaling /\
    PHATE.device args = device /\
    PHATE.backend args = backend.
Proof.
  intros n_neighbors t eps device backend Hscale Hb Hin Hout.
  apply is_faiss_false in Hb.
  unfold PHATE.__init__.
  fold n_neighbors t eps device backend.
  rewrite Hb, Hin. cbn [bind]. rewrite Hout. cbn [bind].
  rewrite Hscale. cbn [kwarg].
  eexists. split; [reflexivity|]. cbn.
  repeat split. unfold PHATE.documented_init_scaling. lra.
Qed.

End PhateInit.

(* ================================================================== *)
(** * Row sums, degenerate bandwidths, and the fits on concrete data *)
(* ================================================================== *)

Section ConcreteInputs.

Import XRealFacts Spec TensorFacts MagicFacts SelfTuningFacts Data Examples.
Local Open Scope R_scope.

(** C4.  Every row of the result of a MAGIC fit whose sum, before the
    division, is a positive real number sums to one; and the result is not
    symmetric in general: on three points of a line it differs from its
    transpose. *)
Theorem magic_rows_sum_to_one :
  (forall (sample : Type)
          (pairwise_distance : string -> sample -> sample -> xreal)
          (self self' : MAGICAffinity.t) (X : list sample)
          (P : tensor) (sigma : vector) (i : nat) (s : R),
     MAGICAffinity._compute_affinity pairwise_distance self X
     = inr (P, self') ->
     MAGICAffinity.sigma_ self' = Some sigma ->
     (i < List.length X)%nat ->
     (let C := fst (Affinity._distance_matrix pairwise_distance
                      (MAGICAffinity.base self) X) in
      let A := texp (_log_MAGIC C sigma) in
      let S := tdiv_scalar (tadd A (matrix_transpose A)) 2 in
      entry (sum_red S Axis1) i 0 = Fin s) ->
     0 < s ->
     xsum (row P i) = Fin 1) /\
  (exists (X : list (list R)) (self self' : MAGICAffinity.t) (P : tensor),
     MAGICAffinity._compute_affinity sqeuclidean_oracle self X
     = inr (P, self') /\
     exists i j, (i < nrows P)%nat /\ (j < ncols P)%nat /\
       entry P i j <> entry (matrix_transpose P) i j).
Proof.
  split.
  - intros sample pairwise_distance self self' X P sigma i s.
    apply normalized_row_sums_to_one.
  - destruct magic_fit_line3 as (P & self' & Hfit & Hne).
    exists line3, magic_K1, self', P. split; [exact Hfit|].
    destruct (@magic_fit_result _ sqeuclidean_oracle magic_K1 self' line3 P
                Hfit) as (sigma' & _ & Hlen' & _ & EP).
    destruct (@P_shape
                (fst (Affinity._distance_matrix sqeuclidean_oracle
                        (MAGICAffinity.base magic_K1) line3)) sigma')
      as [HrP HcP]; try (rewrite Hlen'; reflexivity).
    cbv zeta in EP, HrP, HcP. rewrite <- EP, Hlen' in HrP, HcP.
    exists 0%nat, 1%nat. rewrite HrP, HcP.
    split; [simpl; lia|]. split; [simpl; lia|]. exact Hne.
Qed.

(** C7, as amended.  No fit ends in [DegenerateBandwidthError]: a bandwidth
    of zero is not detected.  The kernels divide by it: with [sigma_i = 0]
    the entry [(i,j)] of [_log_MAGIC] (and of [_log_SelfTuning], for a real
    [sigma_j]) is nan where the distance is zero, and [-inf] where it is
    positive or [+inf]. *)
Theorem zero_bandwidth_not_guarded :
  (forall (sample : Type)
          (pairwise_distance : string -> sample -> sample -> xreal)
          (st : SelfTuningAffinity.t) (mg : MAGICAffinity.t)
          (X : list sample),
     SelfTuningAffinity._compute_log_affinity pairwise_distance st X
     <> inl DegenerateBandwidthError /\
     MAGICAffinity._compute_affinity pairwise_distance mg X
     <> inl DegenerateBandwidthError) /\
  (forall (C : tensor) (sigma : vector) (i j : nat),
     nrows C = vlen sigma -> ncols C = vlen sigma ->
     (i < vlen sigma)%nat -> (j < vlen sigma)%nat ->
     item sigma i = Fin 0 ->
     (entry C i j = Fin 0 ->
      entry (_log_MAGIC C sigma) i j = NaN /\
      (forall sj, item sigma j = Fin sj ->
         entry (_log_SelfTuning C sigma) i j = NaN)) /\
     (entry C i j = PInf \/ (exists c, entry C i j = Fin c /\ 0 < c) ->
      entry (_log_MAGIC C sigma) i j = NInf /\
      (forall sj, item sigma j = Fin sj ->
         entry (_log_SelfTuning C sigma) i j = NInf))).
Proof.
  split.
  - intros sample pairwise_distance st mg X. split; intros Hfit.
    + apply self_tuning_fit_error in Hfit. discriminate.
    + apply magic_fit_error in Hfit. discriminate.
  - intros C sigma i j Hr Hc Hi Hj Hzero.
    assert (Hj' : (j < ncols C)%nat) by (rewrite Hc; exact Hj).
    rewrite log_MAGIC_entry by assumption.
    rewrite log_SelfTuning_entry by assumption.
    rewrite Hzero. split.
    + intros ->. split.
      * cbn. rewrite !(proj2 (Reqb_true _ _)) by lra. reflexivity.
      * intros sj ->. cbn.
        rewrite !(proj2 (Reqb_true _ _)) by lra. reflexivity.
    + intros [-> | (c & -> & Hcpos)]; split.
      * cbn. rewrite Rltb_pos by lra. reflexivity.
      * intros sj ->. cbn. rewrite Rltb_pos by lra. reflexivity.
      * cbn. rewrite Reqb_refl.
        rewrite (proj2 (Reqb_false (- c) 0)) by lra.
        rewrite (proj2 (Rltb_true (- c) 0)) by lra. reflexivity.
      * intros sj ->. cbn.
        rewrite (proj2 (Reqb_true (0 * sj) 0)) by lra.
        rewrite (proj2 (Reqb_false (- c) 0)) by lra.
        rewrite (proj2 (Rltb_true (- c) 0)) by lra. reflexivity.
Qed.

(** ** Inputs with a zero bandwidth *)

(** C5 fails as stated: on two copies of one point, with one neighbour and
    the default joint normalization, the fit returns and the exponentials of
    the result sum to nan, not to one. *)
Lemma joint_normalization_nan_on_duplicates :
  exists logP self',
    SelfTuningAffinity._compute_log_affinity sqeuclidean_oracle
      self_tuning_K1 duplicates = inr (logP, self') /\
    SelfTuningAffinity.normalization_dim self_tuning_K1 = Some Dim01 /\
    xsum (map xexp (entries logP)) = NaN /\
    xsum (map xexp (entries logP)) <> Fin 1.
Proof.
  destruct self_tuning_fit_duplicates
    as (logP & self' & sigma & Hfit & _ & _ & _ & _ & Hsum).
  exists logP, self'. rewrite Hsum.
  repeat split; [exact Hfit | discriminate].
Qed.

(** C7 fails as stated: on the same input the bandwidths are zero, and the
    MAGIC fit returns, with a nan entry, instead of raising. *)
Lemma zero_bandwidth_returns_nan_on_duplicates :
  exists P self' sigma,
    MAGICAffinity._compute_affinity sqeuclidean_oracle magic_K1 duplicates
    = inr (P, self') /\
    MAGICAffinity.sigma_ self' = Some sigma /\
    item sigma 0 = Fin 0 /\
    entry P 0 1 = NaN /\
    MAGICAffinity._compute_affinity sqeuclidean_oracle magic_K1 duplicates
    <> inl DegenerateBandwidthError.
Proof.
  destruct magic_fit_duplicates
    as (P & self' & sigma & Hfit & Hsigma & S0 & _ & _ & P01).
  exists P, self', sigma. rewrite Hfit.
  repeat split; (assumption || discriminate).
Qed.

(** C9 fails as stated: on the same input, fitted with [zero_diag = True],
    the diagonal of the MAGIC affinity is nan, not zero. *)
Lemma zero_diag_nan_diagonal_on_duplicates :
  Affinity.zero_diag (MAGICAffinity.base magic_K1) = true /\
  exists P self',
    MAGICAffinity._compute_affinity sqeuclidean_oracle magic_K1 duplicates
    = inr (P, self') /\
    entry P 0 0 = NaN /\
    entry P 0 0 <> Fin 0.
Proof.
  split; [reflexivity|].
  destruct magic_fit_duplicates
    as (P & self' & sigma & Hfit & _ & _ & _ & P00 & _).
  exists P, self'. rewrite P00.
  repeat split; [exact Hfit | discriminate].
Qed.

(** ** The theorems at concrete inputs *)

Lemma sigma_is_kth_smallest_witness :
  exists logP st',
    SelfTuningAffinity._compute_log_affinity sqeuclidean_oracle
      self_tuning_K1 line3 = inr (logP, st') /\
    bandwidth_is_kth_smallest
      (fst (Affinity._distance_matrix sqeuclidean_oracle
              (SelfTuningAffinity.base self_tuning_K1) line3))
      (SelfTuningAffinity.K self_tuning_K1) (SelfTuningAffinity.sigma_ st').
Proof.
  refine (proj1 (@sigma_is_kth_smallest _ sqeuclidean_oracle
                   self_tuning_K1 magic_K1 line3 _ _)); simpl; lia.
Defined.

Lemma invalid_K_raises_witness :
  SelfTuningAffinity._compute_log_affinity sqeuclidean_oracle
    (SelfTuningAffinity.__init__ SelfTuningAffinity.no_kwargs) line3
  = inl InvalidKError /\
  MAGICAffinity._compute_affinity sqeuclidean_oracle
    (MAGICAffinity.__init__ MAGICAffinity.no_kwargs) line3
  = inl InvalidKError.
Proof.
  apply invalid_K_raises; right; simpl; lia.
Defined.

Lemma self_tuning_kernel_formula_witness :
  entry (_log_SelfTuning unit_distances unit_bandwidths) 0 1
  = xdiv (xneg (entry unit_distances 0 1))
         (xmul (item unit_bandwidths 0) (item unit_bandwidths 1)).
Proof.
  refine (proj1 (proj2 (proj2 (@self_tuning_kernel_formula
                                 unit_distances unit_bandwidths
                                 eq_refl eq_refl _))
                   0%nat 1%nat _ _)).
  - intros i _. exists 1. split; [reflexivity | lra].
  - simpl. lia.
  - simpl. lia.
Defined.

Lemma magic_is_three_steps_witness :
  exists P self' sigma,
    MAGICAffinity._compute_affinity sqeuclidean_oracle magic_K1 line3
    = inr (P, self') /\
    MAGICAffinity.sigma_ self' = Some sigma /\
    (item sigma 0 = Fin 1 /\ item sigma 1 = Fin 1 /\ item sigma 2 = Fin 1) /\
    same_tensor P
      (row_normalize
         (symmetrize
            (magic_kernel
               (fst (Affinity._distance_matrix sqeuclidean_oracle
                       (MAGICAffinity.base magic_K1) line3))
               sigma))) /\
    entry P 0 0 = Fin 0 /\
    entry P 0 1 = Fin (exp (- (1)) / (exp (- (1)) + exp (- (4)))) /\
    entry P 1 0 = Fin (1 / 2).
Proof.
  destruct (@magic_is_three_steps _ sqeuclidean_oracle magic_K1 line3)
    as (P & self' & sigma & Hfit & Hsigma & Hlen & Hkth & HrP & HcP & Hsame & _);
    [simpl; lia|].
  pose proof (@line3_distances (MAGICAffinity.base magic_K1) eq_refl) as HC.
  pose proof (@line3_bandwidth (MAGICAffinity.base magic_K1) sigma eq_refl Hkth)
    as HS.
  destruct (@magic_steps_line3
              (fst (Affinity._distance_matrix sqeuclidean_oracle
                      (MAGICAffinity.base magic_K1) line3))
              sigma eq_refl eq_refl HC HS) as (R00 & R01 & R10).
  destruct Hsame as (Hr & Hc & He).
  exists P, self', sigma.
  split; [exact Hfit|]. split; [exact Hsigma|]. split; [exact HS|].
  split; [exact (conj Hr (conj Hc He))|].
  rewrite !He by (rewrite ?HrP, ?HcP; simpl; lia).
  split; [exact R00|]. split; [exact R01 | exact R10].
Defined.

Lemma magic_rows_sum_to_one_witness :
  exists P self',
    MAGICAffinity._compute_affinity sqeuclidean_oracle magic_K1 line3
    = inr (P, self') /\
    xsum (row P 0) = Fin 1.
Proof.
  destruct magic_fit_line3 as (P & self' & Hfit & _).
  destruct (@magic_fit_result _ sqeuclidean_oracle magic_K1 self' line3 P Hfit)
    as (sigma & Hsigma & Hlen & Hkth & _).
  destruct (@magic_row_sum_positive _ sqeuclidean_oracle
              (MAGICAffinity.base magic_K1) line3 sigma eq_refl Hlen
              (@line3_positive (MAGICAffinity.base magic_K1) sigma eq_refl Hkth)
              (@line3_off_diagonal (MAGICAffinity.base magic_K1) eq_refl)
              0%nat _ ltac:(simpl; lia) (Hkth 0%nat)) as (s & Hs & Hpos).
  exists P, self'. split; [exact Hfit|].
  exact (proj1 magic_rows_sum_to_one _ sqeuclidean_oracle magic_K1 self'
           line3 P sigma 0%nat s Hfit Hsigma ltac:(simpl; lia) Hs Hpos).
Defined.

Lemma log_normalization_subtracted_witness :
  exists logP self',
    SelfTuningAffinity._compute_log_affinity sqeuclidean_oracle
      self_tuning_K1 line3 = inr (logP, self') /\
    xsum (map xexp (entries logP)) = Fin 1.
Proof.
  destruct (@log_normalization_subtracted _ sqeuclidean_oracle
              self_tuning_K1 line3 Dim01 eq_refl)
    as (logP & self' & sigma & Hfit & Hsigma & _ & _ & Hsum); [simpl; lia|].
  destruct (@self_tuning_fit_result _ sqeuclidean_oracle self_tuning_K1 self'
              line3 logP Hfit) as (sigma' & Hsigma' & _ & Hkth).
  assert (sigma' = sigma) by congruence. subst sigma'.
  exists logP, self'. split; [exact Hfit|].
  apply Hsum; [reflexivity | | |].
  - exact (@line3_positive (SelfTuningAffinity.base self_tuning_K1) sigma eq_refl Hkth).
  - intros i j Hi Hj.
    apply (@masked_distance_value _ sqeuclidean_oracle
             (SelfTuningAffinity.base self_tuning_K1) line3 eq_refl
             (@line3_off_diagonal (SelfTuningAffinity.base self_tuning_K1) eq_refl) i j Hi Hj).
  - exists 0%nat, 1%nat. split; [simpl; lia|]. split; [simpl; lia|].
    destruct (@line3_distances (SelfTuningAffinity.base self_tuning_K1)
                eq_refl) as ((_ & E01 & _) & _).
    now rewrite E01.
Defined.

Lemma zero_bandwidth_not_guarded_witness :
  entry (_log_MAGIC masked_zero_distances zero_bandwidths) 0 1 = NaN /\
  entry (_log_MAGIC masked_zero_distances zero_bandwidths) 0 0 = NInf.
Proof.
  split.
  - refine (proj1 (proj1 (proj2 zero_bandwidth_not_guarded
                            masked_zero_distances zero_bandwidths
                            0%nat 1%nat eq_refl eq_refl _ _ eq_refl)
                     eq_refl)); simpl; lia.
  - refine (proj1 (proj2 (proj2 zero_bandwidth_not_guarded
                            masked_zero_distances zero_bandwidths
                            0%nat 0%nat eq_refl eq_refl _ _ eq_refl)
                     (or_introl eq_refl))); simpl; lia.
Defined.

Lemma zero_diag_gives_zero_diagonal_witness :
  exists P mg',
    MAGICAffinity._compute_affinity sqeuclidean_oracle magic_K1 line3
    = inr (P, mg') /\
    entry P 0 0 = Fin 0 /\ entry P 1 1 = Fin 0 /\ entry P 2 2 = Fin 0.
Proof.
  destruct (@zero_diag_gives_zero_diagonal _ sqeuclidean_oracle
              self_tuning_K1 magic_K1 line3 eq_refl eq_refl)
    as (_ & P & mg' & sigma & Hfit & Hsigma & _ & Hzero);
    [simpl; lia | simpl; lia |].
  destruct (@magic_fit_result _ sqeuclidean_oracle magic_K1 mg' line3 P Hfit)
    as (sigma' & Hsigma' & _ & Hkth & _).
  assert (sigma' = sigma) by congruence. subst sigma'.
  pose proof (Hzero (@line3_positive (MAGICAffinity.base magic_K1) sigma eq_refl Hkth)
                    (@line3_off_diagonal (MAGICAffinity.base magic_K1) eq_refl)) as Hd.
  exists P, mg'. split; [exact Hfit|].
  repeat split; apply Hd; simpl; lia.
Defined.

Lemma faiss_backend_rejected_witness :
  PHATE.__init__ record_args record_args record_args "PHATE" faiss_kwargs
  = inl (ValueError (PHATE.faiss_message "PHATE")).
Proof.
  exact (proj1 (@faiss_backend_rejected _ _ _ record_args record_args
                  record_args "PHATE"%string faiss_kwargs) eq_refl).
Defined.

Lemma default_init_scaling_and_wiring_witness :
  exists args,
    PHATE.__init__ record_args record_args record_args "PHATE"
      PHATE.no_kwargs
    = inr (PHATE.mk 10 5 (1 / 100000) args) /\
    PHATE.init_scaling args = 1 /\
    PHATE.loss_fn args = "l2_loss"%string /\
    PHATE.np_K (PHATE.affinity_in args) = 10%Z.
Proof.
  destruct (@default_init_scaling_and_wiring _ _ _ record_args record_args
              record_args "PHATE"%string PHATE.no_kwargs _ _
              eq_refl ltac:(discriminate) eq_refl eq_refl)
    as (args & Hinit & Hin & _ & Hloss & Hscale & _).
  exists args. rewrite Hinit, Hin. repeat split; assumption.
Defined.

End ConcreteInputs.

(* ================================================================== *)
(** * What a fit changes, and fitting again *)
(* ================================================================== *)

Section FitState.

Import XRealFacts Spec SortFacts TensorFacts MagicFacts.
Local Open Scope R_scope.

Variable sample : Type.
Variable pairwise_distance : string -> sample -> sample -> xreal.

#[local] Abbreviation distance_matrix self X :=
  (fst (Affinity._distance_matrix pairwise_distance self X)).

(** The self-tuning fit as a function of what [kmin] and the selection of
    the last column returned. *)
Lemma self_tuning_fit_unfold (self : SelfTuningAffinity.t) (X : list sample)
      (minK : tensor) (idx : itensor) (sigma : vector) :
  kmin (distance_matrix (SelfTuningAffinity.base self) X)
       (SelfTuningAffinity.K self) Axis1 = inr (minK, idx) ->
  select_column minK (-1) = inr sigma ->
  SelfTuningAffinity._compute_log_affinity pairwise_distance self X
  = let raw := _log_SelfTuning
                 (distance_matrix (SelfTuningAffinity.base self) X) sigma in
    match SelfTuningAffinity.normalization_dim self with
    | Some dim =>
        inr (tsub raw (logsumexp_red raw dim),
             SelfTuningAffinity.mk (SelfTuningAffinity.base self)
               (SelfTuningAffinity.K self)
               (SelfTuningAffinity.normalization_dim self)
               (Some sigma) (Some (logsumexp_red raw dim)))
    | None =>
        inr (raw,
             SelfTuningAffinity.mk (SelfTuningAffinity.base self)
               (SelfTuningAffinity.K self)
               (SelfTuningAffinity.normalization_dim self)
               (Some sigma) (SelfTuningAffinity.log_normalization_ self))
    end.
Proof.
  intros Hkmin Hsel. unfold SelfTuningAffinity._compute_log_affinity.
  cbn [Affinity._distance_matrix fst] in *.
  rewrite Hkmin. cbn [bind]. rewrite Hsel. cbn [bind].
  cbn [SelfTuningAffinity.normalization_dim SelfTuningAffinity.set_sigma_].
  destruct (SelfTuningAffinity.normalization_dim self) eqn:Hdim;
    unfold SelfTuningAffinity.set_log_normalization_,
      SelfTuningAffinity.set_sigma_, ret;
    cbn [SelfTuningAffinity.base SelfTuningAffinity.K
         SelfTuningAffinity.normalization_dim SelfTuningAffinity.sigma_
         SelfTuningAffinity.log_normalization_];
    rewrite ?Hdim; reflexivity.
Qed.

Lemma magic_fit_unfold (self : MAGICAffinity.t) (X : list sample)
      (minK : tensor) (idx : itensor) (sigma : vector) :
  kmin (distance_matrix (MAGICAffinity.base self) X)
       (MAGICAffinity.K self) Axis1 = inr (minK, idx) ->
  select_column minK (-1) = inr sigma ->
  MAGICAffinity._compute_affinity pairwise_distance self X
  = let A := texp (_log_MAGIC (distance_matrix (MAGICAffinity.base self) X)
                     sigma) in
    let S := tdiv_scalar (tadd A (matrix_transpose A)) 2 in
    inr (tdiv S (sum_red S Axis1),
         MAGICAffinity.mk (MAGICAffinity.base self) (MAGICAffinity.K self)
           (Some sigma)).
Proof.
  intros Hkmin Hsel. unfold MAGICAffinity._compute_affinity.
  cbn [Affinity._distance_matrix fst] in *.
  rewrite Hkmin. cbn [bind]. rewrite Hsel. reflexivity.
Qed.

(** X1.  A self-tuning fit changes the fitted attributes only: the returned
    instance has the [base], [K] and [normalization_dim] of the instance
    that was fitted.  With [normalization_dim = None] the result is the raw
    kernel of the stored bandwidth, and [log_normalization_] is left as it
    was before the fit (a value of an earlier fit stays). *)
Theorem self_tuning_fit_frame
  (self self' : SelfTuningAffinity.t) (X : list sample) (logP : tensor) :
  SelfTuningAffinity._compute_log_affinity pairwise_distance self X
  = inr (logP, self') ->
  SelfTuningAffinity.base self' = SelfTuningAffinity.base self /\
  SelfTuningAffinity.K self' = SelfTuningAffinity.K self /\
  SelfTuningAffinity.normalization_dim self'
  = SelfTuningAffinity.normalization_dim self /\
  (SelfTuningAffinity.normalization_dim self = None ->
   SelfTuningAffinity.log_normalization_ self'
   = SelfTuningAffinity.log_normalization_ self /\
   exists sigma,
     SelfTuningAffinity.sigma_ self' = Some sigma /\
     logP = _log_SelfTuning
              (distance_matrix (SelfTuningAffinity.base self) X) sigma).
Proof.
  intros Hfit.
  pose proof (self_tuning_fit_inr _ _ _ Hfit) as HK.
  destruct (@kmin_bandwidth (distance_matrix (SelfTuningAffinity.base self) X)
              (SelfTuningAffinity.K self) HK)
    as (minK & idx & sigma & Hkmin & Hsel & _).
  rewrite (self_tuning_fit_unfold _ _ Hkmin Hsel) in Hfit. cbv zeta in Hfit.
  destruct (SelfTuningAffinity.normalization_dim self) eqn:Hdim;
    injection Hfit as <- <-; cbn; repeat split; try discriminate; auto.
  exists sigma. split; reflexivity.
Qed.

(** X2.  Fitting again, from the instance a fit returned and on the same
    data, returns the same matrix and the same instance: a fit reads the
    configuration only, never the fitted attributes. *)
Theorem refit_is_idempotent
  (st st' : SelfTuningAffinity.t) (mg mg' : MAGICAffinity.t)
  (X : list sample) (logP P : tensor) :
  SelfTuningAffinity._compute_log_affinity pairwise_distance st X
  = inr (logP, st') ->
  MAGICAffinity._compute_affinity pairwise_distance mg X = inr (P, mg') ->
  SelfTuningAffinity._compute_log_affinity pairwise_distance st' X
  = inr (logP, st') /\
  MAGICAffinity._compute_affinity pairwise_distance mg' X = inr (P, mg').
Proof.
  intros Hst Hmg. split.
  - pose proof (self_tuning_fit_inr _ _ _ Hst) as HK.
    destruct (@kmin_bandwidth (distance_matrix (SelfTuningAffinity.base st) X)
                (SelfTuningAffinity.K st) HK)
      as (minK & idx & sigma & Hkmin & Hsel & _).
    rewrite (self_tuning_fit_unfold _ _ Hkmin Hsel) in Hst. cbv zeta in Hst.
    destruct (SelfTuningAffinity.normalization_dim st) eqn:Hdim;
      injection Hst as <- <-;
      (erewrite self_tuning_fit_unfold; [| exact Hkmin | exact Hsel]);
      cbn [SelfTuningAffinity.base SelfTuningAffinity.K
           SelfTuningAffinity.normalization_dim SelfTuningAffinity.sigma_
           SelfTuningAffinity.log_normalization_];
      cbv zeta; rewrite ?Hdim; reflexivity.
  - pose proof (magic_fit_inr _ _ _ Hmg) as HK.
    destruct (@kmin_bandwidth (distance_matrix (MAGICAffinity.base mg) X)
                (MAGICAffinity.K mg) HK)
      as (minK & idx & sigma & Hkmin & Hsel & _).
    rewrite (magic_fit_unfold _ _ Hkmin Hsel) in Hmg. cbv zeta in Hmg.
    injection Hmg as <- <-.
    erewrite magic_fit_unfold; [| exact Hkmin | exact Hsel]. reflexivity.
Qed.

End FitState.

(* ================================================================== *)
(** * Shapes, normalization along one axis, symmetry *)
(* ================================================================== *)

Section SelfTuningAxes.

Import XRealFacts Spec SortFacts TensorFacts MagicFacts SelfTuningFacts.
Local Open Scope R_scope.

Variable sample : Type.
Variable pairwise_distance : string -> sample -> sample -> xreal.

#[local] Abbreviation distance_matrix self X :=
  (fst (Affinity._distance_matrix pairwise_distance self X)).

(** The shape of a normalised log-affinity, and its entries. *)
Lemma normalized_shape (raw : tensor) (dim : axes) (n : nat) :
  nrows raw = n -> ncols raw = n ->
  nrows (tsub raw (logsumexp_red raw dim)) = n /\
  ncols (tsub raw (logsumexp_red raw dim)) = n.
Proof.
  intros Hr Hc. unfold tsub, broadcast, logsumexp_red.
  destruct dim as [[|]|]; cbn [nrows ncols]; rewrite Hr, Hc;
    now autorewrite with shape.
Qed.

Lemma normalized_entry (raw : tensor) (dim : axes) (n i j : nat) :
  nrows raw = n -> ncols raw = n -> (i < n)%nat -> (j < n)%nat ->
  entry (tsub raw (logsumexp_red raw dim)) i j
  = xsub (entry raw i j)
      (xlog (xsum (map xexp
         match dim with
         | Dim Axis1 => row raw i
         | Dim Axis0 => col raw j
         | Dim01 => entries raw
         end))).
Proof.
  intros Hr Hc Hi Hj. unfold tsub, broadcast, logsumexp_red.
  destruct dim as [[|]|]; cbn [nrows ncols entry]; rewrite Hr, Hc;
    autorewrite with shape; now repeat rewrite bidx_lt by lia.
Qed.

Lemma normalized_line (raw : tensor) (a : axis) (n k : nat) :
  nrows raw = n -> ncols raw = n -> (k < n)%nat ->
  line a (tsub raw (logsumexp_red raw (Dim a))) k
  = map (fun x => xsub x (xlog (xsum (map xexp (line a raw k)))))
        (line a raw k).
Proof.
  intros Hr Hc Hk.
  destruct (normalized_shape raw (Dim a) Hr Hc) as [Hr' Hc'].
  destruct a; unfold line.
  - unfold col. rewrite Hr', Hr, map_map. apply map_ext_in.
    intros i Hi. apply in_seq in Hi.
    rewrite (@normalized_entry raw (Dim Axis0) n i k) by (assumption || lia).
    unfold col. now rewrite Hr.
  - unfold row. rewrite Hc', Hc, map_map. apply map_ext_in.
    intros j Hj. apply in_seq in Hj.
    rewrite (@normalized_entry raw (Dim Axis1) n k j) by (assumption || lia).
    unfold row. now rewrite Hc.
Qed.

(** X3.  Both fits with [1 <= K <= n] return an [n x n] matrix, under every
    normalization of the self-tuning variant, and store a bandwidth vector
    of length [n]. *)
Theorem fit_shapes
  (st : SelfTuningAffinity.t) (mg : MAGICAffinity.t) (X : list sample) :
  (1 <= SelfTuningAffinity.K st <= Z.of_nat (List.length X))%Z ->
  (1 <= MAGICAffinity.K mg <= Z.of_nat (List.length X))%Z ->
  (exists logP st' sigma,
     SelfTuningAffinity._compute_log_affinity pairwise_distance st X
     = inr (logP, st') /\
     SelfTuningAffinity.sigma_ st' = Some sigma /\
     vlen sigma = List.length X /\
     nrows logP = List.length X /\ ncols logP = List.length X) /\
  (exists P mg' sigma,
     MAGICAffinity._compute_affinity pairwise_distance mg X = inr (P, mg') /\
     MAGICAffinity.sigma_ mg' = Some sigma /\
     vlen sigma = List.length X /\
     nrows P = List.length X /\ ncols P = List.length X).
Proof.
  intros Hst Hmg. split.
  - destruct (self_tuning_fit_returns pairwise_distance st X Hst)
      as (sigma & Hlen & _ & E).
    destruct (@log_SelfTuning_shape
                (distance_matrix (SelfTuningAffinity.base st) X) sigma)
      as [Hr Hc]; try (rewrite Hlen; reflexivity).
    rewrite Hlen in Hr, Hc.
    rewrite E. cbv zeta.
    destruct (SelfTuningAffinity.normalization_dim st) as [dim|];
      do 2 eexists; exists sigma;
      (split; [reflexivity|]); (split; [reflexivity|]);
      (split; [exact Hlen|]).
    + now apply normalized_shape.
    + now split.
  - destruct (magic_fit_returns pairwise_distance mg X Hmg)
      as (sigma & Hlen & _ & E).
    rewrite E. cbv zeta. do 2 eexists. exists sigma.
    split; [reflexivity|]. split; [reflexivity|]. split; [exact Hlen|].
    rewrite <- Hlen. apply P_shape; rewrite Hlen; reflexivity.
Qed.

(** X4.  With [normalization_dim] a single axis, the exponentials of the
    result sum to one along that axis: over every row for axis 1, over
    every column for axis 0.  This holds for a line that has a distance
    that is a real number, when every bandwidth is a positive real number
    and every distance a real number or [+inf]. *)
Theorem axis_normalization_sums_to_one
  (self : SelfTuningAffinity.t) (X : list sample) (a : axis) :
  SelfTuningAffinity.normalization_dim self = Some (Dim a) ->
  (1 <= SelfTuningAffinity.K self <= Z.of_nat (List.length X))%Z ->
  exists logP self' sigma,
    SelfTuningAffinity._compute_log_affinity pairwise_distance self X
    = inr (logP, self') /\
    SelfTuningAffinity.sigma_ self' = Some sigma /\
    let C := distance_matrix (SelfTuningAffinity.base self) X in
    ((forall i, (i < List.length X)%nat -> positive (item sigma i)) ->
     (forall i j, (i < List.length X)%nat -> (j < List.length X)%nat ->
        distance_value (entry C i j)) ->
     forall k, (k < List.length X)%nat ->
       Exists (fun x => is_finite x = true) (line a C k) ->
       xsum (map xexp (line a logP k)) = Fin 1).
Proof.
  intros Hdim HK.
  destruct (self_tuning_fit_returns pairwise_distance self X HK)
    as (sigma & Hlen & _ & E).
  rewrite E, Hdim. cbv zeta. do 2 eexists. exists sigma.
  split; [reflexivity|]. split; [reflexivity|].
  intros Hpos Hdist k Hk Hex.
  set (C := distance_matrix (SelfTuningAffinity.base self) X) in *.
  set (raw := _log_SelfTuning C sigma).
  destruct (@log_SelfTuning_shape C sigma) as [Hr Hc];
    try (rewrite Hlen; reflexivity).
  fold raw in Hr, Hc. rewrite Hlen in Hr, Hc.
  rewrite (normalized_line raw a Hr Hc Hk), map_map.
  pose proof (raw_log_weights pairwise_distance
                (SelfTuningAffinity.base self) X sigma Hlen Hpos Hdist)
    as Hw. fold C raw in Hw. cbv zeta in Hw.
  apply logsumexp_normalized.
  - apply Forall_forall. intros x Hx.
    destruct a; unfold line in Hx.
    + apply col_In in Hx. destruct Hx as (i & Hi & ->).
      rewrite Hr in Hi. now apply Hw.
    + apply row_In in Hx. destruct Hx as (j & Hj & ->).
      rewrite Hc in Hj. now apply Hw.
  - apply Exists_exists in Hex. destruct Hex as (x & Hx & Hfin).
    apply Exists_exists.
    destruct a; unfold line in *.
    + apply col_In in Hx. destruct Hx as (i & Hi & ->).
      exists (entry raw i k). split.
      * apply col_In. exists i. now rewrite Hr.
      * now apply Hw.
    + apply row_In in Hx. destruct Hx as (j & Hj & ->).
      exists (entry raw k j). split.
      * apply row_In. exists j. now rewrite Hc.
      * now apply Hw.
Qed.

End SelfTuningAxes.

Section SelfTuningSymmetry.

Import XRealFacts Spec SortFacts TensorFacts MagicFacts SelfTuningFacts.
Local Open Scope R_scope.

Variable sample : Type.
Variable pairwise_distance : string -> sample -> sample -> xreal.

#[local] Abbreviation distance_matrix self X :=
  (fst (Affinity._distance_matrix pairwise_distance self X)).

(** The kernel of a symmetric matrix is symmetric, and its rows are its
    columns. *)
Lemma raw_symmetric (C : tensor) (sigma : vector) (i j : nat) :
  nrows C = vlen sigma -> ncols C = vlen sigma ->
  (i < vlen sigma)%nat -> (j < vlen sigma)%nat ->
  entry C i j = entry C j i ->
  entry (_log_SelfTuning C sigma) i j = entry (_log_SelfTuning C sigma) j i.
Proof.
  intros Hr Hc Hi Hj Hsym.
  rewrite !log_SelfTuning_entry by assumption.
  now rewrite Hsym, xmul_comm.
Qed.

Lemma raw_row_is_col (C : tensor) (sigma : vector) (k : nat) :
  nrows C = vlen sigma -> ncols C = vlen sigma ->
  (forall i j, (i < vlen sigma)%nat -> (j < vlen sigma)%nat ->
     entry C i j = entry C j i) ->
  (k < vlen sigma)%nat ->
  row (_log_SelfTuning C sigma) k = col (_log_SelfTuning C sigma) k.
Proof.
  intros Hr Hc Hsym Hk.
  destruct (log_SelfTuning_shape C sigma Hr Hc) as [Hr' Hc'].
  unfold row, col. rewrite Hr', Hc'. apply map_ext_in.
  intros j Hj. apply in_seq in Hj.
  apply raw_symmetric; try assumption; try lia. apply Hsym; lia.
Qed.

(** X5.  On symmetric distances the self-tuning log-affinity is symmetric
    when it is not normalised or normalised jointly over both axes. *)
Theorem symmetric_log_affinity
  (self : SelfTuningAffinity.t) (X : list sample) :
  SelfTuningAffinity.normalization_dim self = None \/
  SelfTuningAffinity.normalization_dim self = Some Dim01 ->
  (1 <= SelfTuningAffinity.K self <= Z.of_nat (List.length X))%Z ->
  exists logP self',
    SelfTuningAffinity._compute_log_affinity pairwise_distance self X
    = inr (logP, self') /\
    let C := distance_matrix (SelfTuningAffinity.base self) X in
    ((forall i j, (i < List.length X)%nat -> (j < List.length X)%nat ->
        entry C i j = entry C j i) ->
     forall i j, (i < List.length X)%nat -> (j < List.length X)%nat ->
       entry logP i j = entry logP j i).
Proof.
  intros Hdim HK.
  destruct (self_tuning_fit_returns pairwise_distance self X HK)
    as (sigma & Hlen & _ & E).
  set (C := distance_matrix (SelfTuningAffinity.base self) X) in *.
  assert (Hr : nrows C = vlen sigma) by (rewrite Hlen; reflexivity).
  assert (Hc : ncols C = vlen sigma) by (rewrite Hlen; reflexivity).
  destruct (log_SelfTuning_shape C sigma Hr Hc) as [Hr' Hc'].
  rewrite Hlen in Hr', Hc'.
  rewrite E. cbv zeta.
  destruct Hdim as [-> | ->]; do 2 eexists; (split; [reflexivity|]);
    intros Hsym i j Hi Hj.
  - apply raw_symmetric; rewrite ?Hlen; auto.
  - rewrite !(@normalized_entry _ Dim01 (List.length X)) by assumption.
    f_equal. apply raw_symmetric; rewrite ?Hlen; auto.
Qed.

(** X6.  On symmetric distances, normalising over axis 0 and normalising
    over axis 1 give matrices that are transposes of each other. *)
Theorem row_column_duality
  (st0 st1 : SelfTuningAffinity.t) (X : list sample) :
  SelfTuningAffinity.base st0 = SelfTuningAffinity.base st1 ->
  SelfTuningAffinity.K st0 = SelfTuningAffinity.K st1 ->
  SelfTuningAffinity.normalization_dim st0 = Some (Dim Axis0) ->
  SelfTuningAffinity.normalization_dim st1 = Some (Dim Axis1) ->
  (1 <= SelfTuningAffinity.K st1 <= Z.of_nat (List.length X))%Z ->
  exists logP0 st0' logP1 st1',
    SelfTuningAffinity._compute_log_affinity pairwise_distance st0 X
    = inr (logP0, st0') /\
    SelfTuningAffinity._compute_log_affinity pairwise_distance st1 X
    = inr (logP1, st1') /\
    let C := distance_matrix (SelfTuningAffinity.base st1) X in
    ((forall i j, (i < List.length X)%nat -> (j < List.length X)%nat ->
        entry C i j = entry C j i) ->
     forall i j, (i < List.length X)%nat -> (j < List.length X)%nat ->
       entry logP0 i j = entry (matrix_transpose logP1) i j).
Proof.
  intros Hbase HKeq Hd0 Hd1 HK.
  destruct (@kmin_bandwidth (distance_matrix (SelfTuningAffinity.base st1) X)
              (SelfTuningAffinity.K st1) HK)
    as (minK & idx & sigma & Hkmin & Hsel & Hlen & _).
  change (nrows (distance_matrix (SelfTuningAffinity.base st1) X))
    with (List.length X) in Hlen.
  rewrite (self_tuning_fit_unfold pairwise_distance st1 X Hkmin Hsel).
  rewrite <- Hbase, <- HKeq in Hkmin.
  rewrite (self_tuning_fit_unfold pairwise_distance st0 X Hkmin Hsel).
  rewrite Hd0, Hd1, Hbase. cbv zeta.
  do 4 eexists. split; [reflexivity|]. split; [reflexivity|].
  intros Hsym i j Hi Hj.
  set (C := distance_matrix (SelfTuningAffinity.base st1) X) in *.
  assert (Hr : nrows C = vlen sigma) by (rewrite Hlen; reflexivity).
  assert (Hc : ncols C = vlen sigma) by (rewrite Hlen; reflexivity).
  destruct (log_SelfTuning_shape C sigma Hr Hc) as [Hr' Hc'].
  rewrite Hlen in Hr', Hc'.
  cbn [matrix_transpose entry].
  rewrite (@normalized_entry _ (Dim Axis0) (List.length X)) by assumption.
  rewrite (@normalized_entry _ (Dim Axis1) (List.length X)) by assumption.
  rewrite (@raw_row_is_col C sigma j) by (rewrite ?Hlen; auto).
  f_equal. apply raw_symmetric; rewrite ?Hlen; auto.
Qed.

End SelfTuningSymmetry.

(* ================================================================== *)
(** * The MAGIC affinity as a Markov transition matrix *)
(* ================================================================== *)

Module MarkovFacts.

Import XRealFacts Spec TensorFacts MagicFacts.
Local Open Scope R_scope.

Lemma xadd_comm (x y : xreal) : xadd x y = xadd y x.
Proof.
  destruct x, y; simpl; try reflexivity. f_equal. apply Rplus_comm.
Qed.

Lemma symmetrize_symmetric (T : tensor) (i j : nat) :
  entry (symmetrize T) i j = entry (symmetrize T) j i.
Proof. unfold symmetrize. cbn [entry]. now rewrite xadd_comm. Qed.

Lemma div_in_unit (w s : R) : 0 <= w <= s -> 0 < s -> 0 <= w / s <= 1.
Proof.
  intros [Hw Hle] Hs. split.
  - unfold Rdiv. apply Rmult_le_pos; [exact Hw|].
    left. now apply Rinv_0_lt_compat.
  - apply (Rmult_le_reg_r s); [exact Hs|].
    unfold Rdiv. rewrite Rmult_assoc, Rinv_l by lra. lra.
Qed.

(** A term of a sum of non-negative real numbers is at most the sum. *)
Lemma term_le_sum (l : list R) (a : R) :
  Forall (fun x => 0 <= x) l -> In a l -> a <= fold_right Rplus 0 l.
Proof.
  induction 1 as [|x l Hx Hl IH]; intros Hin; [easy|].
  pose proof (fold_right_Rplus_nonneg Hl).
  destruct Hin as [-> | Hin]; simpl; [lra|].
  specialize (IH Hin). lra.
Qed.

(** A list of non-negative real numbers, one of them positive: the sum is a
    positive real number that bounds every term. *)
Lemma xsum_bounds (l : list xreal) :
  Forall (fun x => exists w, x = Fin w /\ 0 <= w) l ->
  Exists (fun x => exists w, x = Fin w /\ 0 < w) l ->
  exists s, xsum l = Fin s /\ 0 < s /\
            forall w, In (Fin w) l -> 0 <= w <= s.
Proof.
  intros Hall Hex.
  assert (Hws : exists ws, l = map Fin ws /\ Forall (fun w => 0 <= w) ws).
  { clear Hex. induction Hall as [|y l (w & -> & Hw) _ (ws & -> & IH)].
    - now exists [].
    - exists (w :: ws). split; [easy | now constructor]. }
  destruct Hws as (ws & -> & Hnn).
  assert (Hpos : Exists (fun w => 0 < w) ws).
  { apply Exists_exists in Hex. destruct Hex as (x & Hx & w & -> & Hw).
    apply in_map_iff in Hx. destruct Hx as (w' & [= ->] & Hin).
    apply Exists_exists. eauto. }
  rewrite xsum_map_Fin. eexists. split; [reflexivity|].
  split; [now apply fold_right_Rplus_pos|].
  intros w Hin. apply in_map_iff in Hin. destruct Hin as (w' & [= ->] & Hin).
  split; [|now apply term_le_sum].
  rewrite Forall_forall in Hnn. now apply Hnn.
Qed.

Section Kernel.

Variable C : tensor.
Variable sigma : vector.
Hypothesis Hrows : nrows C = vlen sigma.
Hypothesis Hcols : ncols C = vlen sigma.
Hypothesis Hpos : forall i, (i < vlen sigma)%nat -> positive (item sigma i).
Hypothesis Hdist : forall i j, (i < vlen sigma)%nat -> (j < vlen sigma)%nat ->
  distance_value (entry C i j).

Lemma kernel_weight (i j : nat) :
  (i < vlen sigma)%nat -> (j < vlen sigma)%nat ->
  exists a, entry (magic_kernel C sigma) i j = Fin a /\ 0 <= a /\
            (is_finite (entry C i j) = true -> 0 < a).
Proof.
  intros Hi Hj. destruct (Hpos Hi) as (s & Es & Hs).
  unfold magic_kernel. cbn [entry]. rewrite Es.
  destruct (Hdist Hi Hj) as [-> | (c & ->)].
  - cbn. rewrite Rltb_pos by lra. cbn.
    exists 0. repeat split; (lra || discriminate).
  - cbn [xneg]. rewrite xdiv_Fin by lra. cbn.
    pose proof (exp_pos (- c / s)).
    exists (exp (- c / s)). repeat split; (lra || auto).
Qed.

Lemma symmetrized_weight (i j : nat) :
  (i < vlen sigma)%nat -> (j < vlen sigma)%nat ->
  exists w, entry (symmetrize (magic_kernel C sigma)) i j = Fin w /\ 0 <= w /\
            (is_finite (entry C i j) = true -> 0 < w).
Proof.
  intros Hi Hj.
  destruct (kernel_weight Hi Hj) as (a & Ea & Ha0 & Ha).
  destruct (kernel_weight Hj Hi) as (b & Eb & Hb0 & _).
  unfold symmetrize. cbn [entry]. rewrite Ea, Eb. cbn [xadd].
  rewrite xdiv_Fin by lra. exists ((a + b) / 2). repeat split; [lra|].
  intros Hfin. specialize (Ha Hfin). lra.
Qed.

(** With a real distance in row [i], that row of the result holds
    probabilities that sum to one. *)
Lemma stochastic_row (i : nat) :
  (i < vlen sigma)%nat ->
  Exists (fun x => is_finite x = true) (row C i) ->
  let A := texp (_log_MAGIC C sigma) in
  let S := tdiv_scalar (tadd A (matrix_transpose A)) 2 in
  let P := tdiv S (sum_red S Axis1) in
  xsum (row P i) = Fin 1 /\
  forall j, (j < vlen sigma)%nat -> probability (entry P i j).
Proof.
  intros Hi Hex A S P.
  destruct (normalize_step C sigma Hrows Hcols) as (_ & _ & He).
  destruct (symmetrize_step C sigma Hrows Hcols) as (_ & _ & HeS).
  destruct (S_shape C sigma Hrows Hcols) as (HrS & HcS).
  destruct (P_shape C sigma Hrows Hcols) as (HrP & HcP).
  fold A S P in He, HrP, HcP. fold A S in HeS, HrS, HcS.
  set (T := symmetrize (magic_kernel C sigma)) in *.
  assert (ES : row S i = row T i).
  { apply row_ext; [now rewrite HcS|].
    intros j Hj. apply HeS; rewrite ?HrS; [exact Hi | exact Hj]. }
  destruct (@xsum_bounds (row T i)) as (s & Es & Hs & Hbound).
  { apply Forall_forall. intros x Hx. apply row_In in Hx.
    destruct Hx as (j & Hj & ->). cbn in Hj. rewrite Hcols in Hj.
    destruct (symmetrized_weight Hi Hj) as (w & Ew & Hw & _). eauto. }
  { apply Exists_exists in Hex. destruct Hex as (x & Hx & Hfin).
    apply row_In in Hx. destruct Hx as (j & Hj & ->). rewrite Hcols in Hj.
    apply Exists_exists. exists (entry T i j). split.
    - apply row_In. exists j. cbn. now rewrite Hcols.
    - destruct (symmetrized_weight Hi Hj) as (w & Ew & _ & Hw). eauto. }
  split.
  - unfold P, S, A. rewrite normalized_row by assumption.
    fold A S. rewrite ES, Es. apply normalized_sum; [exact Es | lra].
  - intros j Hj. rewrite He by (rewrite ?HrP, ?HcP; assumption).
    unfold row_normalize. cbn [entry]. fold T. rewrite Es.
    destruct (symmetrized_weight Hi Hj) as (w & Ew & Hw & _).
    fold T in Ew. rewrite Ew, xdiv_Fin by lra.
    destruct (Hbound w) as [_ Hle].
    { rewrite <- Ew. apply row_In. exists j. cbn. now rewrite Hcols. }
    exists (w / s). split; [reflexivity|]. apply div_in_unit; lra.
Qed.

End Kernel.

End MarkovFacts.

Section MagicMarkov.

Import XRealFacts Spec TensorFacts MagicFacts MarkovFacts.
Local Open Scope R_scope.

Variable sample : Type.
Variable pairwise_distance : string -> sample -> sample -> xreal.

#[local] Abbreviation distance_matrix self X :=
  (fst (Affinity._distance_matrix pairwise_distance self X)).

(** X7.  The result of a MAGIC fit is row-stochastic: when every bandwidth
    is a positive real number and every distance a real number or [+inf],
    each row that has a real distance holds real numbers between 0 and 1
    that sum to one. *)
Theorem magic_is_row_stochastic (self : MAGICAffinity.t) (X : list sample) :
  (1 <= MAGICAffinity.K self <= Z.of_nat (List.length X))%Z ->
  exists P self' sigma,
    MAGICAffinity._compute_affinity pairwise_distance self X = inr (P, self') /\
    MAGICAffinity.sigma_ self' = Some sigma /\
    let C := distance_matrix (MAGICAffinity.base self) X in
    ((forall i, (i < List.length X)%nat -> positive (item sigma i)) ->
     (forall i j, (i < List.length X)%nat -> (j < List.length X)%nat ->
        distance_value (entry C i j)) ->
     forall i, (i < List.length X)%nat ->
       Exists (fun x => is_finite x = true) (row C i) ->
       xsum (row P i) = Fin 1 /\
       forall j, (j < List.length X)%nat -> probability (entry P i j)).
Proof.
  intros HK.
  destruct (magic_fit_returns pairwise_distance self X HK)
    as (sigma & Hlen & _ & E).
  rewrite E. cbv zeta. do 2 eexists. exists sigma.
  split; [reflexivity|]. split; [reflexivity|].
  intros Hpos Hdist i Hi Hex. rewrite <- Hlen in *.
  apply stochastic_row; auto; rewrite Hlen; reflexivity.
Qed.

(** X8.  The result of a MAGIC fit satisfies detailed balance with respect
    to the row sums [r] of the symmetrised matrix: [r_i P[i,j] = r_j P[j,i]]
    for rows whose sums are positive real numbers.  The Markov chain it
    defines is reversible, although the matrix is not symmetric. *)
Theorem magic_detailed_balance
  (self self' : MAGICAffinity.t) (X : list sample) (P : tensor)
  (sigma : vector) (i j : nat) (ri rj : R) :
  MAGICAffinity._compute_affinity pairwise_distance self X = inr (P, self') ->
  MAGICAffinity.sigma_ self' = Some sigma ->
  (i < List.length X)%nat -> (j < List.length X)%nat ->
  (let C := distance_matrix (MAGICAffinity.base self) X in
   let A := texp (_log_MAGIC C sigma) in
   let S := tdiv_scalar (tadd A (matrix_transpose A)) 2 in
   entry (sum_red S Axis1) i 0 = Fin ri /\
   entry (sum_red S Axis1) j 0 = Fin rj) ->
  0 < ri -> 0 < rj ->
  xmul (Fin ri) (entry P i j) = xmul (Fin rj) (entry P j i).
Proof.
  intros Hfit Hsigma Hi Hj Hsums Hri Hrj.
  destruct (magic_fit_result pairwise_distance _ _ Hfit)
    as (sigma0 & Hs0 & Hlen & _ & ->).
  rewrite Hs0 in Hsigma. injection Hsigma as ->.
  cbv zeta in *. cbn [sum_red entry] in Hsums. destruct Hsums as [Hsi Hsj].
  set (C := distance_matrix (MAGICAffinity.base self) X) in *.
  assert (Hr : nrows C = vlen sigma) by (rewrite Hlen; reflexivity).
  assert (Hc : ncols C = vlen sigma) by (rewrite Hlen; reflexivity).
  destruct (symmetrize_step C sigma Hr Hc) as (_ & _ & HeS).
  destruct (S_shape C sigma Hr Hc) as (HrS & HcS). cbv zeta in *.
  rewrite !P_entry by first [assumption | rewrite Hlen; assumption].
  rewrite Hsi, Hsj.
  set (S := tdiv_scalar _ 2) in *.
  assert (Hsym : entry S i j = entry S j i).
  { rewrite !HeS by (rewrite ?HrS, ?HcS, ?Hlen; assumption).
    apply symmetrize_symmetric. }
  assert (Hfin : exists a, entry S i j = Fin a).
  { destruct (xsum_Fin_inv _ Hsi) as (rs & Erow & _).
    assert (Hin : In (entry S i j) (row S i)).
    { apply row_In. exists j. rewrite HcS, Hlen. easy. }
    rewrite Erow in Hin. apply in_map_iff in Hin.
    destruct Hin as (a & <- & _). eauto. }
  destruct Hfin as (a & Ea). rewrite <- Hsym, Ea.
  rewrite !xdiv_Fin by lra. cbn [xmul]. f_equal. field. lra.
Qed.

End MagicMarkov.

Section KernelBounds.

Import XRealFacts Spec TensorFacts.
Local Open Scope R_scope.

Lemma exp_nonpos_le_one (r : R) : r <= 0 -> 0 < exp r <= 1.
Proof.
  intros Hr. split; [apply exp_pos|].
  destruct Hr as [Hr | ->]; [|rewrite exp_0; lra].
  left. rewrite <- exp_0. now apply exp_increasing.
Qed.

(** X9.  For a non-negative real distance and positive bandwidths, the
    exponential of an entry of either kernel is a real number between 0 and
    1, and it is 1 at distance zero. *)
Theorem kernel_weights_in_unit_interval
  (C : tensor) (sigma : vector) (i j : nat) (c : R) :
  nrows C = vlen sigma -> ncols C = vlen sigma ->
  (i < vlen sigma)%nat -> (j < vlen sigma)%nat ->
  positive (item sigma i) -> positive (item sigma j) ->
  entry C i j = Fin c -> 0 <= c ->
  (probability (xexp (entry (_log_SelfTuning C sigma) i j)) /\
   (c = 0 -> xexp (entry (_log_SelfTuning C sigma) i j) = Fin 1)) /\
  (probability (xexp (entry (_log_MAGIC C sigma) i j)) /\
   (c = 0 -> xexp (entry (_log_MAGIC C sigma) i j) = Fin 1)).
Proof.
  intros Hr Hc Hi Hj (si & Ei & Hsi) (sj & Ej & Hsj) Ec Hc0.
  assert (Hj' : (j < ncols C)%nat) by (rewrite Hc; exact Hj).
  rewrite log_SelfTuning_entry, log_MAGIC_entry by assumption.
  rewrite Ec, Ei, Ej. cbn [xneg xmul].
  pose proof (Rmult_lt_0_compat _ _ Hsi Hsj) as Hprod.
  rewrite !xdiv_Fin by lra. cbn [xexp].
  assert (Hdiv : forall s, 0 < s -> - c / s <= 0 /\ (c = 0 -> - c / s = 0)).
  { intros s Hs. pose proof (Rinv_0_lt_compat s Hs) as Hinv.
    unfold Rdiv. split.
    - assert (0 <= c * / s) by (apply Rmult_le_pos; lra). lra.
    - intros ->. lra. }
  split.
  - destruct (Hdiv (si * sj) Hprod) as (Hle & H0).
    pose proof (exp_nonpos_le_one Hle) as Hexp. split.
    + eexists. split; [reflexivity | lra].
    + intros Hz. rewrite (H0 Hz). now rewrite exp_0.
  - destruct (Hdiv si Hsi) as (Hle & H0).
    pose proof (exp_nonpos_le_one Hle) as Hexp. split.
    + eexists. split; [reflexivity | lra].
    + intros Hz. rewrite (H0 Hz). now rewrite exp_0.
Qed.

End KernelBounds.

(* ================================================================== *)
(** * Changing the unit of the distances *)
(* ================================================================== *)

Module ScaleFacts.

Import XRealFacts Spec SortFacts TensorFacts.
Local Open Scope R_scope.

Section Scale.

Variable c : R.
Hypothesis Hc : 0 < c.

Lemma scaled_Fin (a : R) : scaled c (Fin a) = Fin (c * a).
Proof. reflexivity. Qed.

Lemma scaled_PInf : scaled c PInf = PInf.
Proof. unfold scaled. cbn. now rewrite Reqb_pos, Rltb_pos by lra. Qed.

Lemma scaled_NInf : scaled c NInf = NInf.
Proof. unfold scaled. cbn. now rewrite Reqb_pos, Rltb_pos by lra. Qed.

Lemma scaled_NaN : scaled c NaN = NaN.
Proof. reflexivity. Qed.

Lemma Rleb_scaled (a b : R) : Rleb (c * a) (c * b) = Rleb a b.
Proof.
  destruct (Rle_dec a b) as [H|H].
  - rewrite (proj2 (Rleb_true a b)) by easy. apply Rleb_true. nra.
  - rewrite (proj2 (Rleb_false a b)) by lra. apply Rleb_false. nra.
Qed.

(** Scaling by a positive factor keeps the order. *)
Lemma scaled_xleb (x y : xreal) : xleb (scaled c x) (scaled c y) = xleb x y.
Proof.
  destruct x, y;
    rewrite ?scaled_Fin, ?scaled_PInf, ?scaled_NInf, ?scaled_NaN; cbn;
    try reflexivity.
  apply Rleb_scaled.
Qed.

Lemma count_map (p : xreal -> bool) (f : xreal -> xreal) (l : list xreal) :
  List.length (filter p (map f l))
  = List.length (filter (fun x => p (f x)) l).
Proof.
  induction l as [|x l IH]; simpl; [easy|].
  destruct (p (f x)); simpl; congruence.
Qed.

(** The [k]-th smallest entry of a scaled list is the scaled [k]-th
    smallest entry. *)
Lemma kth_smallest_scaled (l : list xreal) (k : nat) (v : xreal) :
  kth_smallest l k v -> kth_smallest (map (scaled c) l) k (scaled c v).
Proof.
  intros (Hin & Hlt & Hle). unfold kth_smallest, count_lt, count_le in *.
  rewrite !count_map. split; [now apply in_map|].
  rewrite (filter_ext (fun x => xltb (scaled c x) (scaled c v))
                      (fun x => xltb x v))
    by (intros x; unfold xltb; now rewrite scaled_xleb).
  rewrite (filter_ext (fun x => xleb (scaled c x) (scaled c v))
                      (fun x => xleb x v))
    by (intros x; now rewrite scaled_xleb).
  now split.
Qed.

(** The MAGIC kernel does not see the factor. *)
Lemma scaled_quotient (x s : xreal) :
  xdiv (xneg (scaled c x)) (scaled c s) = xdiv (xneg x) s.
Proof.
  destruct x as [a| | |], s as [b| | |];
    rewrite ?scaled_Fin, ?scaled_PInf, ?scaled_NInf, ?scaled_NaN;
    cbn [xneg xdiv]; try reflexivity.
  - destruct (Req_dec_T b 0) as [-> | Hb].
    + rewrite Rmult_0_r, !Reqb_refl.
      destruct (Req_dec_T a 0) as [-> | Ha].
      * rewrite Rmult_0_r, Ropp_0, !Reqb_refl. reflexivity.
      * rewrite (proj2 (Reqb_false (- (c * a)) 0)) by nra.
        rewrite (proj2 (Reqb_false (- a) 0)) by lra.
        f_equal. destruct (Rlt_dec (- a) 0) as [H|H].
        -- rewrite (proj2 (Rltb_true (- a) 0)) by easy.
           apply Rltb_true. nra.
        -- rewrite (proj2 (Rltb_false (- a) 0)) by lra.
           apply Rltb_false. nra.
    + rewrite (proj2 (Reqb_false (c * b) 0)) by nra.
      rewrite (proj2 (Reqb_false b 0)) by easy.
      f_equal. field. split; lra.
  - f_equal. destruct (Rlt_dec b 0) as [H|H].
    + rewrite (proj2 (Rltb_true b 0)) by easy.
      rewrite (proj2 (Rltb_true (c * b) 0)) by nra. reflexivity.
    + rewrite (proj2 (Rltb_false b 0)) by lra.
      rewrite (proj2 (Rltb_false (c * b) 0)) by nra. reflexivity.
  - f_equal. destruct (Rlt_dec b 0) as [H|H].
    + rewrite (proj2 (Rltb_true b 0)) by easy.
      rewrite (proj2 (Rltb_true (c * b) 0)) by nra. reflexivity.
    + rewrite (proj2 (Rltb_false b 0)) by lra.
      rewrite (proj2 (Rltb_false (c * b) 0)) by nra. reflexivity.
Qed.

End Scale.

End ScaleFacts.

Section ScaleInvariance.

Import XRealFacts Spec SortFacts TensorFacts MagicFacts ScaleFacts.
Local Open Scope R_scope.

Variable sample : Type.
Variables pairwise_distance rescaled_distance :
  string -> sample -> sample -> xreal.
Variable c : R.
Hypothesis Hc : 0 < c.
Hypothesis Hscaled : forall metric x y,
  rescaled_distance metric x y = scaled c (pairwise_distance metric x y).

Lemma rescaled_entry (self : Affinity.t) (X : list sample) (i j : nat) :
  entry (fst (Affinity._distance_matrix rescaled_distance self X)) i j
  = scaled c
      (entry (fst (Affinity._distance_matrix pairwise_distance self X)) i j).
Proof.
  cbn [Affinity._distance_matrix fst entry].
  destruct (Affinity.zero_diag self && (i =? j)%nat)%bool;
    [now rewrite scaled_PInf|].
  destruct (nth_error X i), (nth_error X j); auto using scaled_NaN.
Qed.

Lemma rescaled_row (self : Affinity.t) (X : list sample) (i : nat) :
  row (fst (Affinity._distance_matrix rescaled_distance self X)) i
  = map (scaled c)
      (row (fst (Affinity._distance_matrix pairwise_distance self X)) i).
Proof.
  unfold row. rewrite map_map. cbn [Affinity._distance_matrix fst ncols].
  apply map_ext. intros j. apply rescaled_entry.
Qed.

(** X10.  The result of a MAGIC fit does not depend on the unit of the
    distances: when every distance is multiplied by the same positive
    factor, the bandwidths are multiplied by it and the affinity matrix is
    the same, entry by entry. *)
Theorem magic_scale_invariant (self : MAGICAffinity.t) (X : list sample) :
  (1 <= MAGICAffinity.K self <= Z.of_nat (List.length X))%Z ->
  exists P self1 sigma P' self2 sigma',
    MAGICAffinity._compute_affinity pairwise_distance self X
    = inr (P, self1) /\
    MAGICAffinity._compute_affinity rescaled_distance self X
    = inr (P', self2) /\
    MAGICAffinity.sigma_ self1 = Some sigma /\
    MAGICAffinity.sigma_ self2 = Some sigma' /\
    (forall i, item sigma' i = scaled c (item sigma i)) /\
    forall i j, (i < List.length X)%nat -> (j < List.length X)%nat ->
      entry P' i j = entry P i j.
Proof.
  intros HK.
  destruct (magic_fit_returns pairwise_distance self X HK)
    as (sigma & Hlen & Hkth & E).
  destruct (magic_fit_returns rescaled_distance self X HK)
    as (sigma' & Hlen' & Hkth' & E').
  assert (Hsigma : forall i, item sigma' i = scaled c (item sigma i)).
  { intros i. apply (kth_smallest_unique (Hkth' i)).
    rewrite rescaled_row. apply kth_smallest_scaled; [exact Hc | apply Hkth]. }
  rewrite E, E'. cbv zeta. do 2 eexists. exists sigma.
  do 2 eexists. exists sigma'.
  split; [reflexivity|]. split; [reflexivity|].
  split; [reflexivity|]. split; [reflexivity|]. split; [exact Hsigma|].
  intros i j Hi Hj.
  set (C := fst (Affinity._distance_matrix pairwise_distance
                   (MAGICAffinity.base self) X)).
  set (C' := fst (Affinity._distance_matrix rescaled_distance
                    (MAGICAffinity.base self) X)).
  destruct (@normalize_step C sigma) as (_ & _ & He);
    try (rewrite Hlen; reflexivity).
  destruct (@normalize_step C' sigma') as (_ & _ & He');
    try (rewrite Hlen'; reflexivity).
  destruct (@P_shape C sigma) as (HrP & HcP);
    try (rewrite Hlen; reflexivity).
  destruct (@P_shape C' sigma') as (HrP' & HcP');
    try (rewrite Hlen'; reflexivity).
  cbv zeta in *.
  rewrite He by (rewrite ?HrP, ?HcP, ?Hlen; assumption).
  rewrite He' by (rewrite ?HrP', ?HcP', ?Hlen'; assumption).
  assert (Hk : forall a b, entry (magic_kernel C' sigma') a b
                           = entry (magic_kernel C sigma) a b).
  { intros a b. unfold magic_kernel. cbn [entry]. unfold C', C.
    rewrite rescaled_entry, Hsigma. now rewrite scaled_quotient. }
  assert (Hs : forall a b,
             entry (symmetrize (magic_kernel C' sigma')) a b
             = entry (symmetrize (magic_kernel C sigma)) a b).
  { intros a b. unfold symmetrize. cbn [entry]. now rewrite !Hk. }
  unfold row_normalize. cbn [entry]. rewrite Hs. f_equal.
  f_equal. apply row_ext; [reflexivity|]. intros b _. apply Hs.
Qed.

End ScaleInvariance.

(* ================================================================== *)
(** * The bandwidth as a function of [K] and of the data *)
(* ================================================================== *)

Module BandwidthFacts.

Import XRealFacts Spec SortFacts TensorFacts.
Local Open Scope R_scope.

(** The [k]-th smallest entry grows with [k]. *)
Lemma kth_smallest_monotone (l : list xreal) (k1 k2 : nat) (v1 v2 : xreal) :
  kth_smallest l k1 v1 -> kth_smallest l k2 v2 -> (k1 <= k2)%nat ->
  xleb v1 v2 = true.
Proof.
  intros (_ & H1 & _) (_ & _ & H2) Hk.
  destruct (xleb v1 v2) eqn:E; [easy|exfalso].
  assert (Hle : (count_le v2 l <= count_lt v1 l)%nat); [|lia].
  unfold count_le, count_lt. clear H1 H2.
  induction l as [|x l IH]; simpl; [lia|].
  destruct (xleb x v2) eqn:Ex; simpl.
  - assert (Hx : xltb x v1 = true).
    { unfold xltb. destruct (xleb v1 x) eqn:Ev; [|easy].
      now rewrite (xleb_trans _ _ _ Ev Ex) in E. }
    rewrite Hx. simpl. lia.
  - destruct (xltb x v1); simpl; lia.
Qed.

Lemma filter_map_length {A B : Type} (p : B -> bool) (f : A -> B)
      (l : list A) :
  List.length (filter p (map f l))
  = List.length (filter (fun x => p (f x)) l).
Proof.
  induction l as [|x l IH]; simpl; [easy|].
  destruct (p (f x)); simpl; congruence.
Qed.

(** A predicate that holds at every index but one holds at [n - 1] indices
    at least. *)
Lemma filter_all_but_one (q : nat -> bool) (n i : nat) :
  (forall j, (j < n)%nat -> j <> i -> q j = true) ->
  (n - 1 <= List.length (filter q (seq 0 n)))%nat.
Proof.
  intros Hq.
  pose proof (filter_length q (seq 0 n)) as Hsum. rewrite length_seq in Hsum.
  assert (Hone : (List.length (filter (fun x => negb (q x)) (seq 0 n)) <= 1)%nat);
    [|lia].
  pose proof (NoDup_filter (fun x => negb (q x)) (seq_NoDup n 0)) as Hnd.
  assert (Hall : forall x, In x (filter (fun x => negb (q x)) (seq 0 n)) ->
                           x = i).
  { intros x Hx. apply filter_In in Hx. destruct Hx as [Hx Hqx].
    apply in_seq in Hx. destruct (Nat.eq_dec x i) as [|Hne]; [easy|].
    rewrite Hq in Hqx by lia. discriminate. }
  destruct (filter (fun x => negb (q x)) (seq 0 n)) as [|a [|b l]];
    simpl; try lia.
  exfalso. rewrite (Hall a), (Hall b) in Hnd by (simpl; auto).
  inversion Hnd as [|? ? Hnotin _]. apply Hnotin. now left.
Qed.

(** In a row whose diagonal entry is [+inf] and whose other entries are
    positive real numbers, the [k]-th smallest entry for [k < n] is a
    positive real number. *)
Lemma masked_row_kth_positive (T : tensor) (i k : nat) (v : xreal) :
  entry T i i = PInf ->
  (forall j, (j < ncols T)%nat -> j <> i ->
     exists c, entry T i j = Fin c /\ 0 < c) ->
  (k < ncols T)%nat ->
  kth_smallest (row T i) k v ->
  positive v.
Proof.
  intros Hdiag Hoff Hk (Hin & Hlt & _).
  apply row_In in Hin. destruct Hin as (j & Hj & ->).
  destruct (Nat.eq_dec j i) as [-> | Hne]; [|now apply Hoff].
  exfalso. rewrite Hdiag in Hlt. unfold count_lt, row in Hlt.
  rewrite filter_map_length in Hlt.
  pose proof (@filter_all_but_one
                (fun j => xltb (entry T i j) PInf) (ncols T) i) as Hcount.
  cbv beta in Hcount.
  assert ((ncols T - 1 <= List.length
             (filter (fun j => xltb (entry T i j) PInf) (seq 0 (ncols T))))%nat);
    [|lia].
  apply Hcount. intros j Hj' Hne. destruct (Hoff j Hj' Hne) as (c & -> & _).
  reflexivity.
Qed.

End BandwidthFacts.

Section BandwidthOrder.

Import XRealFacts Spec SortFacts TensorFacts MagicFacts BandwidthFacts.
Local Open Scope R_scope.

Variable sample : Type.
Variable pairwise_distance : string -> sample -> sample -> xreal.

#[local] Abbreviation distance_matrix self X :=
  (fst (Affinity._distance_matrix pairwise_distance self X)).

(** X11.  The fitted bandwidth grows with [K]: of two fits on the same data
    and with the same base configuration, the one with the larger [K]
    stores, for every point, a bandwidth that is at least the other's. *)
Theorem bandwidth_monotone_in_K :
  (forall (st1 st2 st1' st2' : SelfTuningAffinity.t) (X : list sample)
          (logP1 logP2 : tensor) (sigma1 sigma2 : vector),
     SelfTuningAffinity._compute_log_affinity pairwise_distance st1 X
     = inr (logP1, st1') ->
     SelfTuningAffinity._compute_log_affinity pairwise_distance st2 X
     = inr (logP2, st2') ->
     SelfTuningAffinity.base st1 = SelfTuningAffinity.base st2 ->
     (SelfTuningAffinity.K st1 <= SelfTuningAffinity.K st2)%Z ->
     SelfTuningAffinity.sigma_ st1' = Some sigma1 ->
     SelfTuningAffinity.sigma_ st2' = Some sigma2 ->
     forall i, xleb (item sigma1 i) (item sigma2 i) = true) /\
  (forall (mg1 mg2 mg1' mg2' : MAGICAffinity.t) (X : list sample)
          (P1 P2 : tensor) (sigma1 sigma2 : vector),
     MAGICAffinity._compute_affinity pairwise_distance mg1 X
     = inr (P1, mg1') ->
     MAGICAffinity._compute_affinity pairwise_distance mg2 X
     = inr (P2, mg2') ->
     MAGICAffinity.base mg1 = MAGICAffinity.base mg2 ->
     (MAGICAffinity.K mg1 <= MAGICAffinity.K mg2)%Z ->
     MAGICAffinity.sigma_ mg1' = Some sigma1 ->
     MAGICAffinity.sigma_ mg2' = Some sigma2 ->
     forall i, xleb (item sigma1 i) (item sigma2 i) = true).
Proof.
  split.
  - intros st1 st2 st1' st2' X logP1 logP2 sigma1 sigma2
           Hfit1 Hfit2 Hbase HK Hs1 Hs2 i.
    destruct (self_tuning_fit_result pairwise_distance _ _ Hfit1)
      as (s1 & Es1 & _ & Hkth1).
    destruct (self_tuning_fit_result pairwise_distance _ _ Hfit2)
      as (s2 & Es2 & _ & Hkth2).
    pose proof (self_tuning_fit_inr _ _ _ Hfit1) as HK1.
    assert (s1 = sigma1) by congruence. assert (s2 = sigma2) by congruence.
    subst s1 s2. rewrite Hbase in Hkth1.
    apply (kth_smallest_monotone (Hkth1 i) (Hkth2 i)). lia.
  - intros mg1 mg2 mg1' mg2' X P1 P2 sigma1 sigma2
           Hfit1 Hfit2 Hbase HK Hs1 Hs2 i.
    destruct (magic_fit_result pairwise_distance _ _ Hfit1)
      as (s1 & Es1 & _ & Hkth1 & _).
    destruct (magic_fit_result pairwise_distance _ _ Hfit2)
      as (s2 & Es2 & _ & Hkth2 & _).
    pose proof (magic_fit_inr _ _ _ Hfit1) as HK1.
    assert (s1 = sigma1) by congruence. assert (s2 = sigma2) by congruence.
    subst s1 s2. rewrite Hbase in Hkth1.
    apply (kth_smallest_monotone (Hkth1 i) (Hkth2 i)). lia.
Qed.

(** X13.  On data without duplicates the bandwidths are not degenerate:
    with [zero_diag = True], [1 <= K <= n - 1] and off-diagonal distances
    that are positive real numbers, both fits return and store bandwidths
    that are positive real numbers. *)
Theorem bandwidth_positive_without_duplicates
  (st : SelfTuningAffinity.t) (mg : MAGICAffinity.t) (X : list sample) :
  Affinity.zero_diag (SelfTuningAffinity.base st) = true ->
  Affinity.zero_diag (MAGICAffinity.base mg) = true ->
  (1 <= SelfTuningAffinity.K st < Z.of_nat (List.length X))%Z ->
  (1 <= MAGICAffinity.K mg < Z.of_nat (List.length X))%Z ->
  (forall i j, (i < List.length X)%nat -> (j < List.length X)%nat -> i <> j ->
     exists c,
       entry (distance_matrix (SelfTuningAffinity.base st) X) i j = Fin c /\
       0 < c) ->
  (forall i j, (i < List.length X)%nat -> (j < List.length X)%nat -> i <> j ->
     exists c,
       entry (distance_matrix (MAGICAffinity.base mg) X) i j = Fin c /\
       0 < c) ->
  (exists logP st' sigma,
     SelfTuningAffinity._compute_log_affinity pairwise_distance st X
     = inr (logP, st') /\
     SelfTuningAffinity.sigma_ st' = Some sigma /\
     forall i, (i < List.length X)%nat -> positive (item sigma i)) /\
  (exists P mg' sigma,
     MAGICAffinity._compute_affinity pairwise_distance mg X = inr (P, mg') /\
     MAGICAffinity.sigma_ mg' = Some sigma /\
     forall i, (i < List.length X)%nat -> positive (item sigma i)).
Proof.
  intros Hzst Hzmg HKst HKmg Hoffst Hoffmg. split.
  - destruct (@self_tuning_fit_returns _ pairwise_distance st X)
      as (sigma & Hlen & Hkth & E); [lia|].
    rewrite E. cbv zeta.
    destruct (SelfTuningAffinity.normalization_dim st);
      do 2 eexists; exists sigma;
      (split; [reflexivity|]); (split; [reflexivity|]);
      intros i Hi;
      (refine (@masked_row_kth_positive
                 (distance_matrix (SelfTuningAffinity.base st) X) i
                 (Z.to_nat (SelfTuningAffinity.K st)) (item sigma i)
                 _ _ _ (Hkth i));
       [ now apply masked_diagonal
       | intros j Hj Hne; apply Hoffst; auto
       | cbn; lia ]).
  - destruct (@magic_fit_returns _ pairwise_distance mg X)
      as (sigma & Hlen & Hkth & E); [lia|].
    rewrite E. cbv zeta. do 2 eexists. exists sigma.
    split; [reflexivity|]. split; [reflexivity|].
    intros i Hi.
    refine (@masked_row_kth_positive
              (distance_matrix (MAGICAffinity.base mg) X) i
              (Z.to_nat (MAGICAffinity.K mg)) (item sigma i)
              _ _ _ (Hkth i)).
    + now apply masked_diagonal.
    + intros j Hj Hne. apply Hoffmg; auto.
    + cbn. lia.
Qed.

End BandwidthOrder.

Section WithoutDuplicates.

Import XRealFacts Spec SortFacts TensorFacts MagicFacts MarkovFacts
       BandwidthFacts.
Local Open Scope R_scope.

Variable sample : Type.
Variable pairwise_distance : string -> sample -> sample -> xreal.

#[local] Abbreviation distance_matrix self X :=
  (fst (Affinity._distance_matrix pairwise_distance self X)).

(** X14.  On data without duplicates a MAGIC fit gives a Markov transition
    matrix without self-transitions: with [zero_diag = True],
    [1 <= K <= n - 1] and off-diagonal distances that are positive real
    numbers, the fit returns a matrix whose entries are real numbers
    between 0 and 1, whose diagonal is 0 and whose rows sum to one. *)
Theorem magic_transition_matrix_without_duplicates
  (self : MAGICAffinity.t) (X : list sample) :
  Affinity.zero_diag (MAGICAffinity.base self) = true ->
  (1 <= MAGICAffinity.K self < Z.of_nat (List.length X))%Z ->
  (forall i j, (i < List.length X)%nat -> (j < List.length X)%nat -> i <> j ->
     exists c,
       entry (distance_matrix (MAGICAffinity.base self) X) i j = Fin c /\
       0 < c) ->
  exists P self',
    MAGICAffinity._compute_affinity pairwise_distance self X
    = inr (P, self') /\
    forall i, (i < List.length X)%nat ->
      entry P i i = Fin 0 /\
      xsum (row P i) = Fin 1 /\
      forall j, (j < List.length X)%nat -> probability (entry P i j).
Proof.
  intros Hz HK Hoff.
  destruct (@magic_fit_returns _ pairwise_distance self X)
    as (sigma & Hlen & Hkth & E); [lia|].
  set (C := distance_matrix (MAGICAffinity.base self) X) in *.
  assert (Hpos : forall i, (i < List.length X)%nat -> positive (item sigma i)).
  { intros i Hi.
    refine (@masked_row_kth_positive C i
              (Z.to_nat (MAGICAffinity.K self)) (item sigma i)
              _ _ _ (Hkth i)).
    - now apply masked_diagonal.
    - intros j Hj Hne. apply Hoff; auto.
    - cbn. lia. }
  assert (Hoff' : forall i j, (i < List.length X)%nat ->
                    (j < List.length X)%nat -> i <> j ->
                    exists c, entry C i j = Fin c).
  { intros i j Hi Hj Hne. destruct (Hoff i j Hi Hj Hne) as (c & Ec & _).
    eauto. }
  rewrite E. cbv zeta. do 2 eexists. split; [reflexivity|].
  intros i Hi.
  destruct (@magic_zero_diagonal _ pairwise_distance
              (MAGICAffinity.base self) X sigma Hz Hlen Hpos Hoff'
              i _ Hi (Hkth i)) as [Hdiag Hsum].
  split; [exact Hdiag|]. split; [exact Hsum|].
  assert (Hstoch : forall j, (j < vlen sigma)%nat ->
            probability
              (entry (let A := texp (_log_MAGIC C sigma) in
                      let S := tdiv_scalar (tadd A (matrix_transpose A)) 2 in
                      tdiv S (sum_red S Axis1)) i j)).
  { apply stochastic_row; try (rewrite Hlen; reflexivity || assumption).
    - intros a b Ha Hb. rewrite Hlen in Ha, Hb.
      now apply (masked_distance_value pairwise_distance
                   (MAGICAffinity.base self) X Hz Hoff').
    - destruct (@other_point _ pairwise_distance (MAGICAffinity.base self)
                  X sigma Hz Hpos i _ Hi (Hkth i)) as (j & Hj & Hne).
      apply Exists_exists. exists (entry C i j). split.
      + apply row_In. now exists j.
      + destruct (Hoff' i j Hi Hj (not_eq_sym Hne)) as (c & ->).
        reflexivity. }
  intros j Hj. apply Hstoch. now rewrite Hlen.
Qed.

(** X16.  On data without duplicates the default normalization of the
    self-tuning affinity gives a probability distribution over the pairs of
    distinct points: with [zero_diag = True], the joint axes [(0, 1)],
    [1 <= K <= n - 1] and off-diagonal distances that are positive real
    numbers, the fit returns, the exponentials of all entries of the result
    sum to one, and those on the diagonal are 0. *)
Theorem self_tuning_distribution_without_duplicates
  (self : SelfTuningAffinity.t) (X : list sample) :
  Affinity.zero_diag (SelfTuningAffinity.base self) = true ->
  SelfTuningAffinity.normalization_dim self = Some Dim01 ->
  (1 <= SelfTuningAffinity.K self < Z.of_nat (List.length X))%Z ->
  (forall i j, (i < List.length X)%nat -> (j < List.length X)%nat -> i <> j ->
     exists c,
       entry (distance_matrix (SelfTuningAffinity.base self) X) i j = Fin c /\
       0 < c) ->
  exists logP self',
    SelfTuningAffinity._compute_log_affinity pairwise_distance self X
    = inr (logP, self') /\
    xsum (map xexp (entries logP)) = Fin 1 /\
    forall i, (i < List.length X)%nat -> xexp (entry logP i i) = Fin 0.
Proof.
  intros Hz Hdim HK Hoff.
  destruct (@self_tuning_fit_returns _ pairwise_distance self X)
    as (sigma & Hlen & Hkth & E); [lia|].
  set (C := distance_matrix (SelfTuningAffinity.base self) X) in *.
  assert (Hpos : forall i, (i < List.length X)%nat -> positive (item sigma i)).
  { intros i Hi.
    refine (@masked_row_kth_positive C i
              (Z.to_nat (SelfTuningAffinity.K self)) (item sigma i)
              _ _ _ (Hkth i)).
    - now apply masked_diagonal.
    - intros j Hj Hne. apply Hoff; auto.
    - cbn. lia. }
  assert (Hoff' : forall i j, (i < List.length X)%nat ->
                    (j < List.length X)%nat -> i <> j ->
                    exists c, entry C i j = Fin c).
  { intros i j Hi Hj Hne. destruct (Hoff i j Hi Hj Hne) as (c & Ec & _).
    eauto. }
  pose proof (fun i j => @masked_distance_value _ pairwise_distance
                (SelfTuningAffinity.base self) X Hz Hoff' i j) as Hdist.
  rewrite E, Hdim. cbv zeta. do 2 eexists. split; [reflexivity|].
  set (raw := _log_SelfTuning C sigma).
  destruct (@log_SelfTuning_shape C sigma) as [Hr Hc];
    try (rewrite Hlen; reflexivity).
  fold raw in Hr, Hc. rewrite Hlen in Hr, Hc.
  pose proof (raw_log_weights pairwise_distance
                (SelfTuningAffinity.base self) X sigma Hlen Hpos Hdist)
    as Hw. fold C raw in Hw. cbv zeta in Hw.
  split.
  - destruct (SelfTuningFacts.entries_tsub_joint raw) as (_ & _ & _ & Ee).
    rewrite Ee, map_map.
    change (entry (logsumexp_red raw Dim01) 0 0)
      with (xlog (xsum (map xexp (entries raw)))).
    apply SelfTuningFacts.logsumexp_normalized.
    + apply Forall_forall. intros x Hx.
      apply SelfTuningFacts.entries_In in Hx.
      destruct Hx as (i & j & Hi & Hj & ->).
      rewrite Hr in Hi. rewrite Hc in Hj. now apply Hw.
    + assert (H0 : (0 < List.length X)%nat) by lia.
      destruct (@other_point _ pairwise_distance
                  (SelfTuningAffinity.base self) X sigma Hz Hpos 0%nat _ H0
                  (Hkth 0%nat)) as (j & Hj & Hne).
      apply Exists_exists. exists (entry raw 0 j). split.
      * apply SelfTuningFacts.entries_In. exists 0%nat, j.
        now rewrite Hr, Hc.
      * apply Hw; try assumption.
        destruct (Hoff' 0%nat j H0 Hj (not_eq_sym Hne)) as (c & ->).
        reflexivity.
  - intros i Hi.
    pose proof (@self_tuning_zero_diagonal _ pairwise_distance
                  (SelfTuningAffinity.base self) X sigma Hz Hlen Hpos Hoff'
                  (Some Dim01) i _ Hi (Hkth i)) as Hd.
    cbv zeta in Hd. fold C raw in Hd. now rewrite Hd.
Qed.

End WithoutDuplicates.

(* ================================================================== *)
(** * The instance PHATE builds *)
(* ================================================================== *)

Section PhateInstance.

Local Open Scope R_scope.
Local Open Scope result_scope.

Variables NegPotentialAffinity_t NegativeCostAffinity_t AffinityMatcher_t : Type.
Variable NegPotentialAffinity :
  PHATE.NegPotentialAffinity_args -> result NegPotentialAffinity_t.
Variable NegativeCostAffinity :
  PHATE.NegativeCostAffinity_args -> result NegativeCostAffinity_t.
Variable AffinityMatcher__init__ :
  PHATE.AffinityMatcher_args NegPotentialAffinity_t NegativeCostAffinity_t ->
  result AffinityMatcher_t.

#[local] Abbreviation init :=
  (PHATE.__init__ NegPotentialAffinity NegativeCostAffinity
     AffinityMatcher__init__).

(** X15.  Every instance [PHATE.__init__] returns is consistent with its
    parts: the input affinity was built with the [n_neighbors], [t] and
    [eps] the instance stores, both affinities and the base class were given
    one and the same backend and device, and that backend is not FAISS. *)
Theorem phate_instance_is_consistent
  (class_name : string) (kw : PHATE.kwargs)
  (self : PHATE.t AffinityMatcher_t) :
  init class_name kw = inr self ->
  exists args_in args_out args a_in a_out,
    NegPotentialAffinity args_in = inr a_in /\
    NegativeCostAffinity args_out = inr a_out /\
    AffinityMatcher__init__ args = inr (PHATE.super self) /\
    PHATE.affinity_in args = a_in /\
    PHATE.affinity_out args = a_out /\
    PHATE.np_K args_in = PHATE.n_neighbors self /\
    PHATE.np_t args_in = PHATE.t_ self /\
    PHATE.np_eps args_in = PHATE.eps self /\
    PHATE.np_backend args_in = PHATE.backend args /\
    PHATE.nc_backend args_out = PHATE.backend args /\
    PHATE.np_device args_in = PHATE.device args /\
    PHATE.nc_device args_out = PHATE.device args /\
    PHATE.backend args <> Some "faiss"%string.
Proof.
  unfold PHATE.__init__.
  destruct (PHATE.is_faiss (kwarg None (PHATE.kw_backend kw))) eqn:Hb;
    [discriminate|].
  match goal with
  | |- context [NegPotentialAffinity ?a] =>
      destruct (NegPotentialAffinity a) as [e1|a_in] eqn:E1
  end; cbn [bind]; [discriminate|].
  match goal with
  | |- context [NegativeCostAffinity ?a] =>
      destruct (NegativeCostAffinity a) as [e2|a_out] eqn:E2
  end; cbn [bind]; [discriminate|].
  match goal with
  | |- context [AffinityMatcher__init__ ?a] =>
      destruct (AffinityMatcher__init__ a) as [e3|base] eqn:E3
  end; cbn [bind]; [discriminate|].
  intros [= <-].
  do 3 eexists. exists a_in, a_out.
  split; [exact E1|]. split; [exact E2|]. split; [exact E3|].
  cbn. repeat split.
  now apply is_faiss_false.
Qed.

End PhateInstance.

(* ================================================================== *)
(** * The further theorems on the three points of a line *)
(* ================================================================== *)

Module LineFacts.

Import XRealFacts Spec SortFacts TensorFacts MagicFacts SelfTuningFacts
       Data Examples.
Local Open Scope R_scope.

Section Line.

Variable self : Affinity.t.
Hypothesis Hzero : Affinity.zero_diag self = true.

#[local] Abbreviation C :=
  (fst (Affinity._distance_matrix sqeuclidean_oracle self line3)).

Lemma line3_symmetric (i j : nat) :
  (i < 3)%nat -> (j < 3)%nat -> entry C i j = entry C j i.
Proof.
  intros Hi Hj.
  destruct (line3_distances self Hzero)
    as ((E00 & E01 & E02) & (E10 & E11 & E12) & (E20 & E21 & E22)).
  destruct i as [|[|[|i]]]; [| | |lia];
    (destruct j as [|[|[|j]]]; [| | |lia]); congruence.
Qed.

Lemma line3_off_diagonal_positive (i j : nat) :
  (i < 3)%nat -> (j < 3)%nat -> i <> j ->
  exists c, entry C i j = Fin c /\ 0 < c.
Proof.
  intros Hi Hj Hne.
  destruct (line3_distances self Hzero)
    as ((E00 & E01 & E02) & (E10 & E11 & E12) & (E20 & E21 & E22)).
  destruct i as [|[|[|i]]]; [| | |lia];
    (destruct j as [|[|[|j]]]; [| | |lia]); try congruence;
    eexists; (split; [eassumption | lra]).
Qed.

Lemma line3_distance_value (i j : nat) :
  (i < 3)%nat -> (j < 3)%nat -> distance_value (entry C i j).
Proof.
  intros Hi Hj.
  apply (masked_distance_value sqeuclidean_oracle self line3 Hzero
           (line3_off_diagonal self Hzero) Hi Hj).
Qed.

Lemma line3_row_finite (i : nat) :
  (i < 3)%nat -> Exists (fun x => is_finite x = true) (row C i).
Proof.
  intros Hi. destruct (line3_rows self Hzero) as (R0 & R1 & R2).
  destruct i as [|[|[|i]]]; [| | |lia].
  - rewrite R0. right. now left.
  - rewrite R1. now left.
  - rewrite R2. now left.
Qed.

End Line.

(** The self-tuning fit with one neighbour returns on the line, with
    positive bandwidths, under every normalization. *)
Lemma self_tuning_fit_line3 (d : option axes) :
  exists logP st' sigma,
    SelfTuningAffinity._compute_log_affinity sqeuclidean_oracle
      (self_tuning_K1_with d) line3 = inr (logP, st') /\
    SelfTuningAffinity.sigma_ st' = Some sigma /\
    forall i, (i < 3)%nat -> positive (item sigma i).
Proof.
  destruct (@self_tuning_fit_returns _ sqeuclidean_oracle
              (self_tuning_K1_with d) line3)
    as (sigma & _ & Hkth & E); [simpl; lia|].
  cbv zeta in E. cbn [SelfTuningAffinity.normalization_dim
    self_tuning_K1_with SelfTuningAffinity.__init__ kwarg
    SelfTuningAffinity.kw_normalization_dim] in E.
  pose proof (@line3_positive
                (SelfTuningAffinity.base (self_tuning_K1_with d)) sigma
                eq_refl Hkth) as Hpos.
  destruct d; do 2 eexists; exists sigma;
    (split; [exact E|]); (split; [reflexivity | exact Hpos]).
Qed.

(** The same for the MAGIC fit. *)
Lemma magic_fit_line3_positive :
  exists P mg' sigma,
    MAGICAffinity._compute_affinity sqeuclidean_oracle magic_K1 line3
    = inr (P, mg') /\
    MAGICAffinity.sigma_ mg' = Some sigma /\
    vlen sigma = 3%nat /\
    (forall i, kth_smallest
       (row (fst (Affinity._distance_matrix sqeuclidean_oracle
                    (MAGICAffinity.base magic_K1) line3)) i)
       1 (item sigma i)) /\
    forall i, (i < 3)%nat -> positive (item sigma i).
Proof.
  destruct (@magic_fit_returns _ sqeuclidean_oracle magic_K1 line3)
    as (sigma & Hlen & Hkth & E); [simpl; lia|].
  cbv zeta in E.
  pose proof (@line3_positive (MAGICAffinity.base magic_K1) sigma
                eq_refl Hkth) as Hpos.
  do 2 eexists. exists sigma.
  split; [exact E|]. split; [reflexivity|]. auto.
Qed.

End LineFacts.

Section FurtherWitnesses.

Import XRealFacts Spec TensorFacts MagicFacts SelfTuningFacts Data Examples
       LineFacts.
Local Open Scope R_scope.

Lemma self_tuning_fit_frame_witness :
  exists logP self',
    SelfTuningAffinity._compute_log_affinity sqeuclidean_oracle
      (self_tuning_K1_with None) line3 = inr (logP, self') /\
    SelfTuningAffinity.log_normalization_ self' = None /\
    SelfTuningAffinity.K self' = 1%Z.
Proof.
  destruct (@self_tuning_fit_returns _ sqeuclidean_oracle
              (self_tuning_K1_with None) line3)
    as (sigma & _ & _ & E); [simpl; lia|].
  cbv zeta in E. cbn [SelfTuningAffinity.normalization_dim
    self_tuning_K1_with SelfTuningAffinity.__init__ kwarg
    SelfTuningAffinity.kw_normalization_dim] in E.
  do 2 eexists. split; [exact E|].
  destruct (@self_tuning_fit_frame _ sqeuclidean_oracle
              (self_tuning_K1_with None) _ line3 _ E)
    as (_ & HK & _ & Hnone).
  destruct (Hnone eq_refl) as [Hlog _].
  split; [exact Hlog | exact HK].
Defined.

Lemma refit_is_idempotent_witness :
  exists logP st' P mg',
    SelfTuningAffinity._compute_log_affinity sqeuclidean_oracle
      self_tuning_K1 line3 = inr (logP, st') /\
    MAGICAffinity._compute_affinity sqeuclidean_oracle magic_K1 line3
    = inr (P, mg') /\
    SelfTuningAffinity._compute_log_affinity sqeuclidean_oracle st' line3
    = inr (logP, st') /\
    MAGICAffinity._compute_affinity sqeuclidean_oracle mg' line3
    = inr (P, mg').
Proof.
  destruct (self_tuning_fit_line3 (Some Dim01)) as (logP & st' & _ & Hst & _).
  destruct magic_fit_line3 as (P & mg' & Hmg & _).
  exists logP, st', P, mg'. split; [exact Hst|]. split; [exact Hmg|].
  exact (@refit_is_idempotent _ sqeuclidean_oracle self_tuning_K1 st'
           magic_K1 mg' line3 logP P Hst Hmg).
Defined.

Lemma fit_shapes_witness :
  exists P mg' sigma,
    MAGICAffinity._compute_affinity sqeuclidean_oracle magic_K1 line3
    = inr (P, mg') /\
    MAGICAffinity.sigma_ mg' = Some sigma /\
    vlen sigma = 3%nat /\ nrows P = 3%nat /\ ncols P = 3%nat.
Proof.
  refine (proj2 (@fit_shapes _ sqeuclidean_oracle self_tuning_K1 magic_K1
                   line3 _ _)); simpl; lia.
Defined.

Lemma axis_normalization_sums_to_one_witness :
  exists logP self',
    SelfTuningAffinity._compute_log_affinity sqeuclidean_oracle
      (self_tuning_K1_with (Some (Dim Axis1))) line3 = inr (logP, self') /\
    xsum (map xexp (row logP 0)) = Fin 1.
Proof.
  destruct (@axis_normalization_sums_to_one _ sqeuclidean_oracle
              (self_tuning_K1_with (Some (Dim Axis1))) line3 Axis1 eq_refl)
    as (logP & self' & sigma & Hfit & Hsigma & Hsum); [simpl; lia|].
  destruct (@self_tuning_fit_result _ sqeuclidean_oracle _ self' line3 logP
              Hfit) as (sigma' & Hsigma' & _ & Hkth).
  assert (sigma' = sigma) by congruence. subst sigma'.
  exists logP, self'. split; [exact Hfit|].
  set (base := SelfTuningAffinity.base
                 (self_tuning_K1_with (Some (Dim Axis1)))) in *.
  apply (Hsum (@line3_positive base sigma eq_refl Hkth)
              (@line3_distance_value base eq_refl)
              0%nat ltac:(simpl; lia)
              (@line3_row_finite base eq_refl 0%nat ltac:(lia))).
Defined.

Lemma symmetric_log_affinity_witness :
  exists logP self',
    SelfTuningAffinity._compute_log_affinity sqeuclidean_oracle
      self_tuning_K1 line3 = inr (logP, self') /\
    entry logP 0 1 = entry logP 1 0.
Proof.
  destruct (@symmetric_log_affinity _ sqeuclidean_oracle self_tuning_K1 line3
              (or_intror eq_refl))
    as (logP & self' & Hfit & Hsym); [simpl; lia|].
  exists logP, self'. split; [exact Hfit|].
  apply Hsym; try (simpl; lia).
  apply (@line3_symmetric (SelfTuningAffinity.base self_tuning_K1) eq_refl).
Defined.

Lemma row_column_duality_witness :
  exists logP0 st0' logP1 st1',
    SelfTuningAffinity._compute_log_affinity sqeuclidean_oracle
      (self_tuning_K1_with (Some (Dim Axis0))) line3 = inr (logP0, st0') /\
    SelfTuningAffinity._compute_log_affinity sqeuclidean_oracle
      (self_tuning_K1_with (Some (Dim Axis1))) line3 = inr (logP1, st1') /\
    entry logP0 0 1 = entry (matrix_transpose logP1) 0 1.
Proof.
  destruct (@row_column_duality _ sqeuclidean_oracle
              (self_tuning_K1_with (Some (Dim Axis0)))
              (self_tuning_K1_with (Some (Dim Axis1))) line3
              eq_refl eq_refl eq_refl eq_refl)
    as (logP0 & st0' & logP1 & st1' & Hfit0 & Hfit1 & Hdual);
    [simpl; lia|].
  exists logP0, st0', logP1, st1'.
  split; [exact Hfit0|]. split; [exact Hfit1|].
  apply Hdual; try (simpl; lia).
  apply (@line3_symmetric
           (SelfTuningAffinity.base (self_tuning_K1_with (Some (Dim Axis1))))
           eq_refl).
Defined.

Lemma magic_is_row_stochastic_witness :
  exists P self',
    MAGICAffinity._compute_affinity sqeuclidean_oracle magic_K1 line3
    = inr (P, self') /\
    xsum (row P 0) = Fin 1 /\ probability (entry P 0 1).
Proof.
  destruct (@magic_is_row_stochastic _ sqeuclidean_oracle magic_K1 line3)
    as (P & self' & sigma & Hfit & Hsigma & Hrows); [simpl; lia|].
  destruct (@magic_fit_result _ sqeuclidean_oracle magic_K1 self' line3 P
              Hfit) as (sigma' & Hsigma' & _ & Hkth & _).
  assert (sigma' = sigma) by congruence. subst sigma'.
  destruct (Hrows (@line3_positive (MAGICAffinity.base magic_K1) sigma
                     eq_refl Hkth)
                  (@line3_distance_value (MAGICAffinity.base magic_K1)
                     eq_refl)
                  0%nat ltac:(simpl; lia)
                  (@line3_row_finite (MAGICAffinity.base magic_K1)
                     eq_refl 0%nat ltac:(lia))) as [Hsum Hprob].
  exists P, self'. split; [exact Hfit|]. split; [exact Hsum|].
  apply Hprob. simpl. lia.
Defined.

Lemma magic_detailed_balance_witness :
  exists P mg' r0 r1,
    MAGICAffinity._compute_affinity sqeuclidean_oracle magic_K1 line3
    = inr (P, mg') /\
    0 < r0 /\ 0 < r1 /\
    xmul (Fin r0) (entry P 0 1) = xmul (Fin r1) (entry P 1 0).
Proof.
  destruct magic_fit_line3_positive
    as (P & mg' & sigma & Hfit & Hsigma & Hlen & Hkth & Hpos).
  destruct (@magic_row_sum_positive _ sqeuclidean_oracle
              (MAGICAffinity.base magic_K1) line3 sigma eq_refl Hlen Hpos
              (@line3_off_diagonal (MAGICAffinity.base magic_K1) eq_refl)
              0%nat _ ltac:(simpl; lia) (Hkth 0%nat)) as (r0 & Hs0 & Hp0).
  destruct (@magic_row_sum_positive _ sqeuclidean_oracle
              (MAGICAffinity.base magic_K1) line3 sigma eq_refl Hlen Hpos
              (@line3_off_diagonal (MAGICAffinity.base magic_K1) eq_refl)
              1%nat _ ltac:(simpl; lia) (Hkth 1%nat)) as (r1 & Hs1 & Hp1).
  exists P, mg', r0, r1. split; [exact Hfit|].
  split; [exact Hp0|]. split; [exact Hp1|].
  exact (@magic_detailed_balance _ sqeuclidean_oracle magic_K1 mg' line3 P
           sigma 0%nat 1%nat r0 r1 Hfit Hsigma
           ltac:(simpl; lia) ltac:(simpl; lia) (conj Hs0 Hs1) Hp0 Hp1).
Defined.

Lemma kernel_weights_in_unit_interval_witness :
  xexp (entry (_log_SelfTuning unit_distances unit_bandwidths) 0 0) = Fin 1 /\
  probability (xexp (entry (_log_MAGIC unit_distances unit_bandwidths) 0 1)).
Proof.
  split.
  - exact (proj2 (proj1 (@kernel_weights_in_unit_interval
                           unit_distances unit_bandwidths 0%nat 0%nat 0
                           eq_refl eq_refl ltac:(simpl; lia) ltac:(simpl; lia)
                           (ex_intro _ 1 (conj eq_refl Rlt_0_1))
                           (ex_intro _ 1 (conj eq_refl Rlt_0_1))
                           eq_refl (Rle_refl 0)))
             eq_refl).
  - exact (proj1 (proj2 (@kernel_weights_in_unit_interval
                           unit_distances unit_bandwidths 0%nat 1%nat 1
                           eq_refl eq_refl ltac:(simpl; lia) ltac:(simpl; lia)
                           (ex_intro _ 1 (conj eq_refl Rlt_0_1))
                           (ex_intro _ 1 (conj eq_refl Rlt_0_1))
                           eq_refl Rle_0_1))).
Defined.

Lemma magic_scale_invariant_witness :
  exists P self1 P' self2,
    MAGICAffinity._compute_affinity sqeuclidean_oracle magic_K1 line3
    = inr (P, self1) /\
    MAGICAffinity._compute_affinity (rescaled_oracle 2) magic_K1 line3
    = inr (P', self2) /\
    entry P' 0 1 = entry P 0 1.
Proof.
  destruct (@magic_scale_invariant _ sqeuclidean_oracle (rescaled_oracle 2) 2
              Rlt_0_2 (fun _ _ _ => eq_refl) magic_K1 line3)
    as (P & self1 & sigma & P' & self2 & sigma' & Hfit & Hfit' & _ & _ & _
        & Hsame); [simpl; lia|].
  exists P, self1, P', self2. split; [exact Hfit|]. split; [exact Hfit'|].
  apply Hsame; simpl; lia.
Defined.

Lemma bandwidth_monotone_in_K_witness :
  exists P1 mg1' sigma1 P2 mg2' sigma2,
    MAGICAffinity._compute_affinity sqeuclidean_oracle magic_K1 line3
    = inr (P1, mg1') /\
    MAGICAffinity._compute_affinity sqeuclidean_oracle (magic_with_K 2) line3
    = inr (P2, mg2') /\
    MAGICAffinity.sigma_ mg1' = Some sigma1 /\
    MAGICAffinity.sigma_ mg2' = Some sigma2 /\
    xleb (item sigma1 0) (item sigma2 0) = true.
Proof.
  destruct (@magic_fit_returns _ sqeuclidean_oracle magic_K1 line3)
    as (sigma1 & _ & _ & E1); [simpl; lia|].
  destruct (@magic_fit_returns _ sqeuclidean_oracle (magic_with_K 2) line3)
    as (sigma2 & _ & _ & E2); [simpl; lia|].
  cbv zeta in E1, E2.
  do 2 eexists. exists sigma1. do 2 eexists. exists sigma2.
  split; [exact E1|]. split; [exact E2|].
  split; [reflexivity|]. split; [reflexivity|].
  exact (proj2 (@bandwidth_monotone_in_K _ sqeuclidean_oracle)
           magic_K1 (magic_with_K 2) _ _ line3 _ _ sigma1 sigma2
           E1 E2 eq_refl ltac:(simpl; lia) eq_refl eq_refl 0%nat).
Defined.

Lemma bandwidth_positive_without_duplicates_witness :
  exists P mg' sigma,
    MAGICAffinity._compute_affinity sqeuclidean_oracle magic_K1 line3
    = inr (P, mg') /\
    MAGICAffinity.sigma_ mg' = Some sigma /\
    forall i, (i < 3)%nat -> positive (item sigma i).
Proof.
  refine (proj2 (@bandwidth_positive_without_duplicates _ sqeuclidean_oracle
                   self_tuning_K1 magic_K1 line3 eq_refl eq_refl _ _ _ _)).
  - simpl. lia.
  - simpl. lia.
  - apply (@line3_off_diagonal_positive
             (SelfTuningAffinity.base self_tuning_K1) eq_refl).
  - apply (@line3_off_diagonal_positive
             (MAGICAffinity.base magic_K1) eq_refl).
Defined.

Lemma magic_transition_matrix_without_duplicates_witness :
  exists P self',
    MAGICAffinity._compute_affinity sqeuclidean_oracle magic_K1 line3
    = inr (P, self') /\
    forall i, (i < 3)%nat ->
      entry P i i = Fin 0 /\
      xsum (row P i) = Fin 1 /\
      forall j, (j < 3)%nat -> probability (entry P i j).
Proof.
  refine (@magic_transition_matrix_without_duplicates _ sqeuclidean_oracle
            magic_K1 line3 eq_refl _ _).
  - simpl. lia.
  - apply (@line3_off_diagonal_positive
             (MAGICAffinity.base magic_K1) eq_refl).
Defined.

Lemma phate_instance_is_consistent_witness :
  exists (args_in : PHATE.NegPotentialAffinity_args)
         (args : PHATE.AffinityMatcher_args PHATE.NegPotentialAffinity_args
                   PHATE.NegativeCostAffinity_args),
    record_args args_in = inr (PHATE.affinity_in args) /\
    PHATE.np_K args_in = 10%Z /\
    PHATE.np_backend args_in = PHATE.backend args /\
    PHATE.backend args <> Some "faiss"%string.
Proof.
  destruct (@phate_instance_is_consistent _ _ _ record_args record_args
              record_args "PHATE"%string PHATE.no_kwargs _ eq_refl)
    as (args_in & args_out & args & a_in & a_out & Hin & _ & _ & Ein & _
        & HK & _ & _ & Hb & _ & _ & _ & Hfaiss).
  exists args_in, args. rewrite Ein.
  split; [exact Hin|]. split; [exact HK|]. split; [exact Hb | exact Hfaiss].
Defined.

Lemma self_tuning_distribution_without_duplicates_witness :
  exists logP self',
    SelfTuningAffinity._compute_log_affinity sqeuclidean_oracle
      self_tuning_K1 line3 = inr (logP, self') /\
    xsum (map xexp (entries logP)) = Fin 1 /\
    forall i, (i < 3)%nat -> xexp (entry logP i i) = Fin 0.
Proof.
  refine (@self_tuning_distribution_without_duplicates _ sqeuclidean_oracle
            self_tuning_K1 line3 eq_refl eq_refl _ _).
  - simpl. lia.
  - apply (@line3_off_diagonal_positive
             (SelfTuningAffinity.base self_tuning_K1) eq_refl).
Defined.

End FurtherWitnesses.
